(** * louis: braille graphics library -- a shallow embedding of [louis.h]

    The C header draws points, lines, curves and bitmaps into a buffer of
    braille cells and encodes that buffer as UTF-8 for a VT100 terminal.
    This development embeds the rasterisation and encoding routines and
    states their properties.

    Modelling conventions.
    - [int] and [unsigned char] values are integers of [Z]; the surfaces
      considered are well formed ([wf_surface]), which keeps every [int]
      expression of the code inside the 32-bit range, so no wrap-around
      occurs; stores into an [unsigned char] are written with [mod 256].
    - [float] is IEEE 754 binary32 and [double] is binary64, both through the
      executable specification [SpecFloat] of the standard library
      (round-to-nearest-even, one rounding per operation).
    - a conversion from a floating-point number to [int] truncates toward
      zero and is undefined in C when the result does not fit: it is a
      partial function here.
    - the [while] loops run on fuel; [OutOfFuel] is the only way in which
      the model of a loop differs from the loop. *)

From Stdlib Require Import ZArith Bool Lia SpecFloat.
From stdpp Require Import base list.

Local Open Scope Z_scope.

(** ** Floating-point numbers *)

Module F32.
Definition prec : Z := 24.
Definition emax : Z := 128.
Definition add := SFadd prec emax.
Definition sub := SFsub prec emax.
Definition mul := SFmul prec emax.
Definition div := SFdiv prec emax.
Definition ltb := SFltb.
Definition eqb := SFeqb.
(** Conversion of an [int] to [float] (round to nearest even). *)
Definition of_int (z : Z) : spec_float := binary_normalize prec emax z 0 false.
(** The dyadic number [m * 2^e], rounded to [float]. *)
Definition of_dyadic (m e : Z) : spec_float := binary_normalize prec emax m e false.
End F32.

Module F64.
Definition prec : Z := 53.
Definition emax : Z := 1024.
Definition add := SFadd prec emax.
(** Promotion of a [float] to [double]: exact. *)
Definition of_float (f : spec_float) : spec_float :=
  match f with
  | S754_finite s m e => binary_normalize prec emax (cond_Zopp s (Zpos m)) e s
  | _ => f
  end.
(** The literal [0.5]. *)
Definition half : spec_float := binary_normalize prec emax 1 (-1) false.
End F64.

(** The literals [1.0f], [-1.0f] and [0.2f]. *)
Definition f_one : spec_float := F32.of_int 1.
Definition f_minus_one : spec_float := F32.of_int (-1).
Definition f_0_2 : spec_float := S754_finite false 13421773 (-26).

Definition INT_MIN : Z := - 2 ^ 31.
Definition INT_MAX : Z := 2 ^ 31 - 1.

(** [(int) f]: truncation toward zero; [None] where C leaves the conversion
    undefined (NaN, infinities, values outside the range of [int]). *)
Definition to_int (f : spec_float) : option Z :=
  match f with
  | S754_zero _ => Some 0
  | S754_finite s m e =>
      let mag := if 0 <=? e then Zpos m * 2 ^ e else Zpos m / 2 ^ (- e) in
      let z := cond_Zopp s mag in
      if (INT_MIN <=? z) && (z <=? INT_MAX) then Some z else None
  | _ => None
  end.

(** The exact value of a finite float as a fraction [num / den]. *)
Definition exact_num (f : spec_float) : Z :=
  match f with
  | S754_finite s m e => cond_Zopp s (if 0 <=? e then Zpos m * 2 ^ e else Zpos m)
  | _ => 0
  end.
Definition exact_den (f : spec_float) : Z :=
  match f with
  | S754_finite s m e => if 0 <=? e then 1 else 2 ^ (- e)
  | _ => 1
  end.

(** ** Miscellaneous utility functions *)

(** [fAbs]: [(a > b) ? (a - b) : (b - a)]. *)
Definition fAbs (a b : spec_float) : spec_float :=
  if F32.ltb b a then F32.sub a b else F32.sub b a.

(** [fRound]: [(int)(n + 0.5)], the sum being computed in [double]. *)
Definition fRound (n : spec_float) : option Z :=
  to_int (F64.add (F64.of_float n) F64.half).

(** A value reduced to the range of [int] (two's complement). *)
Definition wrap_int (z : Z) : Z := (z + 2 ^ 31) mod 2 ^ 32 - 2 ^ 31.

(** [littleToBigEndian]: assemble four bytes, least significant first.
    The result is an [int]: with a last byte of 128 or more the shift by 24
    leaves the range of [int], and the bits are read as a negative number. *)
Definition littleToBigEndian (b0 b1 b2 b3 : Z) : Z :=
  wrap_int
    (Z.lor (Z.lor (Z.lor b0 (Z.shiftl b1 8)) (Z.shiftl b2 16)) (Z.shiftl b3 24)).

(** ** The dot-position table and the surface *)

Definition braillePositionVals : list Z := [64; 128; 4; 32; 2; 16; 1; 8].

Record Surface := mkSurface {
  data : list Z;
  width : Z;
  height : Z
}.

(** The invariant of a surface: one byte per cell, and dimensions whose
    products stay inside [int]. *)
Definition wf_surface (s : Surface) : Prop :=
  0 <= width s /\ 0 <= height s /\
  width s * height s * 4 <= INT_MAX /\
  width s * 2 <= INT_MAX /\ height s * 4 <= INT_MAX /\
  Z.of_nat (length (data s)) = width s * height s /\
  Forall (fun b => 0 <= b < 256) (data s).

(** ** drawPoint *)

(** Offset of the cell of pixel [(x, y)], as the pointer expression of the
    code computes it. *)
Definition cellOffset (s : Surface) (x y : Z) : Z :=
  width s * height s - width s - Z.quot y 4 * width s + Z.quot x 2.

(** Bit value of the dot of pixel [(x, y)] within its cell. *)
Definition positionVal (x y : Z) : Z :=
  nth (Z.to_nat (Z.rem y 4 * 2 + Z.rem x 2)) braillePositionVals 0.

(** The body of [drawPoint] after the two roundings. *)
Definition drawPixel (s : Surface) (x y value : Z) : Z * Surface :=
  if (x <? 0) || (y <? 0) || (x >=? width s * 2) || (y >=? height s * 4)
  then (-1, s)
  else
    let off := Z.to_nat (cellOffset s x y) in
    let old := default 0 (data s !! off) in
    let new := if value =? 0
               then Z.land old (Z.lnot (positionVal x y)) mod 256
               else Z.lor old (positionVal x y) mod 256 in
    (0, mkSurface (<[off := new]> (data s)) (width s) (height s)).

Definition drawPoint (s : Surface) (fx fy : spec_float) (value : Z)
  : option (Z * Surface) :=
  match fRound fx, fRound fy with
  | Some x, Some y => Some (drawPixel s x y value)
  | _, _ => None
  end.

(** Reading a dot back: the bit of the pixel in the cell of the pixel.
    The library has no reader of its own; this is the observation that the
    encoder makes of a cell, restricted to one dot. *)
Definition readDot (s : Surface) (x y : Z) : bool :=
  negb (Z.land (default 0 (data s !! Z.to_nat (cellOffset s x y)))
               (positionVal x y) =? 0).

Definition blank (w h : Z) : Surface :=
  mkSurface (replicate (Z.to_nat (w * h)) 0) w h.

(** The pixels lit on a surface, row by row from the bottom. *)
Definition pixels (s : Surface) : list (Z * Z) :=
  y ← seqZ 0 (height s * 4); x ← seqZ 0 (width s * 2); [(x, y)].

Definition litDots (s : Surface) : list (Z * Z) :=
  filter (fun p => readDot s p.1 p.2 = true) (pixels s).

(** ** Loops *)

Inductive outcome (A : Type) : Type :=
| Done (a : A)      (* the loop was left with this state *)
| Undefined         (* a conversion to [int] had no defined result *)
| OutOfFuel.        (* the loop was still running when the fuel ended *)
Arguments Done {A} a.
Arguments Undefined {A}.
Arguments OutOfFuel {A}.

(** ** drawLine *)

(** [v += (v < target) ? 1.0f : -1.0f] *)
Definition stepToward (v target : spec_float) : spec_float :=
  F32.add v (if F32.ltb v target then f_one else f_minus_one).

(** The guard [fAbs(x1, x2) > 1 || fAbs(y1, y2) > 1]. *)
Definition lineCond (x1 y1 x2 y2 : spec_float) : bool :=
  F32.ltb f_one (fAbs x1 x2) || F32.ltb f_one (fAbs y1 y2).

Inductive branch := VerticalStep | XStep | YStep.

(** The branch that the loop body takes; [inf], [slope] do not change
    during the loop. *)
Definition lineBranch (inf : bool) (slope : spec_float) : branch :=
  if inf then VerticalStep
  else if F32.ltb slope f_one then XStep
  else YStep.

(** One execution of the loop body, up to the call of [drawPoint]. *)
Definition lineStep (inf : bool) (slope yint x2 y2 x1 y1 : spec_float)
  : spec_float * spec_float :=
  match lineBranch inf slope with
  | VerticalStep => (x1, stepToward y1 y2)
  | XStep =>
      let x1' := stepToward x1 x2 in
      (x1', F32.add (F32.mul x1' slope) yint)
  | YStep =>
      let y1' := stepToward y1 y2 in
      (F32.div (F32.sub y1' yint) slope, y1')
  end.

Fixpoint lineLoop (fuel : nat) (inf : bool) (slope yint x2 y2 : spec_float)
    (s : Surface) (x1 y1 : spec_float) : outcome Surface :=
  if lineCond x1 y1 x2 y2 then
    match fuel with
    | O => OutOfFuel
    | S fuel' =>
        let '(x1', y1') := lineStep inf slope yint x2 y2 x1 y1 in
        match drawPoint s x1' y1' 1 with
        | None => Undefined
        | Some (_, s') => lineLoop fuel' inf slope yint x2 y2 s' x1' y1'
        end
    end
  else Done s.

(** [slope] and [yint] are left uninitialised by the code when [x1 == x2],
    and are not read then; the model puts a NaN there. *)
Definition lineInf (x1 x2 : spec_float) : bool := F32.eqb x1 x2.
Definition lineSlope (x1 y1 x2 y2 : spec_float) : spec_float :=
  if lineInf x1 x2 then S754_nan else F32.div (F32.sub y2 y1) (F32.sub x2 x1).
Definition lineYint (x1 y1 x2 y2 : spec_float) : spec_float :=
  if lineInf x1 x2 then S754_nan
  else F32.sub y1 (F32.mul (lineSlope x1 y1 x2 y2) x1).

Definition drawLine (fuel : nat) (s : Surface) (x1 y1 x2 y2 : spec_float)
  : outcome Surface :=
  match drawPoint s x1 y1 1 with
  | None => Undefined
  | Some (_, s') =>
      lineLoop fuel (lineInf x1 x2) (lineSlope x1 y1 x2 y2)
               (lineYint x1 y1 x2 y2) x2 y2 s' x1 y1
  end.

(** ** drawCurve *)

(** The value assigned to [int y]: the quadratic in [float] arithmetic,
    converted to [int], then [y /= 10] in [int] arithmetic. *)
Definition curveQuad (a b c x : spec_float) : spec_float :=
  F32.add (F32.add (F32.mul a (F32.mul x x)) (F32.mul b x)) c.

Definition curveY (a b c x : spec_float) : option Z :=
  match to_int (curveQuad a b c x) with
  | Some y => Some (Z.quot y 10)
  | None => None
  end.

Fixpoint drawCurve (fuel : nat) (s : Surface) (x1 x2 a b c : spec_float)
  : outcome Surface :=
  if F32.ltb x1 x2 then
    match fuel with
    | O => OutOfFuel
    | S fuel' =>
        let x1' := F32.add x1 f_0_2 in
        match curveY a b c x1' with
        | None => Undefined
        | Some y =>
            match drawPoint s x1' (F32.of_int y) 1 with
            | None => Undefined
            | Some (_, s') => drawCurve fuel' s' x1' x2 a b c
            end
        end
    end
  else Done s.

(** ** utf8Encode and genBrailleTab *)

(** The three bytes are [unsigned char]; the result packs them with the
    first byte of the sequence in the low byte. *)
Definition utf8Encode (utf8 : Z) : Z :=
  let enc1 := Z.lor 0xE0 (Z.shiftr (Z.land utf8 0xF000) 12) mod 256 in
  let enc2 := Z.lor 0x80 (Z.shiftr (Z.land utf8 0x0FC0) 6) mod 256 in
  let enc3 := Z.lor 0x80 (Z.land utf8 0x003F) mod 256 in
  Z.lor (Z.lor (Z.shiftl enc3 16) (Z.shiftl enc2 8)) enc1.

(** [static int brailleTab[256]] starts zeroed; the loop fills it entry by
    entry, [i] running from [0x00] to [0xFF]. *)
Definition brailleTab0 : list Z := replicate 256 0.

Definition genBrailleTab : list Z :=
  foldl (fun tab i => <[Z.to_nat i := utf8Encode (0x2800 + i)]> tab)
        brailleTab0 (seqZ 0 256).

(** The three bytes of UTF-8 for a code point of [0x800 .. 0xFFFF], as the
    standard gives them: [1110xxxx 10xxxxxx 10xxxxxx]. *)
Definition utf8_three_bytes (cp : Z) : list Z :=
  [0xE0 + cp / 4096; 0x80 + (cp / 64) mod 64; 0x80 + cp mod 64].

(** ** render *)

(** What [memcpy(p, brailleTab + c, 3)] reads: the first three bytes of the
    [int] in memory, the least significant first (a little-endian host, as
    [utf8Encode] assumes). *)
Definition glyphBytes (v : Z) : list Z :=
  [Z.land v 255; Z.land (Z.shiftr v 8) 255; Z.land (Z.shiftr v 16) 255].

(** ["\x1b[?25l"] and ["\x1b[H"] *)
Definition hideCursor : list Z := [0x1b; 0x5b; 0x3f; 0x32; 0x35; 0x6c].
Definition cursorHome : list Z := [0x1b; 0x5b; 0x48].

(** [memcpy(buf + p, src, length src)] on a buffer that is long enough. *)
Definition memcpy (buf : list Z) (p : nat) (src : list Z) : list Z :=
  take p buf ++ src ++ drop (p + length src) buf.

(** The loop over the cells: [i] counts up to [len], [p] advances by 3. *)
Fixpoint renderCells (tab : list Z) (cells : list Z) (n : nat) (i : nat)
    (buf : list Z) (p : nat) : list Z * nat :=
  match n with
  | O => (buf, p)
  | S n' =>
      let c := default 0 (cells !! i) in
      let g := default 0 (tab !! Z.to_nat c) in
      renderCells tab cells n' (S i) (memcpy buf p (glyphBytes g)) (p + 3)
  end.

(** [render]: [screenBuffer] is the buffer allocated by the first call,
    of [width * height * 3 + 12] bytes with arbitrary contents; the result
    is what [write] sends. *)
Definition render (tab : list Z) (screenBuffer : list Z) (s : Surface) : list Z :=
  let len := Z.to_nat (width s * height s) in
  let b1 := memcpy screenBuffer 0 hideCursor in
  let b2 := memcpy b1 6 cursorHome in
  let '(b3, p) := renderCells tab (data s) len 0 b2 9 in
  let b4 := memcpy b3 p cursorHome in
  take (len * 3 + 12) b4.

(** ** loadBitmap *)

Definition byteAt (buf : list Z) (i : Z) : Z := default 0 (buf !! Z.to_nat i).

Definition readInt (buf : list Z) (off : Z) : Z :=
  littleToBigEndian (byteAt buf off) (byteAt buf (off + 1))
                    (byteAt buf (off + 2)) (byteAt buf (off + 3)).

(** [pixel = (r << 24) | (g << 16) | (b << 8)] as an [unsigned int], then
    [pixel ? 0 : 1]. *)
Definition pixelValue (r g b : Z) : Z :=
  Z.lor (Z.lor (Z.shiftl r 24) (Z.shiftl g 16)) (Z.shiftl b 8) mod 2 ^ 32.

Definition pixelByte (r g b : Z) : Z :=
  if pixelValue r g b =? 0 then 1 else 0.

(** The byte written for the pixel at [bufOffset = y * width + x]. *)
Definition decodePixel (buf : list Z) (dataOffset bufOffset : Z) : Z :=
  let b := byteAt buf (dataOffset + bufOffset * 3) in
  let g := byteAt buf (dataOffset + bufOffset * 3 + 1) in
  let r := byteAt buf (dataOffset + bufOffset * 3 + 2) in
  pixelByte r g b.

(** [buf] is the contents of the file; [dataOffset] is an [unsigned int].
    A read through [byteAt] behind the end of the file gives 0 here, where
    the code reads outside its block, and the offsets are not reduced to
    [int]: the properties of [loadBitmap] are stated for the files that
    keep the code inside both, [rasterInBounds]. *)
Definition loadBitmap (buf : list Z) : Surface :=
  let w := readInt buf 0x12 in
  let h := readInt buf 0x16 in
  let dataOffset := readInt buf 0x0A mod 2 ^ 32 in
  mkSurface
    (y ← seqZ 0 h; x ← seqZ 0 w; [decodePixel buf dataOffset (y * w + x)])
    w h.

(** A raster file with a 54-byte header and 24-bit pixels, for the
    examples: only the three fields that the decoder reads are filled. *)
Definition le4 (v : Z) : list Z :=
  [Z.land v 255; Z.land (Z.shiftr v 8) 255;
   Z.land (Z.shiftr v 16) 255; Z.land (Z.shiftr v 24) 255].

Definition rasterFile (w h : Z) (pixelData : list Z) : list Z :=
  replicate 10 0 ++ le4 54 ++ replicate 4 0 ++ le4 w ++ le4 h
  ++ replicate 28 0 ++ pixelData.

(** Floats of the examples: [dy m e] is [m * 2^e], [fi z] is the integer [z]. *)
Definition dy (m e : Z) : spec_float := F32.of_dyadic m e.
Definition fi (z : Z) : spec_float := F32.of_int z.

(** ** clearSurface and initSurface *)

(** [clearSurface]: the two nested loops store 0 at [y * width + x].  The
    index is an [int] in the code: the properties below are stated for
    surfaces whose number of cells [width * height] is at most [INT_MAX],
    where it does not overflow. *)
Definition clearSurface (s : Surface) : Surface :=
  mkSurface
    (foldl (fun d y =>
              foldl (fun d x => <[Z.to_nat (y * width s + x) := 0]> d)
                    d (seqZ 0 (width s)))
           (data s) (seqZ 0 (height s)))
    (width s) (height s).

(** [initSurface]: [ws_col] and [ws_row] are the two fields that [ioctl]
    fills, [mem] is the block that [malloc] returns, of [width * height]
    bytes with arbitrary contents. *)
Definition initSurface (ws_col ws_row : Z) (mem : list Z) : Surface :=
  clearSurface (mkSurface mem ws_col ws_row).

(** ** drawRect and drawBitmap *)

(** A [for] loop over the values of a list, the body of which may have no
    defined result. *)
Fixpoint forEach {S A : Type} (body : S -> A -> option S) (l : list A) (st : S)
  : option S :=
  match l with
  | [] => Some st
  | a :: l' =>
      match body st a with
      | Some st' => forEach body l' st'
      | None => None
      end
  end.

(** [drawPoint(s, x, y, value)] with [int] arguments: they are converted
    to [float] at the call; the result of the call is dropped. *)
Definition plotInt (s : Surface) (x y value : Z) : option Surface :=
  match drawPoint s (F32.of_int x) (F32.of_int y) value with
  | Some (_, s') => Some s'
  | None => None
  end.

(** [drawRect]: the filled rectangle row by row; the outline as the two
    rows, then the two columns without their ends. *)
Definition drawRect (s : Surface) (x y w h fill : Z) : option Surface :=
  if fill =? 0 then
    match forEach (fun s i =>
                     match plotInt s (x + i) y 1 with
                     | Some s1 => plotInt s1 (x + i) (y + h - 1) 1
                     | None => None
                     end) (seqZ 0 w) s with
    | Some s1 =>
        forEach (fun s i =>
                   match plotInt s x (y + i) 1 with
                   | Some s2 => plotInt s2 (x + w - 1) (y + i) 1
                   | None => None
                   end) (seqZ 1 (h - 2)) s1
    | None => None
    end
  else
    forEach (fun s i => forEach (fun s j => plotInt s (x + j) (y + i) 1)
                                (seqZ 0 w) s)
            (seqZ 0 h) s.

(** [drawBitmap]: the state of the loops is the surface and the offset of
    [p] in the data of the bitmap; the body of the inner loop is
    [drawPoint(s, x + j, y + i, *p++)]. *)
Definition blitBody (bitmap : Surface) (x y i : Z) (st : Surface * Z) (j : Z)
  : option (Surface * Z) :=
  let '(s, p) := st in
  match plotInt s (x + j) (y + i) (byteAt (data bitmap) p) with
  | Some s' => Some (s', p + 1)
  | None => None
  end.

Definition drawBitmap (s bitmap : Surface) (x y : Z) : option Surface :=
  match forEach (fun st i =>
                   forEach (blitBody bitmap x y i) (seqZ 0 (width bitmap)) st)
                (seqZ 0 (height bitmap)) (s, 0) with
  | Some (s', _) => Some s'
  | None => None
  end.

(** ** Definitions used in the statements *)

(** The position of the bit of a dot: [positionVal x y = 2 ^ bitIndex x y]. *)
Definition bitIndex (x y : Z) : Z :=
  nth (Z.to_nat (Z.rem y 4 * 2 + Z.rem x 2)) [6; 7; 2; 5; 1; 4; 0; 3] 0.

Definition inRange (s : Surface) (x y : Z) : Prop :=
  0 <= x < width s * 2 /\ 0 <= y < height s * 4.

(** The spec's rounding: the nearest integer, halves going up, that is
    the floor of [n + 1/2], on the exact value of the float. *)
Definition roundHalfUp (n : spec_float) : Z :=
  (2 * exact_num n + exact_den n) / (2 * exact_den n).

(** A raster file that [loadBitmap] decodes without leaving the block it
    read the file into, and without leaving the range of [int]: the three
    header fields lie inside the file, the size of the file is an [int],
    the dimensions are not negative, and the [width * height] pixels of
    three bytes from the data offset on lie inside the file. *)
Definition rasterInBounds (buf : list Z) : Prop :=
  let w := readInt buf 0x12 in
  let h := readInt buf 0x16 in
  0x1A <= Z.of_nat (length buf) <= INT_MAX /\
  0 <= w /\ 0 <= h /\
  readInt buf 0x0A mod 2 ^ 32 + w * h * 3 <= Z.of_nat (length buf).

(** The three low bytes of an [int] as they lie in memory, the least
    significant first: what a copy of three bytes from a table entry reads
    on a little-endian host. *)
Definition lowBytes3 (v : Z) : list Z :=
  [v mod 256; (v / 256) mod 256; (v / 65536) mod 256].

(** The glyphs of the cells [i], ..., [i + n - 1]. *)
Definition glyphsFrom (tab cells : list Z) (i n : nat) : list Z :=
  j ← seq i n;
  glyphBytes (default 0 (tab !! Z.to_nat (default 0 (cells !! j)))).

(** The thresholding that the spec and the comment above [loadBitmap]
    describe: white is 0, everything else is 1. *)
Definition pixelByte_white_only (r g b : Z) : Z :=
  if (r =? 0xFF) && (g =? 0xFF) && (b =? 0xFF) then 0 else 1.

(** The value of [x1] after [k] executions of [x1 += 0.2f]. *)
Definition curveX (k : nat) (x1 : spec_float) : spec_float :=
  Nat.iter k (fun x => F32.add x f_0_2) x1.

(** The abscissas of the first [n] samples: the loop adds the step before
    it evaluates the quadratic. *)
Definition curveXs (n : nat) (x1 : spec_float) : list spec_float :=
  (fun k => curveX k x1) <$> seq 1 n.

(** One sample: the pixel [(fRound x, fRound (float) y)] with
    [y = (int) (a x^2 + b x + c) / 10] is plotted with value 1. *)
Definition plotSample (a b c : spec_float) (s : Surface) (x : spec_float)
  : option Surface :=
  match curveY a b c x with
  | None => None
  | Some y =>
      match drawPoint s x (F32.of_int y) 1 with
      | None => None
      | Some (_, s') => Some s'
      end
  end.

Fixpoint plotSamples (a b c : spec_float) (s : Surface) (xs : list spec_float)
  : option Surface :=
  match xs with
  | [] => Some s
  | x :: xs' =>
      match plotSample a b c s x with
      | None => None
      | Some s' => plotSamples a b c s' xs'
      end
  end.

(** The amended claim of the curve rasterizer, in definitions of its own.
    The value of a sample is the quadratic in [float] arithmetic, the
    square first, one rounding for each operation. *)
Definition quadratic (a b c x : spec_float) : spec_float :=
  F32.add (F32.add (F32.mul a (F32.mul x x)) (F32.mul b x)) c.

(** The exact value of a float truncated toward zero, where that is an
    [int]. *)
Definition truncated (f : spec_float) : option Z :=
  match f with
  | S754_zero _ | S754_finite _ _ _ =>
      let z := Z.quot (exact_num f) (exact_den f) in
      if (INT_MIN <=? z) && (z <=? INT_MAX) then Some z else None
  | _ => None
  end.

(** The row of the sample at [x]: the truncated value of the quadratic,
    divided by 10 with truncation toward zero. *)
Definition sampleRow (a b c x : spec_float) : option Z :=
  match truncated (quadratic a b c x) with
  | Some y => Some (Z.quot y 10)
  | None => None
  end.

(** The surface after the samples at [xs]: each is plotted with value 1 in
    the column of [x] and the row [sampleRow]. *)
Fixpoint plotRows (a b c : spec_float) (s : Surface) (xs : list spec_float)
  : option Surface :=
  match xs with
  | [] => Some s
  | x :: xs' =>
      match sampleRow a b c x with
      | None => None
      | Some y =>
          match drawPoint s x (F32.of_int y) 1 with
          | None => None
          | Some (_, s') => plotRows a b c s' xs'
          end
      end
  end.

(** The curve rasterizer in the words of the spec: sample at [x], starting
    from [xStart], while [x] is below [xEnd]; divide the value by 10, round
    it (the rounding of the plotter) and plot; then advance by 0.2. *)
Fixpoint drawCurve_spec (fuel : nat) (s : Surface) (x xEnd a b c : spec_float)
  : outcome Surface :=
  if F32.ltb x xEnd then
    match fuel with
    | O => OutOfFuel
    | S fuel' =>
        match drawPoint s x (F32.div (curveQuad a b c x) (fi 10)) 1 with
        | None => Undefined
        | Some (_, s') => drawCurve_spec fuel' s' (F32.add x f_0_2) xEnd a b c
        end
    end
  else Done s.







(** Storing 0 at each index of a list of indices. *)
Definition zeroAll (d : list Z) (idxs : list nat) : list Z :=
  foldl (fun d k => <[k := 0]> d) d idxs.

(** The indices that the two loops of [clearSurface] visit, in order. *)
Definition cellIndices (w h : Z) : list nat :=
  y ← seqZ 0 h; (fun x => Z.to_nat (y * w + x)) <$> seqZ 0 w.

(** The surface after a call of [drawPoint] on a pixel. *)
Definition plot (s : Surface) (x y value : Z) : Surface := (drawPixel s x y value).2.

(** The pixel of bit [k] of the cell at offset [j]. *)
Definition dotOfBit (k : Z) : Z * Z :=
  nth (Z.to_nat k) [(0, 3); (0, 2); (0, 1); (1, 3); (1, 2); (1, 1); (0, 0); (1, 0)]
      (0, 0).

(** A mantissa of exactly [prec] bits with an exponent in the range of the
    normal numbers: such a number is its own rounding. *)
Definition normal (prec emax : Z) (m : positive) (e : Z) : Prop :=
  Zpos (digits2_pos m) = prec /\ 3 - emax - prec <= e <= emax - prec.

(** The normal form of the positive integer [n] at precision [prec]. *)
Definition nmant (prec n : Z) : positive := Z.to_pos (n * 2 ^ (prec - 1 - Z.log2 n)).
Definition nexp (prec n : Z) : Z := Z.log2 n + 1 - prec.

(** The rounding of [drawPoint] on an integer. *)
Definition roundInt (z : Z) : Z := if z <? 0 then z + 1 else z.

(** Plotting a list of pixels with their values, in order. *)
Definition plotAll (s : Surface) (l : list (Z * Z * Z)) : Surface :=
  foldl (fun s t => plot s t.1.1 t.1.2 t.2) s l.

(** The integers that [float] holds exactly and that the rounding of
    [drawPoint] is proved on. *)
Definition exactInt (z : Z) : Prop := - 2 ^ 24 < z < 2 ^ 24.

(** The value that the last entry for a pixel gives it. *)
Fixpoint lastValue (l : list (Z * Z * Z)) (q : Z * Z) : option Z :=
  match l with
  | [] => None
  | t :: l' =>
      match lastValue l' q with
      | Some v => Some v
      | None => if bool_decide (q = t.1) then Some t.2 else None
      end
  end.

(** The pixels of the filled rectangle, in the order of the loops. *)
Definition rectPixels (x y w h : Z) : list (Z * Z) :=
  i ← seqZ 0 h; (fun j => (x + j, y + i)) <$> seqZ 0 w.

(** The pixels of the outline, in the order of the loops. *)
Definition outlinePixels (x y w h : Z) : list (Z * Z) :=
  (i ← seqZ 0 w; [(x + i, y); (x + i, y + h - 1)])
  ++ (i ← seqZ 1 (h - 2); [(x, y + i); (x + w - 1, y + i)]).

(** The pixels of row [i] with their values, [p0] being the offset of
    the first. *)
Definition blitRow (bitmap : Surface) (x y : Z) (i p0 a : Z) (n : nat) : list (Z * Z * Z) :=
  (fun j => (x + j, y + i, byteAt (data bitmap) (p0 + (j - a))))
    <$> seqZ a (Z.of_nat n).

(** The pixels that [drawBitmap] plots with their values, in the order of
    the loops. *)
Definition blitPixels (bitmap : Surface) (x y : Z) : list (Z * Z * Z) :=
  i ← seqZ 0 (height bitmap);
  (fun j => (x + j, y + i, byteAt (data bitmap) (i * width bitmap + j)))
    <$> seqZ 0 (width bitmap).

(** The same range, as a bound on the absolute value. *)
Definition small (z : Z) : Prop := Z.abs z < 2 ^ 24.

(** The direction of the steps from [a] to [t]. *)
Definition stepDir (a t : Z) : Z := if a <? t then 1 else -1.

(** The values that the stepped coordinate takes after the start: [n]
    steps from [a] toward [t]. *)
Definition walkFrom (a t : Z) (n : nat) : list Z :=
  (fun k => a + k * stepDir a t) <$> seqZ 1 (Z.of_nat n).

(** The code point that three bytes of UTF-8 carry. *)
Definition decodeGlyph (b1 b2 b3 : Z) : Z :=
  (b1 mod 16) * 4096 + (b2 mod 64) * 64 + b3 mod 64.

(** The cell values of the first [n] glyphs of a byte stream: the code
    points, less the start [0x2800] of the block of the dot patterns. *)
Fixpoint decodeGlyphs (n : nat) (bs : list Z) : list Z :=
  match n, bs with
  | S n', b1 :: b2 :: b3 :: rest =>
      (decodeGlyph b1 b2 b3 - 0x2800) :: decodeGlyphs n' rest
  | _, _ => []
  end.

(** The cells that a terminal shows for a frame: the glyphs between the
    two leading escape sequences and the trailing one. *)
Definition decodeFrame (out : list Z) : list Z :=
  decodeGlyphs (Z.to_nat ((Z.of_nat (length out) - 12) / 3)) (drop 9 out).

(** * Properties *)

(** ** Bits *)

Section Bits.

Lemma land_pow2 (a k : Z) :
  0 <= k -> Z.land a (2 ^ k) = if Z.testbit a k then 2 ^ k else 0.
Proof.
  intros Hk. apply Z.bits_inj'. intros n Hn.
  rewrite Z.land_spec, Z.pow2_bits_eqb by lia.
  destruct (Z.eqb_spec k n) as [-> | Hne].
  - destruct (Z.testbit a n); simpl.
    + rewrite Z.pow2_bits_eqb by lia. symmetry. apply Z.eqb_refl.
    + symmetry. apply Z.bits_0.
  - rewrite andb_false_r. destruct (Z.testbit a k).
    + rewrite Z.pow2_bits_eqb by lia. symmetry. now apply Z.eqb_neq.
    + symmetry. apply Z.bits_0.
Qed.

Lemma land_pow2_eqb (a k : Z) :
  0 <= k -> negb (Z.land a (2 ^ k) =? 0) = Z.testbit a k.
Proof.
  intros Hk. rewrite land_pow2 by lia. destruct (Z.testbit a k); simpl.
  - assert (0 < 2 ^ k) by (apply Z.pow_pos_nonneg; lia).
    destruct (Z.eqb_spec (2 ^ k) 0); [lia | reflexivity].
  - reflexivity.
Qed.

Lemma byte_high_bits (a n : Z) : 0 <= a < 256 -> 8 <= n -> Z.testbit a n = false.
Proof.
  intros Ha Hn. destruct (Z.eq_dec a 0) as [-> | Hne]; [apply Z.bits_0 |].
  apply Z.bits_above_log2; [lia |].
  assert (Z.log2 a < 8) by (apply Z.log2_lt_pow2; lia). lia.
Qed.

Lemma byte_of_bits (a : Z) :
  0 <= a -> (forall n, 8 <= n -> Z.testbit a n = false) -> a < 256.
Proof.
  intros Ha H. destruct (Z.eq_dec a 0) as [-> | Hne]; [lia |].
  destruct (Z_lt_le_dec a 256) as [|Hge]; [assumption | exfalso].
  assert (Hl : 8 <= Z.log2 a) by (apply (Z.log2_le_pow2 a 8); lia).
  specialize (H _ Hl). rewrite Z.bit_log2 in H by lia. discriminate.
Qed.

(** Setting a bit of a byte leaves a byte: the store truncates nothing. *)
Lemma lor_bit_byte (a k : Z) :
  0 <= a < 256 -> 0 <= k < 8 -> Z.lor a (2 ^ k) mod 256 = Z.lor a (2 ^ k).
Proof.
  intros Ha Hk. apply Z.mod_small. split.
  - apply Z.lor_nonneg. split; [lia | apply Z.pow_nonneg; lia].
  - apply byte_of_bits.
    + apply Z.lor_nonneg. split; [lia | apply Z.pow_nonneg; lia].
    + intros n Hn. rewrite Z.lor_spec, Z.pow2_bits_eqb by lia.
      rewrite byte_high_bits by lia.
      destruct (Z.eqb_spec k n); [lia | reflexivity].
Qed.

(** Clearing a bit of a byte leaves a byte as well. *)
Lemma land_lnot_bit_byte (a k : Z) :
  0 <= a < 256 -> 0 <= k < 8 ->
  Z.land a (Z.lnot (2 ^ k)) mod 256 = Z.land a (Z.lnot (2 ^ k)).
Proof.
  intros Ha Hk.
  assert (Hnn : 0 <= Z.land a (Z.lnot (2 ^ k)))
    by (apply Z.land_nonneg; left; lia).
  apply Z.mod_small. split; [assumption |].
  apply byte_of_bits; [assumption |].
  intros n Hn. rewrite Z.land_spec, byte_high_bits by lia. reflexivity.
Qed.

Lemma testbit_set (a k n : Z) :
  0 <= k -> 0 <= n ->
  Z.testbit (Z.lor a (2 ^ k)) n = Z.testbit a n || (k =? n).
Proof. intros. now rewrite Z.lor_spec, Z.pow2_bits_eqb by lia. Qed.

Lemma testbit_clear (a k n : Z) :
  0 <= k -> 0 <= n ->
  Z.testbit (Z.land a (Z.lnot (2 ^ k))) n = Z.testbit a n && negb (k =? n).
Proof.
  intros. now rewrite Z.land_spec, Z.lnot_spec, Z.pow2_bits_eqb by lia.
Qed.

End Bits.

(** ** The point plotter *)

Ltac rem_cases x y :=
  let Hx := fresh "Hx" in
  let Hy := fresh "Hy" in
  assert (Hx : Z.rem x 2 = 0 \/ Z.rem x 2 = 1)
    by (pose proof (Z.rem_bound_pos x 2); lia);
  assert (Hy : Z.rem y 4 = 0 \/ Z.rem y 4 = 1 \/ Z.rem y 4 = 2 \/ Z.rem y 4 = 3)
    by (pose proof (Z.rem_bound_pos y 4); lia).

Section Plotter.

Lemma positionVal_pow2 (x y : Z) :
  0 <= x -> 0 <= y ->
  positionVal x y = 2 ^ bitIndex x y /\ 0 <= bitIndex x y < 8.
Proof.
  intros Hx0 Hy0. unfold positionVal, bitIndex. rem_cases x y.
  destruct Hx as [-> | ->]; destruct Hy as [-> | [-> | [-> | ->]]];
    (split; [reflexivity | simpl; lia]).
Qed.

(** The index into the table is the one of dot row [y mod 4] and dot
    column [x mod 2]. *)
Lemma positionVal_table (x y : Z) :
  0 <= x -> 0 <= y ->
  positionVal x y
  = nth (Z.to_nat ((y mod 4) * 2 + x mod 2)) braillePositionVals 0.
Proof.
  intros. unfold positionVal. now rewrite !Z.rem_mod_nonneg by lia.
Qed.

Lemma bitIndex_inj (x y x' y' : Z) :
  0 <= x -> 0 <= y -> 0 <= x' -> 0 <= y' ->
  bitIndex x y = bitIndex x' y' ->
  x mod 2 = x' mod 2 /\ y mod 4 = y' mod 4.
Proof.
  intros Hx0 Hy0 Hx0' Hy0'. rewrite <- !Z.rem_mod_nonneg by lia.
  unfold bitIndex. rem_cases x y. rem_cases x' y'.
  destruct Hx as [-> | ->]; destruct Hy as [-> | [-> | [-> | ->]]];
    destruct Hx1 as [-> | ->]; destruct Hy1 as [-> | [-> | [-> | ->]]];
    simpl; intros; (split; (reflexivity || lia)).
Qed.

(** Cell row [height - 1 - y / 4], cell column [x / 2]. *)
Lemma cellOffset_row_col (s : Surface) (x y : Z) :
  0 <= x -> 0 <= y ->
  cellOffset s x y = (height s - 1 - y / 4) * width s + x / 2.
Proof.
  intros. unfold cellOffset. rewrite !Z.quot_div_nonneg by lia. ring.
Qed.

Lemma cellOffset_bounds (s : Surface) (x y : Z) :
  inRange s x y -> 0 <= cellOffset s x y < width s * height s.
Proof.
  intros [Hx Hy]. rewrite cellOffset_row_col by lia.
  assert (0 <= x / 2 < width s)
    by (split; [apply Z.div_pos; lia | apply Z.div_lt_upper_bound; lia]).
  assert (0 <= y / 4 < height s)
    by (split; [apply Z.div_pos; lia | apply Z.div_lt_upper_bound; lia]).
  nia.
Qed.

Lemma cellOffset_inj (s : Surface) (x y x' y' : Z) :
  inRange s x y -> inRange s x' y' ->
  cellOffset s x y = cellOffset s x' y' ->
  x / 2 = x' / 2 /\ y / 4 = y' / 4.
Proof.
  intros [Hx Hy] [Hx' Hy']. rewrite !cellOffset_row_col by lia.
  assert (0 <= x / 2 < width s)
    by (split; [apply Z.div_pos; lia | apply Z.div_lt_upper_bound; lia]).
  assert (0 <= x' / 2 < width s)
    by (split; [apply Z.div_pos; lia | apply Z.div_lt_upper_bound; lia]).
  intros Heq.
  assert (y / 4 = y' / 4) by nia.
  split; [nia | assumption].
Qed.

(** Two pixels of the surface with the same cell and the same bit are
    the same pixel. *)
Lemma dot_address_inj (s : Surface) (x y x' y' : Z) :
  inRange s x y -> inRange s x' y' ->
  cellOffset s x y = cellOffset s x' y' ->
  bitIndex x y = bitIndex x' y' ->
  x = x' /\ y = y'.
Proof.
  intros Hr Hr' Hc Hb.
  destruct (cellOffset_inj _ _ _ _ _ Hr Hr' Hc) as [Hq2 Hq4].
  destruct Hr as [Hx Hy], Hr' as [Hx' Hy'].
  destruct (bitIndex_inj x y x' y') as [Hm2 Hm4]; try lia.
  pose proof (Z.div_mod x 2). pose proof (Z.div_mod x' 2).
  pose proof (Z.div_mod y 4). pose proof (Z.div_mod y' 4). lia.
Qed.

Lemma lookup_cell (s : Surface) (x y : Z) :
  wf_surface s -> inRange s x y ->
  exists c, data s !! Z.to_nat (cellOffset s x y) = Some c /\ 0 <= c < 256.
Proof.
  intros (Hw & Hh & _ & _ & _ & Hlen & Hall) Hr.
  pose proof (cellOffset_bounds _ _ _ Hr) as Hb.
  destruct (lookup_lt_is_Some_2 (data s) (Z.to_nat (cellOffset s x y)))
    as [c Hc]; [lia |].
  exists c. split; [assumption |].
  rewrite Forall_lookup in Hall. exact (Hall _ _ Hc).
Qed.

Lemma readDot_testbit (s : Surface) (x y c : Z) :
  0 <= x -> 0 <= y ->
  data s !! Z.to_nat (cellOffset s x y) = Some c ->
  readDot s x y = Z.testbit c (bitIndex x y).
Proof.
  intros Hx Hy Hc. unfold readDot. rewrite Hc. simpl.
  destruct (positionVal_pow2 x y Hx Hy) as [-> Hk].
  apply land_pow2_eqb. lia.
Qed.

Lemma drawPixel_guard (s : Surface) (x y : Z) :
  ((x <? 0) || (y <? 0) || (x >=? width s * 2) || (y >=? height s * 4)
   = false) <-> inRange s x y.
Proof.
  unfold inRange. rewrite !orb_false_iff, !Z.ltb_ge, !Z.geb_leb, !Z.leb_gt. lia.
Qed.

(** What an in-range call stores: the old byte with the bit set or
    cleared, at the offset of the cell; the dimensions stay. *)
Lemma drawPixel_in_range (s : Surface) (x y value : Z) :
  wf_surface s -> inRange s x y ->
  exists c,
    data s !! Z.to_nat (cellOffset s x y) = Some c /\ 0 <= c < 256 /\
    drawPixel s x y value =
    (0, mkSurface
          (<[Z.to_nat (cellOffset s x y) :=
               if value =? 0 then Z.land c (Z.lnot (positionVal x y))
               else Z.lor c (positionVal x y)]> (data s))
          (width s) (height s)).
Proof.
  intros Hwf Hr. destruct (lookup_cell s x y Hwf Hr) as (c & Hc & Hb).
  exists c. split; [assumption | split; [assumption |]].
  unfold drawPixel. rewrite (proj2 (drawPixel_guard s x y) Hr), Hc. simpl.
  destruct Hr as [Hx Hy].
  destruct (positionVal_pow2 x y) as [-> Hk]; try lia.
  destruct (value =? 0).
  - now rewrite land_lnot_bit_byte.
  - now rewrite lor_bit_byte.
Qed.

Lemma drawPixel_out_of_range (s : Surface) (x y value : Z) :
  ~ inRange s x y -> drawPixel s x y value = (-1, s).
Proof.
  intros Hr. unfold drawPixel.
  destruct ((x <? 0) || (y <? 0) || (x >=? width s * 2) || (y >=? height s * 4))
    eqn:E; [reflexivity |].
  apply drawPixel_guard in E. contradiction.
Qed.

Lemma drawPixel_wf (s : Surface) (x y value : Z) :
  wf_surface s -> wf_surface (drawPixel s x y value).2.
Proof.
  intros Hwf. destruct (decide (inRange s x y)) as [Hr | Hr].
  - destruct (drawPixel_in_range s x y value Hwf Hr) as (c & Hc & Hb & ->).
    destruct Hwf as (Hw & Hh & H1 & H2 & H3 & Hlen & Hall).
    simpl. unfold wf_surface. simpl. rewrite length_insert.
    repeat split; try assumption; try lia.
    apply Forall_insert; [assumption |].
    destruct Hr as [Hx Hy].
    destruct (positionVal_pow2 x y) as [-> Hk]; try lia.
    destruct (value =? 0).
    + rewrite <- land_lnot_bit_byte by lia. apply Z.mod_pos_bound. lia.
    + rewrite <- lor_bit_byte by lia. apply Z.mod_pos_bound. lia.
  - now rewrite drawPixel_out_of_range.
Qed.

(** The value read back after an in-range call. *)
Lemma readDot_drawPixel_same (s : Surface) (x y value : Z) :
  wf_surface s -> inRange s x y ->
  readDot (drawPixel s x y value).2 x y = negb (value =? 0).
Proof.
  intros Hwf Hr.
  destruct (drawPixel_in_range s x y value Hwf Hr) as (c & Hc & Hb & ->).
  pose proof (cellOffset_bounds _ _ _ Hr) as Hoff.
  destruct Hwf as (Hw & Hh & _ & _ & _ & Hlen & _).
  destruct Hr as [Hx Hy]. simpl.
  erewrite readDot_testbit; try lia.
  2:{ simpl. unfold cellOffset at 1. simpl. fold (cellOffset s x y).
      apply list_lookup_insert_eq. lia. }
  destruct (positionVal_pow2 x y) as [-> Hk]; try lia.
  destruct (value =? 0); simpl.
  - rewrite testbit_clear by lia. rewrite Z.eqb_refl. apply andb_false_r.
  - rewrite testbit_set by lia. rewrite Z.eqb_refl. apply orb_true_r.
Qed.

(** Every other dot of the surface reads as before. *)
Lemma readDot_drawPixel_other (s : Surface) (x y value x' y' : Z) :
  wf_surface s -> inRange s x y -> inRange s x' y' ->
  (x', y') <> (x, y) ->
  readDot (drawPixel s x y value).2 x' y' = readDot s x' y'.
Proof.
  intros Hwf Hr Hr' Hne.
  destruct (drawPixel_in_range s x y value Hwf Hr) as (c & Hc & Hb & ->).
  destruct (lookup_cell s x' y' Hwf Hr') as (c' & Hc' & Hb').
  pose proof (cellOffset_bounds _ _ _ Hr) as Hoff.
  pose proof (cellOffset_bounds _ _ _ Hr') as Hoff'.
  destruct Hwf as (Hw & Hh & _ & _ & _ & Hlen & _).
  simpl.
  destruct (Z.eq_dec (cellOffset s x' y') (cellOffset s x y)) as [Heq | Hcell].
  - (* same cell, another bit *)
    assert (Hbit : bitIndex x y <> bitIndex x' y').
    { intros Hb2. destruct (dot_address_inj s x y x' y'); try easy.
      apply Hne. congruence. }
    rewrite Heq in Hc'. assert (c' = c) by congruence. subst c'.
    destruct Hr as [Hx Hy], Hr' as [Hx' Hy'].
    erewrite readDot_testbit; try lia.
    2:{ unfold cellOffset at 1. simpl. fold (cellOffset s x' y').
        rewrite Heq. apply list_lookup_insert_eq. lia. }
    erewrite (readDot_testbit s x' y'); try lia.
    2:{ rewrite Heq. exact Hc. }
    destruct (positionVal_pow2 x y) as [-> Hk]; try lia.
    destruct (positionVal_pow2 x' y') as [_ Hk']; try lia.
    destruct (value =? 0).
    + rewrite testbit_clear by lia.
      destruct (Z.eqb_spec (bitIndex x y) (bitIndex x' y')); [contradiction |].
      apply andb_true_r.
    + rewrite testbit_set by lia.
      destruct (Z.eqb_spec (bitIndex x y) (bitIndex x' y')); [contradiction |].
      apply orb_false_r.
  - (* another cell *)
    unfold readDot at 1. unfold cellOffset at 1. simpl.
    fold (cellOffset s x' y').
    rewrite list_lookup_insert_ne by lia. reflexivity.
Qed.

End Plotter.

Lemma wf_blank (w h : Z) :
  0 <= w -> 0 <= h -> w * h * 4 <= INT_MAX -> w * 2 <= INT_MAX ->
  h * 4 <= INT_MAX -> wf_surface (blank w h).
Proof.
  intros. unfold wf_surface, blank. simpl. rewrite length_replicate.
  repeat split; try lia.
  apply Forall_replicate. lia.
Qed.

Section PointClaims.

(** With the rounding that the code performs, the error is returned
    exactly for the points outside the surface, and the surface is
    returned as it was. *)
Lemma drawPoint_bounds_error (s : Surface) (fx fy : spec_float) (x y value : Z) :
  fRound fx = Some x -> fRound fy = Some y ->
  exists r s', drawPoint s fx fy value = Some (r, s') /\
               (r = -1 <-> ~ inRange s x y) /\
               (r = 0 <-> inRange s x y) /\
               (~ inRange s x y -> s' = s).
Proof.
  intros Hx Hy. unfold drawPoint. rewrite Hx, Hy.
  destruct (decide (inRange s x y)) as [Hr | Hr].
  - unfold drawPixel. rewrite (proj2 (drawPixel_guard s x y) Hr).
    eexists _, _. split; [reflexivity |]. intuition congruence.
  - rewrite drawPixel_out_of_range by assumption.
    exists (-1), s. split; [reflexivity |]. intuition congruence.
Qed.

(** On the quarters from -0.5 to 16, [fRound] is the rounding to the
    nearest integer with halves going up ... *)
Lemma fRound_half_up_quarters (k : Z) :
  -2 <= k <= 64 -> fRound (dy k (-2)) = Some (roundHalfUp (dy k (-2))).
Proof.
  intros Hk.
  assert (H : forallb (fun k => bool_decide
                (fRound (dy k (-2)) = Some (roundHalfUp (dy k (-2)))))
              (seqZ (-2) 67) = true) by (vm_compute; reflexivity).
  rewrite forallb_forall in H. specialize (H k).
  rewrite bool_decide_eq_true in H. apply H.
  apply list_elem_of_In, elem_of_seqZ. lia.
Qed.

(** ... and on the quarters from -16 to -0.75 it is one more than that,
    unless [n + 0.5] is an integer. *)
Lemma fRound_toward_zero_quarters (k : Z) :
  -64 <= k < -2 -> k mod 4 <> 2 ->
  fRound (dy k (-2)) = Some (roundHalfUp (dy k (-2)) + 1).
Proof.
  intros Hk Hm.
  assert (H : forallb (fun k => bool_decide
                (k mod 4 <> 2 ->
                 fRound (dy k (-2)) = Some (roundHalfUp (dy k (-2)) + 1)))
              (seqZ (-64) 62) = true) by (vm_compute; reflexivity).
  rewrite forallb_forall in H. specialize (H k).
  rewrite bool_decide_eq_true in H. apply H; [| assumption].
  apply list_elem_of_In, elem_of_seqZ. lia.
Qed.

(** C2 (the code departs from the claim): [fRound] truncates [n + 0.5]
    toward zero, so a coordinate between -1.5 and -0.5 becomes 0 and not
    -1.  At x = -0.75, y = 0 on a surface of one cell the nearest pixel,
    (-1, 0), lies outside the surface, yet [drawPoint] returns 0 and sets
    a dot of the cell. *)
Theorem drawPoint_rounds_negative_fraction_to_zero :
  let s := blank 1 1 in
  let fx := dy (-3) (-2) in
  let fy := fi 0 in
  4 * exact_num fx = -3 * exact_den fx /\
  roundHalfUp fx = -1 /\ roundHalfUp fy = 0 /\
  ~ inRange s (roundHalfUp fx) (roundHalfUp fy) /\
  fRound fx = Some 0 /\
  data s = [0] /\
  drawPoint s fx fy 1 = Some (0, mkSurface [64] 1 1).
Proof.
  cbv zeta. repeat apply conj; try (vm_compute; reflexivity).
  intros [[H _] _]. vm_compute in H. apply H. reflexivity.
Qed.

(** C3: an in-range call updates the cell at offset
    [(height - 1 - y / 4) * width + x / 2] with the bit that the
    dot-position table gives for dot row [y mod 4] and dot column
    [x mod 2], and the dot reads back as the value plotted. *)
Theorem drawPoint_cell_bit_readback
    (s : Surface) (fx fy : spec_float) (x y value : Z) :
  wf_surface s -> fRound fx = Some x -> fRound fy = Some y ->
  inRange s x y ->
  let off := Z.to_nat ((height s - 1 - y / 4) * width s + x / 2) in
  let bit := nth (Z.to_nat ((y mod 4) * 2 + x mod 2)) braillePositionVals 0 in
  exists c s',
    data s !! off = Some c /\
    drawPoint s fx fy value = Some (0, s') /\
    data s' = <[off := if value =? 0 then Z.land c (Z.lnot bit)
                       else Z.lor c bit]> (data s) /\
    width s' = width s /\ height s' = height s /\
    readDot s' x y = negb (value =? 0).
Proof.
  intros Hwf Hx Hy Hr off bit.
  destruct (drawPixel_in_range s x y value Hwf Hr) as (c & Hc & Hb & Hd).
  pose proof (readDot_drawPixel_same s x y value Hwf Hr) as Hread.
  destruct Hr as [Hx0 Hy0].
  subst off bit. rewrite <- cellOffset_row_col, <- positionVal_table by lia.
  exists c, (drawPixel s x y value).2.
  unfold drawPoint. rewrite Hx, Hy.
  split; [assumption |]. split; [now rewrite Hd |].
  rewrite Hd at 1 2 3. simpl. repeat split; try reflexivity. exact Hread.
Qed.

Lemma drawPoint_cell_bit_readback_witness :
  exists s', drawPoint (blank 2 2) (fi 3) (fi 5) 1 = Some (0, s') /\
             data s' = [0; 32; 0; 0] /\ readDot s' 3 5 = true.
Proof.
  destruct (drawPoint_cell_bit_readback (blank 2 2) (fi 3) (fi 5) 3 5 1)
    as (c & s' & Hc & Hd & Hdata & _ & _ & Hread).
  - apply wf_blank; vm_compute; discriminate.
  - vm_compute; reflexivity.
  - vm_compute; reflexivity.
  - unfold inRange; simpl; lia.
  - exists s'. split; [exact Hd |]. split; [| exact Hread].
    vm_compute in Hc. injection Hc as <-. rewrite Hdata. reflexivity.
Defined.

(** C7: an in-range call with a non-zero value ORs the bit of the dot
    into its cell, with value zero it ANDs the cell with the complement
    of the bit; the other bits of the cell, the other cells, and so every
    other dot of the surface are as before. *)
Theorem drawPoint_frame
    (s : Surface) (fx fy : spec_float) (x y value : Z) :
  wf_surface s -> fRound fx = Some x -> fRound fy = Some y ->
  inRange s x y ->
  let off := Z.to_nat (cellOffset s x y) in
  exists c c' s',
    data s !! off = Some c /\
    drawPoint s fx fy value = Some (0, s') /\
    data s' !! off = Some c' /\
    c' = (if value =? 0 then Z.land c (Z.lnot (positionVal x y))
          else Z.lor c (positionVal x y)) /\
    (forall k, 0 <= k -> 2 ^ k <> positionVal x y ->
               Z.testbit c' k = Z.testbit c k) /\
    (forall j, j <> off -> data s' !! j = data s !! j) /\
    length (data s') = length (data s) /\
    (forall x' y', inRange s x' y' -> (x', y') <> (x, y) ->
                   readDot s' x' y' = readDot s x' y').
Proof.
  intros Hwf Hx Hy Hr off.
  destruct (drawPixel_in_range s x y value Hwf Hr) as (c & Hc & Hb & Hd).
  pose proof (cellOffset_bounds _ _ _ Hr) as Hoff.
  assert (Hlen : Z.of_nat (length (data s)) = width s * height s)
    by (destruct Hwf as (_ & _ & _ & _ & _ & Hlen & _); exact Hlen).
  eexists c, _, (drawPixel s x y value).2.
  unfold drawPoint. rewrite Hx, Hy.
  split; [exact Hc |]. split; [now rewrite Hd |].
  split; [rewrite Hd; simpl; apply list_lookup_insert_eq; subst off; lia |].
  split; [reflexivity |].
  split.
  { intros k Hk Hne. destruct Hr as [Hx0 Hy0].
    destruct (positionVal_pow2 x y) as [Hp Hbi]; try lia.
    rewrite Hp in *.
    assert (bitIndex x y <> k) by (intros <-; apply Hne; reflexivity).
    destruct (value =? 0).
    - rewrite testbit_clear by lia.
      destruct (Z.eqb_spec (bitIndex x y) k); [contradiction |].
      apply andb_true_r.
    - rewrite testbit_set by lia.
      destruct (Z.eqb_spec (bitIndex x y) k); [contradiction |].
      apply orb_false_r. }
  split.
  { intros j Hj. rewrite Hd. simpl. apply list_lookup_insert_ne.
    subst off. congruence. }
  split; [rewrite Hd; simpl; apply length_insert |].
  intros x' y' Hr' Hne. now apply readDot_drawPixel_other.
Qed.

Lemma drawPoint_frame_witness :
  exists s', drawPoint (mkSurface [255; 3; 0; 0] 2 2) (fi 1) (fi 4) 0
             = Some (0, s') /\
             data s' = [255 - 128; 3; 0; 0] /\
             readDot s' 0 4 = true /\ readDot s' 1 4 = false.
Proof.
  destruct (drawPoint_frame (mkSurface [255; 3; 0; 0] 2 2) (fi 1) (fi 4) 1 4 0)
    as (c & c' & s' & Hc & Hd & Hc' & Hval & _ & _ & _ & Hother).
  - unfold wf_surface; simpl. repeat split; try (vm_compute; discriminate).
    repeat constructor; lia.
  - vm_compute; reflexivity.
  - vm_compute; reflexivity.
  - unfold inRange; simpl; lia.
  - exists s'. split; [exact Hd |].
    vm_compute in Hd. injection Hd as <-.
    split; [reflexivity |]. split; reflexivity.
Defined.

End PointClaims.

(** ** The Dot Table *)

Section DotTable.

(** The loop of [genBrailleTab] leaves [utf8Encode (0x2800 + i)] at
    every index [i]. *)
Lemma genBrailleTab_map :
  genBrailleTab = (fun i => utf8Encode (0x2800 + i)) <$> seqZ 0 256.
Proof. vm_compute. reflexivity. Qed.

Lemma genBrailleTab_lookup (v : Z) :
  0 <= v <= 255 ->
  genBrailleTab !! Z.to_nat v = Some (utf8Encode (0x2800 + v)).
Proof.
  intros Hv. rewrite genBrailleTab_map, list_lookup_fmap.
  rewrite lookup_seqZ_lt by lia. simpl. do 3 f_equal. lia.
Qed.

(** [utf8Encode] on the code points of the braille patterns, by
    enumeration of the 256 of them. *)
Lemma utf8Encode_enum :
  forallb (fun cp => bool_decide (glyphBytes (utf8Encode cp) = utf8_three_bytes cp))
          (seqZ 0x2800 256) = true.
Proof. vm_compute. reflexivity. Qed.

Lemma utf8Encode_three_bytes (cp : Z) :
  0x2800 <= cp <= 0x28FF -> glyphBytes (utf8Encode cp) = utf8_three_bytes cp.
Proof.
  intros Hcp. pose proof utf8Encode_enum as H.
  rewrite forallb_forall in H.
  specialize (H cp). rewrite bool_decide_eq_true in H. apply H.
  apply list_elem_of_In, elem_of_seqZ. lia.
Qed.

(** The three bytes determine the code point. *)
Lemma utf8_three_bytes_decode (cp b1 b2 b3 : Z) :
  0 <= cp <= 0xFFFF -> utf8_three_bytes cp = [b1; b2; b3] ->
  b1 / 16 = 0xE /\ b2 / 64 = 2 /\ b3 / 64 = 2 /\
  (b1 mod 16) * 4096 + (b2 mod 64) * 64 + b3 mod 64 = cp.
Proof.
  intros Hcp Heq. unfold utf8_three_bytes in Heq.
  injection Heq as <- <- <-.
  pose proof (Z.div_mod cp 64). pose proof (Z.div_mod (cp / 64) 64).
  pose proof (Z.mod_pos_bound cp 64). pose proof (Z.mod_pos_bound (cp / 64) 64).
  assert (Hdd : cp / 64 / 64 = cp / 4096) by (rewrite Z.div_div by lia; reflexivity).
  assert (0 <= cp / 4096 < 16)
    by (split; [apply Z.div_pos; lia | apply Z.div_lt_upper_bound; lia]).
  set (a := cp / 4096) in *. set (b := (cp / 64) mod 64) in *.
  set (c := cp mod 64) in *.
  replace (224 + a) with (a + 14 * 16) by lia.
  replace (128 + b) with (b + 2 * 64) by lia.
  replace (128 + c) with (c + 2 * 64) by lia.
  rewrite !Z.div_add, !Z.mod_add by lia.
  rewrite (Z.div_small a 16), (Z.div_small b 64), (Z.div_small c 64) by lia.
  rewrite (Z.mod_small a 16), (Z.mod_small b 64), (Z.mod_small c 64) by lia.
  lia.
Qed.

Lemma utf8_three_bytes_inj (cp cp' : Z) :
  0 <= cp <= 0xFFFF -> 0 <= cp' <= 0xFFFF ->
  utf8_three_bytes cp = utf8_three_bytes cp' -> cp = cp'.
Proof.
  intros H H' Heq.
  destruct (utf8_three_bytes_decode cp _ _ _ H eq_refl) as (_ & _ & _ & E).
  destruct (utf8_three_bytes_decode cp' _ _ _ H' eq_refl) as (_ & _ & _ & E').
  unfold utf8_three_bytes in Heq. injection Heq as A B C.
  rewrite A, B, C in E. congruence.
Qed.

(** C9: the entry of the Dot Table for the byte [v] holds the three
    bytes of UTF-8 for the code point [0x2800 + v], of the pattern
    [1110xxxx 10xxxxxx 10xxxxxx], and the entries of two different bytes
    differ. *)
Theorem brailleTab_entries (v w : Z) :
  0 <= v <= 255 -> 0 <= w <= 255 ->
  length genBrailleTab = 256%nat /\
  (exists e b1 b2 b3,
      genBrailleTab !! Z.to_nat v = Some e /\
      e = utf8Encode (0x2800 + v) /\
      glyphBytes e = [b1; b2; b3] /\
      [b1; b2; b3] = utf8_three_bytes (0x2800 + v) /\
      b1 / 16 = 0xE /\ b2 / 64 = 2 /\ b3 / 64 = 2 /\
      (b1 mod 16) * 4096 + (b2 mod 64) * 64 + b3 mod 64 = 0x2800 + v) /\
  (v <> w ->
   genBrailleTab !! Z.to_nat v <> genBrailleTab !! Z.to_nat w /\
   (glyphBytes <$> genBrailleTab !! Z.to_nat v)
   <> (glyphBytes <$> genBrailleTab !! Z.to_nat w)).
Proof.
  intros Hv Hw. split; [vm_compute; reflexivity |]. split.
  - pose proof (utf8Encode_three_bytes (0x2800 + v) ltac:(lia)) as Hb.
    remember (utf8_three_bytes (0x2800 + v)) as l eqn:Hl.
    assert (Hl' := Hl). unfold utf8_three_bytes in Hl'.
    destruct l as [| b1 [| b2 [| b3 [| ? ?]]]]; try discriminate.
    symmetry in Hl.
    destruct (utf8_three_bytes_decode (0x2800 + v) b1 b2 b3)
      as (? & ? & ? & ?); [lia | assumption |].
    exists (utf8Encode (0x2800 + v)), b1, b2, b3.
    rewrite genBrailleTab_lookup by lia. repeat split; assumption.
  - intros Hne.
    assert (Hg : glyphBytes (utf8Encode (0x2800 + v))
                 <> glyphBytes (utf8Encode (0x2800 + w))).
    { rewrite !utf8Encode_three_bytes by lia. intros Heq.
      apply utf8_three_bytes_inj in Heq; lia. }
    rewrite !genBrailleTab_lookup by lia. simpl.
    split; congruence.
Qed.

Lemma brailleTab_entries_witness :
  genBrailleTab !! 1%nat <> genBrailleTab !! 2%nat.
Proof.
  destruct (brailleTab_entries 1 2) as (_ & _ & Hd); [lia | lia |].
  destruct Hd as [Hd _]; [lia |]. exact Hd.
Defined.

End DotTable.

(** ** The render encoder *)

Section Render.

Lemma memcpy_at (pre rest src : list Z) :
  memcpy (pre ++ rest) (length pre) src
  = pre ++ src ++ drop (length src) rest.
Proof.
  unfold memcpy. now rewrite take_app_length, drop_app_add.
Qed.

Lemma glyphBytes_length (v : Z) : length (glyphBytes v) = 3%nat.
Proof. reflexivity. Qed.

(** The loop writes the glyphs one after the other behind what was
    written before, and nothing else. *)
Lemma renderCells_spec (tab cells : list Z) (n : nat) :
  forall (i : nat) (pre rest : list Z),
    (3 * n <= length rest)%nat ->
    renderCells tab cells n i (pre ++ rest) (length pre)
    = (pre ++ glyphsFrom tab cells i n ++ drop (3 * n) rest,
       (length pre + 3 * n)%nat).
Proof.
  induction n as [| n IH]; intros i pre rest Hlen.
  - simpl. unfold glyphsFrom. simpl. rewrite drop_0. f_equal. lia.
  - cbn [renderCells]. rewrite memcpy_at, glyphBytes_length.
    set (g := glyphBytes _).
    replace (pre ++ g ++ drop 3 rest) with ((pre ++ g) ++ drop 3 rest)
      by now rewrite <- app_assoc.
    replace (length pre + 3)%nat with (length (pre ++ g))
      by (rewrite length_app; reflexivity).
    rewrite IH by (rewrite length_drop; lia).
    rewrite drop_drop, length_app. subst g. rewrite glyphBytes_length.
    unfold glyphsFrom. cbn [seq]. rewrite bind_cons, <- !app_assoc.
    f_equal; [| lia]. do 3 f_equal. f_equal. lia.
Qed.

Lemma glyphsFrom_all (tab cells : list Z) :
  glyphsFrom tab cells 0 (length cells)
  = c ← cells; glyphBytes (default 0 (tab !! Z.to_nat c)).
Proof.
  unfold glyphsFrom.
  assert (H : forall pre, 
    (seq (length pre) (length cells) ≫=
      fun j => glyphBytes (default 0 (tab !! Z.to_nat (default 0 ((pre ++ cells) !! j)))))
    = cells ≫= fun c => glyphBytes (default 0 (tab !! Z.to_nat c))).
  { induction cells as [| c cells IH]; intros pre; [reflexivity |].
    cbn [length seq]. rewrite !bind_cons.
    rewrite list_lookup_middle by reflexivity. simpl default. f_equal.
    specialize (IH (pre ++ [c])).
    rewrite length_app, <- app_assoc in IH. simpl in IH.
    replace (S (length pre)) with (length pre + 1)%nat by lia. exact IH. }
  exact (H []).
Qed.

Lemma glyphs_length (tab cells : list Z) :
  length (c ← cells; glyphBytes (default 0 (tab !! Z.to_nat c)))
  = (3 * length cells)%nat.
Proof.
  induction cells as [| c cells IH]; [reflexivity |].
  rewrite bind_cons, length_app, IH. simpl. lia.
Qed.

Lemma glyphBytes_lowBytes3 (v : Z) : glyphBytes v = lowBytes3 v.
Proof.
  unfold glyphBytes, lowBytes3.
  change 255 with (Z.ones 8). rewrite !Z.land_ones by lia.
  rewrite !Z.shiftr_div_pow2 by lia. reflexivity.
Qed.

Lemma glyphs_lowBytes3 (tab cells : list Z) :
  (c ← cells; glyphBytes (default 0 (tab !! Z.to_nat c)))
  = (c ← cells; lowBytes3 (default 0 (tab !! Z.to_nat c))).
Proof.
  induction cells as [| c cells IH]; [reflexivity |].
  now rewrite !bind_cons, IH, glyphBytes_lowBytes3.
Qed.

Lemma glyphs_genBrailleTab (cells : list Z) :
  Forall (fun b => 0 <= b < 256) cells ->
  (c ← cells; glyphBytes (default 0 (genBrailleTab !! Z.to_nat c)))
  = (c ← cells; utf8_three_bytes (0x2800 + c)).
Proof.
  induction 1 as [| c cells Hc _ IH]; [reflexivity |].
  rewrite !bind_cons, IH, genBrailleTab_lookup by lia. simpl default.
  now rewrite utf8Encode_three_bytes by lia.
Qed.

(** C6: [render] sends the hide-cursor sequence [ESC [ ? 2 5 l], the
    cursor-home sequence [ESC [ H], for every cell in buffer order the
    three low bytes of its table entry, and the cursor-home sequence
    again, [6 + 3 + 3 * (width * height) + 3] bytes in all.  With the
    generated table the three bytes of a cell [c] are the UTF-8 form of
    the code point [0x2800 + c]; for a surface of 2 by 2 cells that are
    all zero these are hide-cursor, home, four times [E2 A0 80], home. *)
Theorem render_output (tab screenBuffer : list Z) (s : Surface) :
  wf_surface s ->
  Z.of_nat (length screenBuffer) = width s * height s * 3 + 12 ->
  render tab screenBuffer s
  = [0x1b; 0x5b; 0x3f; 0x32; 0x35; 0x6c] ++ [0x1b; 0x5b; 0x48]
    ++ (c ← data s; lowBytes3 (default 0 (tab !! Z.to_nat c)))
    ++ [0x1b; 0x5b; 0x48]
  /\ Z.of_nat (length (render tab screenBuffer s))
     = 6 + 3 + 3 * (width s * height s) + 3
  /\ (tab = genBrailleTab ->
      render tab screenBuffer s
      = [0x1b; 0x5b; 0x3f; 0x32; 0x35; 0x6c] ++ [0x1b; 0x5b; 0x48]
        ++ (c ← data s; [0xE2; 0xA0 + c / 64; 0x80 + c mod 64])
        ++ [0x1b; 0x5b; 0x48])
  /\ (tab = genBrailleTab -> s = blank 2 2 ->
      render tab screenBuffer s
      = [0x1b; 0x5b; 0x3f; 0x32; 0x35; 0x6c; 0x1b; 0x5b; 0x48;
         0xE2; 0xA0; 0x80; 0xE2; 0xA0; 0x80; 0xE2; 0xA0; 0x80; 0xE2; 0xA0; 0x80;
         0x1b; 0x5b; 0x48]).
Proof.
  intros (Hw & Hh & _ & _ & _ & Hlen & Hbytes) Hbuf.
  assert (Hmain : render tab screenBuffer s
    = hideCursor ++ cursorHome
      ++ (c ← data s; glyphBytes (default 0 (tab !! Z.to_nat c)))
      ++ cursorHome).
  { unfold render.
    assert (Hn : Z.to_nat (width s * height s) = length (data s)) by lia.
    rewrite Hn.
    set (n := length (data s)) in *.
    assert (Hb : length screenBuffer = (n * 3 + 12)%nat) by lia.
    replace (memcpy screenBuffer 0 hideCursor)
      with (hideCursor ++ drop (length hideCursor) screenBuffer)
      by reflexivity.
    rewrite (memcpy_at hideCursor _ cursorHome).
    replace (hideCursor ++ cursorHome
             ++ drop (length cursorHome) (drop (length hideCursor) screenBuffer))
      with ((hideCursor ++ cursorHome) ++ drop 9 screenBuffer)
      by (rewrite <- app_assoc, drop_drop; reflexivity).
    change 9%nat with (length (hideCursor ++ cursorHome)) at 2.
    rewrite renderCells_spec by (rewrite length_drop; lia).
    unfold n at 1. rewrite glyphsFrom_all.
    set (gl := data s ≫= _).
    assert (Hgl : length gl = (3 * n)%nat) by apply glyphs_length.
    rewrite drop_drop.
    replace (length (hideCursor ++ cursorHome) + 3 * n)%nat
      with (length ((hideCursor ++ cursorHome) ++ gl))
      by (rewrite !length_app, Hgl; reflexivity).
    rewrite app_assoc, memcpy_at.
    rewrite drop_drop, drop_ge by (simpl; lia).
    rewrite take_ge.
    - rewrite <- !app_assoc. reflexivity.
    - rewrite !length_app, Hgl. simpl. lia. }
  assert (Hgen : tab = genBrailleTab ->
      render tab screenBuffer s
      = [0x1b; 0x5b; 0x3f; 0x32; 0x35; 0x6c] ++ [0x1b; 0x5b; 0x48]
        ++ (c ← data s; [0xE2; 0xA0 + c / 64; 0x80 + c mod 64])
        ++ [0x1b; 0x5b; 0x48]).
  { intros ->. rewrite Hmain, glyphs_genBrailleTab by assumption.
    do 2 f_equal. f_equal.
    clear - Hbytes. induction Hbytes as [| c cells Hc _ IH]; [reflexivity |].
    rewrite !bind_cons, IH. f_equal. unfold utf8_three_bytes.
    replace ((10240 + c) / 4096) with 2
      by (apply Z.div_unique_pos with (r := 2048 + c); lia).
    replace ((10240 + c) / 64) with (160 + c / 64)
      by (rewrite <- (Z.div_add_l 160 64 c) by lia; reflexivity).
    replace ((10240 + c) mod 64) with (c mod 64)
      by (rewrite <- (Z.mod_add c 160 64) by lia; f_equal; lia).
    assert (0 <= c / 64 < 4)
      by (split; [apply Z.div_pos; lia | apply Z.div_lt_upper_bound; lia]).
    replace ((160 + c / 64) mod 64) with (32 + c / 64)
      by (apply Z.mod_unique_pos with (q := 2); lia).
    repeat (f_equal; try lia). }
  split; [| split; [| split]].
  - rewrite Hmain, glyphs_lowBytes3. reflexivity.
  - rewrite Hmain, !length_app, glyphs_length. simpl length. lia.
  - exact Hgen.
  - intros Ht ->. rewrite (Hgen Ht). reflexivity.
Qed.

Lemma render_output_witness :
  render genBrailleTab (replicate 24 7) (mkSurface [1; 0; 255; 64] 2 2)
  = [0x1b; 0x5b; 0x3f; 0x32; 0x35; 0x6c; 0x1b; 0x5b; 0x48;
     0xE2; 0xA0; 0x81; 0xE2; 0xA0; 0x80; 0xE2; 0xA3; 0xBF; 0xE2; 0xA1; 0x80;
     0x1b; 0x5b; 0x48].
Proof.
  destruct (render_output genBrailleTab (replicate 24 7)
              (mkSurface [1; 0; 255; 64] 2 2))
    as (_ & _ & H & _).
  - unfold wf_surface, INT_MAX. simpl. repeat split; try lia.
    repeat constructor; lia.
  - reflexivity.
  - rewrite H by reflexivity. reflexivity.
Defined.

End Render.

(** ** The bitmap decoder *)

Section Decoder.

Lemma shiftl_byte_high_bits (a k n : Z) :
  0 <= a < 256 -> 0 <= k -> k + 8 <= n -> Z.testbit (Z.shiftl a k) n = false.
Proof.
  intros Ha Hk Hn. rewrite Z.shiftl_spec by lia. apply byte_high_bits; lia.
Qed.

Lemma lt_pow2_of_bits (a k : Z) :
  0 <= k -> 0 <= a -> (forall n, k <= n -> Z.testbit a n = false) -> a < 2 ^ k.
Proof.
  intros Hk Ha H. destruct (Z.eq_dec a 0) as [-> | Hne].
  - apply Z.pow_pos_nonneg; lia.
  - destruct (Z_lt_le_dec a (2 ^ k)) as [| Hge]; [assumption | exfalso].
    assert (Hl : k <= Z.log2 a) by (apply Z.log2_le_pow2; lia).
    specialize (H _ Hl). rewrite Z.bit_log2 in H by lia. discriminate.
Qed.

Lemma pixelValue_small (r g b : Z) :
  0 <= r < 256 -> 0 <= g < 256 -> 0 <= b < 256 ->
  pixelValue r g b
  = Z.lor (Z.lor (Z.shiftl r 24) (Z.shiftl g 16)) (Z.shiftl b 8).
Proof.
  intros Hr Hg Hb. unfold pixelValue. apply Z.mod_small.
  assert (Hnn : 0 <= Z.lor (Z.lor (Z.shiftl r 24) (Z.shiftl g 16)) (Z.shiftl b 8)).
  { rewrite !Z.lor_nonneg, !Z.shiftl_nonneg. lia. }
  split; [exact Hnn |].
  apply lt_pow2_of_bits; [lia | exact Hnn |].
  intros n Hn. rewrite !Z.lor_spec.
  rewrite !shiftl_byte_high_bits by lia. reflexivity.
Qed.

(** What the code computes: 1 for black, 0 for every other colour. *)
Lemma pixelByte_black_only (r g b : Z) :
  0 <= r < 256 -> 0 <= g < 256 -> 0 <= b < 256 ->
  pixelByte r g b = if (r =? 0) && (g =? 0) && (b =? 0) then 1 else 0.
Proof.
  intros Hr Hg Hb. unfold pixelByte. rewrite pixelValue_small by assumption.
  destruct (Z.eqb_spec
              (Z.lor (Z.lor (Z.shiftl r 24) (Z.shiftl g 16)) (Z.shiftl b 8)) 0)
    as [E | E].
  - apply Z.lor_eq_0_iff in E. destruct E as [E Eb].
    apply Z.lor_eq_0_iff in E. destruct E as [Er Eg].
    apply Z.shiftl_eq_0_iff in Er, Eg, Eb; try lia. now subst.
  - destruct (Z.eqb_spec r 0) as [-> | Hr0]; [| reflexivity].
    destruct (Z.eqb_spec g 0) as [-> | Hg0]; [| reflexivity].
    destruct (Z.eqb_spec b 0) as [-> | Hb0]; [| reflexivity].
    exfalso. apply E. reflexivity.
Qed.

(** The code agrees with the documented thresholding on white and on
    black pixels, and on no other pixel. *)
Lemma pixelByte_agrees_iff (r g b : Z) :
  0 <= r < 256 -> 0 <= g < 256 -> 0 <= b < 256 ->
  pixelByte r g b = pixelByte_white_only r g b
  <-> (r = 0xFF /\ g = 0xFF /\ b = 0xFF) \/ (r = 0 /\ g = 0 /\ b = 0).
Proof.
  intros Hr Hg Hb. rewrite pixelByte_black_only by assumption.
  unfold pixelByte_white_only.
  destruct (Z.eqb_spec r 0), (Z.eqb_spec g 0), (Z.eqb_spec b 0),
    (Z.eqb_spec r 0xFF), (Z.eqb_spec g 0xFF), (Z.eqb_spec b 0xFF);
    simpl; split; intros; try lia; try discriminate.
Qed.

Lemma length_bind_const {A B : Type} (f : A -> list B) (l : list A) (k : nat) :
  (forall a, length (f a) = k) -> length (l ≫= f) = (length l * k)%nat.
Proof.
  intros Hf. induction l as [| a l IH]; [reflexivity |].
  rewrite bind_cons, length_app, Hf, IH. simpl. lia.
Qed.

(** One byte for every pixel, each of them 0 or 1. *)
Lemma loadBitmap_one_byte_per_pixel (buf : list Z) :
  let bm := loadBitmap buf in
  length (data bm) = (Z.to_nat (height bm) * Z.to_nat (width bm))%nat /\
  Forall (fun v => v = 0 \/ v = 1) (data bm).
Proof.
  simpl. split.
  - rewrite (length_bind_const _ _ (Z.to_nat (readInt buf 18))).
    + now rewrite length_seqZ.
    + intros y. rewrite (length_bind_const _ _ 1%nat) by reflexivity.
      rewrite length_seqZ. lia.
  - apply Forall_forall. intros v Hv.
    apply list_elem_of_bind in Hv. destruct Hv as (y & Hv & _).
    apply list_elem_of_bind in Hv. destruct Hv as (x & Hv & _).
    apply list_elem_of_singleton in Hv. subst v.
    unfold decodePixel, pixelByte. destruct (_ =? 0); auto.
Qed.

(** C1 (the code departs from the claim, and from the comment above
    [loadBitmap], which reads "Write 0xFFFFFF (white) as 0 and everything
    else as 1"): the decoder tests [pixel ? 0 : 1], which is 1 for black
    alone.  A raster of one pure red pixel decodes to 0, where the claim
    gives 1.  An all-white raster of 2 by 2 pixels does decode to zeros,
    and an all-black one to ones. *)
Theorem loadBitmap_red_pixel_decodes_to_zero :
  loadBitmap (rasterFile 1 1 [0; 0; 0xFF]) = mkSurface [0] 1 1 /\
  pixelByte 0xFF 0 0 = 0 /\ pixelByte_white_only 0xFF 0 0 = 1 /\
  loadBitmap (rasterFile 2 2 (replicate 12 0xFF)) = mkSurface [0; 0; 0; 0] 2 2 /\
  loadBitmap (rasterFile 2 2 (replicate 12 0)) = mkSurface [1; 1; 1; 1] 2 2.
Proof. repeat split; vm_compute; reflexivity. Qed.

End Decoder.

(** ** The line rasterizer *)

Section Line.

Lemma lineLoop_unfold (fuel : nat) (inf : bool)
    (slope yint x2 y2 : spec_float) (s : Surface) (x1 y1 : spec_float) :
  lineLoop fuel inf slope yint x2 y2 s x1 y1
  = if lineCond x1 y1 x2 y2 then
      match fuel with
      | O => OutOfFuel
      | S fuel' =>
          match drawPoint s (lineStep inf slope yint x2 y2 x1 y1).1
                          (lineStep inf slope yint x2 y2 x1 y1).2 1 with
          | None => Undefined
          | Some (_, s') =>
              lineLoop fuel' inf slope yint x2 y2 s'
                       (lineStep inf slope yint x2 y2 x1 y1).1
                       (lineStep inf slope yint x2 y2 x1 y1).2
          end
      end
    else Done s.
Proof.
  destruct fuel; simpl; [reflexivity |].
  destruct (lineStep inf slope yint x2 y2 x1 y1). reflexivity.
Qed.

(** The code selects the X-stepping branch by [slope < 1]. *)
Lemma lineBranch_XStep (inf : bool) (slope : spec_float) :
  lineBranch inf slope = XStep <-> inf = false /\ F32.ltb slope f_one = true.
Proof.
  unfold lineBranch. destruct inf; [easy |].
  destruct (F32.ltb slope f_one); easy.
Qed.

(** More fuel does not change a result. *)
Lemma lineLoop_fuel_mono (fuel fuel' : nat) (inf : bool)
    (slope yint x2 y2 : spec_float) :
  (fuel <= fuel')%nat ->
  forall (s : Surface) (x1 y1 : spec_float) (s' : Surface),
    lineLoop fuel inf slope yint x2 y2 s x1 y1 = Done s' ->
    lineLoop fuel' inf slope yint x2 y2 s x1 y1 = Done s'.
Proof.
  revert fuel'. induction fuel as [| fuel IH]; intros fuel' Hle s x1 y1 s'.
  - rewrite !lineLoop_unfold. destruct (lineCond x1 y1 x2 y2); easy.
  - destruct fuel' as [| fuel']; [lia |].
    rewrite !lineLoop_unfold. destruct (lineCond x1 y1 x2 y2); [| easy].
    destruct (drawPoint s _ _ 1) as [[r s1] |]; [| easy].
    apply IH. lia.
Qed.

Lemma drawPixel_dims (s : Surface) (x y value : Z) :
  width (drawPixel s x y value).2 = width s /\
  height (drawPixel s x y value).2 = height s.
Proof.
  unfold drawPixel. destruct (_ || _); simpl; auto.
Qed.

(** Plotting with value 1 never clears a dot. *)
Lemma drawPixel_set_keeps_lit (s : Surface) (x y x' y' : Z) :
  wf_surface s -> inRange s x' y' -> readDot s x' y' = true ->
  readDot (drawPixel s x y 1).2 x' y' = true.
Proof.
  intros Hwf Hr' Hlit. destruct (decide (inRange s x y)) as [Hr | Hr].
  - destruct (decide ((x', y') = (x, y))) as [Heq | Hne].
    + injection Heq as -> ->. now rewrite readDot_drawPixel_same.
    + now rewrite readDot_drawPixel_other.
  - now rewrite drawPixel_out_of_range.
Qed.

Lemma drawPoint_set_keeps_lit (s s' : Surface) (fx fy : spec_float) (r x' y' : Z) :
  wf_surface s -> inRange s x' y' -> readDot s x' y' = true ->
  drawPoint s fx fy 1 = Some (r, s') ->
  wf_surface s' /\ inRange s' x' y' /\ readDot s' x' y' = true.
Proof.
  intros Hwf Hr Hlit. unfold drawPoint.
  destruct (fRound fx) as [x |]; [| discriminate].
  destruct (fRound fy) as [y |]; [| discriminate].
  intros Heq. injection Heq as Heq.
  assert (Hs : s' = (drawPixel s x y 1).2) by now rewrite Heq.
  subst s'. split; [now apply drawPixel_wf |].
  split; [| now apply drawPixel_set_keeps_lit].
  unfold inRange. destruct (drawPixel_dims s x y 1) as [-> ->]. exact Hr.
Qed.

Lemma lineLoop_keeps_lit (fuel : nat) (inf : bool)
    (slope yint x2 y2 : spec_float) (x' y' : Z) :
  forall (s : Surface) (x1 y1 : spec_float) (s' : Surface),
    wf_surface s -> inRange s x' y' -> readDot s x' y' = true ->
    lineLoop fuel inf slope yint x2 y2 s x1 y1 = Done s' ->
    readDot s' x' y' = true.
Proof.
  induction fuel as [| fuel IH]; intros s x1 y1 s' Hwf Hr Hlit;
    rewrite lineLoop_unfold; destruct (lineCond x1 y1 x2 y2);
    try discriminate; try (intros [= <-]; assumption).
  destruct (drawPoint s _ _ 1) as [[r s1] |] eqn:Hd; [| discriminate].
  destruct (drawPoint_set_keeps_lit _ _ _ _ _ _ _ Hwf Hr Hlit Hd)
    as (Hwf1 & Hr1 & Hlit1).
  now apply IH.
Qed.

(** When [drawLine] returns, the dot of the start point is lit, provided
    that the start point is on the surface. *)
Lemma drawLine_plots_start (fuel : nat) (s s' : Surface)
    (x1 y1 x2 y2 : spec_float) (x y : Z) :
  wf_surface s -> fRound x1 = Some x -> fRound y1 = Some y ->
  inRange s x y ->
  drawLine fuel s x1 y1 x2 y2 = Done s' -> readDot s' x y = true.
Proof.
  intros Hwf Hx Hy Hr. unfold drawLine.
  destruct (drawPoint s x1 y1 1) as [[r s1] |] eqn:Hd; [| discriminate].
  assert (Hs1 : s1 = (drawPixel s x y 1).2).
  { unfold drawPoint in Hd. rewrite Hx, Hy in Hd.
    injection Hd as Hd. now rewrite Hd. }
  apply lineLoop_keeps_lit.
  - subst s1. now apply drawPixel_wf.
  - subst s1. unfold inRange.
    destruct (drawPixel_dims s x y 1) as [-> ->]. exact Hr.
  - subst s1. now rewrite readDot_drawPixel_same.
Qed.

(** C4 (the code departs from the claim): the loop tests [slope < 1],
    not [|slope| < 1].  For the segment from (0, 8) to (4, 0) the slope
    is -2, whose magnitude is not below 1, yet the loop body takes the
    X-stepping branch: the first step goes to (1, 6), and the dots lit
    are two rows apart. *)
Theorem drawLine_steep_descent_steps_in_x :
  let x1 := fi 0 in let y1 := fi 8 in
  let x2 := fi 4 in let y2 := fi 0 in
  let inf := lineInf x1 x2 in
  let slope := lineSlope x1 y1 x2 y2 in
  let yint := lineYint x1 y1 x2 y2 in
  inf = false /\ slope = fi (-2) /\ yint = fi 8 /\
  F32.ltb (SFabs slope) f_one = false /\
  lineBranch inf slope = XStep /\
  lineStep inf slope yint x2 y2 x1 y1 = (fi 1, fi 6) /\
  exists s', drawLine 8 (blank 4 4) x1 y1 x2 y2 = Done s' /\
             litDots s' = [(4, 0); (3, 2); (2, 4); (1, 6); (0, 8)].
Proof.
  cbv zeta. repeat apply conj; try (vm_compute; reflexivity).
  eexists. split; vm_compute; reflexivity.
Qed.

(** A loop body that sends a state to a second state and that one back
    never leaves the loop, when the guard holds in both. *)
Lemma lineLoop_two_cycle (inf : bool) (slope yint x2 y2 : spec_float)
    (xa ya xb yb : spec_float) (pa qa pb qb : Z) :
  lineCond xa ya x2 y2 = true -> lineCond xb yb x2 y2 = true ->
  lineStep inf slope yint x2 y2 xa ya = (xb, yb) ->
  lineStep inf slope yint x2 y2 xb yb = (xa, ya) ->
  fRound xa = Some pa -> fRound ya = Some qa ->
  fRound xb = Some pb -> fRound yb = Some qb ->
  forall (fuel : nat) (s : Surface),
    lineLoop fuel inf slope yint x2 y2 s xa ya = OutOfFuel /\
    lineLoop fuel inf slope yint x2 y2 s xb yb = OutOfFuel.
Proof.
  intros Hca Hcb Hab Hba Hpa Hqa Hpb Hqb.
  induction fuel as [| fuel IH]; intros s;
    rewrite !lineLoop_unfold, Hca, Hcb; [easy |].
  rewrite Hab, Hba. simpl fst. simpl snd. unfold drawPoint.
  rewrite Hpa, Hqa, Hpb, Hqb.
  destruct (drawPixel s pb qb 1) as [r1 s1].
  destruct (drawPixel s pa qa 1) as [r2 s2].
  split; [apply (IH s1) | apply (IH s2)].
Qed.

End Line.

(** ** The curve rasterizer *)

Section Curve.

Lemma drawCurve_unfold (fuel : nat) (s : Surface) (x1 x2 a b c : spec_float) :
  drawCurve fuel s x1 x2 a b c
  = if F32.ltb x1 x2 then
      match fuel with
      | O => OutOfFuel
      | S fuel' =>
          match plotSample a b c s (F32.add x1 f_0_2) with
          | None => Undefined
          | Some s' => drawCurve fuel' s' (F32.add x1 f_0_2) x2 a b c
          end
      end
    else Done s.
Proof.
  destruct fuel; simpl; [reflexivity |]. unfold plotSample.
  destruct (F32.ltb x1 x2); [| reflexivity].
  destruct (curveY a b c _); [| reflexivity].
  destruct (drawPoint s _ _ 1) as [[r s'] |]; reflexivity.
Qed.

Lemma curveX_S (k : nat) (x1 : spec_float) :
  curveX (S k) x1 = curveX k (F32.add x1 f_0_2).
Proof. unfold curveX. now rewrite Nat.iter_succ_r. Qed.

Lemma curveXs_S (n : nat) (x1 : spec_float) :
  curveXs (S n) x1 = F32.add x1 f_0_2 :: curveXs n (F32.add x1 f_0_2).
Proof.
  unfold curveXs. cbn [seq fmap list_fmap]. f_equal.
  rewrite <- seq_shift, <- list_fmap_compose.
  apply list_fmap_ext. intros i k _. simpl. apply curveX_S.
Qed.

(** A sample that does not move [x1] keeps the loop running for ever. *)
Lemma drawCurve_stall (x1 x2 a b c : spec_float) (y px py : Z) :
  F32.ltb x1 x2 = true -> F32.add x1 f_0_2 = x1 ->
  curveY a b c x1 = Some y ->
  fRound x1 = Some px -> fRound (F32.of_int y) = Some py ->
  forall (fuel : nat) (s : Surface),
    drawCurve fuel s x1 x2 a b c = OutOfFuel.
Proof.
  intros Hlt Hadd Hy Hpx Hpy.
  induction fuel as [| fuel IH]; intros s;
    rewrite drawCurve_unfold, Hlt; [reflexivity |].
  rewrite Hadd. unfold plotSample, drawPoint. rewrite Hy, Hpx, Hpy.
  destruct (drawPixel s px py 1) as [r s']. apply IH.
Qed.

(** C5 (the code departs from the claim): two calls with finite
    arguments that never return, whatever the surface and however much
    fuel the loops are given.  [drawLine] from (0, 10) to (0.5, 5): the
    slope is -10, the loop tests [slope < 1] and steps in X, and [x1]
    alternates between 0 and 1 while [y1] alternates between 10 and 0,
    never within 1 of [y2 = 5].  [drawCurve] from 8388608 to 16777216:
    [x1 += 0.2f] leaves [x1] as it is, the spacing of [float] being 1
    there. *)
Theorem drawing_loops_not_terminating (fuel : nat) (s : Surface) :
  drawLine fuel s (fi 0) (fi 10) (dy 1 (-1)) (fi 5) = OutOfFuel /\
  drawCurve fuel s (fi 8388608) (fi 16777216) (fi 0) (fi 0) (fi 0)
  = OutOfFuel.
Proof.
  split.
  - unfold drawLine, drawPoint.
    replace (fRound (fi 0)) with (Some 0) by (vm_compute; reflexivity).
    replace (fRound (fi 10)) with (Some 10) by (vm_compute; reflexivity).
    destruct (drawPixel s 0 10 1) as [r s1].
    apply (lineLoop_two_cycle _ _ _ _ _ (fi 0) (fi 10) (fi 1) (fi 0) 0 10 1 0);
      vm_compute; reflexivity.
  - apply (drawCurve_stall _ _ _ _ _ 0 8388608 0); vm_compute; reflexivity.
Qed.

(** C8, the claim as it is written, fails.  With [y = 100 x] sampled
    from 0 to 0.125, the code does not plot the sample at [xStart] (the
    dot (0, 0)) and does plot the one at 0.2, beyond [xEnd] (the dot
    (0, 2)).  With the constant 19 the code plots row 1, [19 / 10] in
    [int] arithmetic, and not row 2, the nearest integer to 1.9. *)
Lemma drawCurve_differs_from_spec :
  (exists sa sb,
      drawCurve 10 (blank 4 4) (fi 0) (dy 1 (-3)) (fi 0) (fi 100) (fi 0) = Done sa /\
      drawCurve_spec 10 (blank 4 4) (fi 0) (dy 1 (-3)) (fi 0) (fi 100) (fi 0) = Done sb /\
      litDots sa = [(0, 2)] /\ litDots sb = [(0, 0)]) /\
  (exists sa sb,
      drawCurve 10 (blank 4 4) (fi 0) (dy 1 (-3)) (fi 0) (fi 0) (fi 19) = Done sa /\
      drawCurve_spec 10 (blank 4 4) (fi 0) (dy 1 (-3)) (fi 0) (fi 0) (fi 19) = Done sb /\
      litDots sa = [(0, 1)] /\ litDots sb = [(0, 2)]).
Proof.
  split; eexists _, _; repeat apply conj; vm_compute; reflexivity.
Qed.

Lemma drawCurve_iff_plotSamples (fuel : nat) (s : Surface)
    (x1 x2 a b c : spec_float) (s' : Surface) :
  drawCurve fuel s x1 x2 a b c = Done s'
  <-> exists n : nat,
      (n <= fuel)%nat /\
      (forall k : nat, (k < n)%nat -> F32.ltb (curveX k x1) x2 = true) /\
      F32.ltb (curveX n x1) x2 = false /\
      plotSamples a b c s (curveXs n x1) = Some s'.
Proof.
  revert s x1. induction fuel as [| fuel IH]; intros s x1;
    rewrite drawCurve_unfold; destruct (F32.ltb x1 x2) eqn:Hlt.
  - split; [discriminate |]. intros (n & Hn & _ & Hstop & _).
    assert (n = 0)%nat by lia. subst n. simpl in Hstop. congruence.
  - split.
    + intros [= <-]. exists 0%nat. repeat split; [lia | | assumption].
      intros k Hk. lia.
    + intros (n & Hn & _ & _ & Hp). assert (n = 0)%nat by lia. subst n.
      simpl in Hp. congruence.
  - destruct (plotSample a b c s (F32.add x1 f_0_2)) as [s1 |] eqn:Hs.
    + rewrite IH. split.
      * intros (n & Hn & Hlow & Hstop & Hp). exists (S n).
        split; [lia |]. split; [| split].
        -- intros [| k] Hk; [exact Hlt |]. rewrite curveX_S. apply Hlow. lia.
        -- now rewrite curveX_S.
        -- rewrite curveXs_S. simpl. now rewrite Hs.
      * intros (n & Hn & Hlow & Hstop & Hp).
        destruct n as [| n]; [simpl in Hstop; congruence |].
        exists n. split; [lia |]. split; [| split].
        -- intros k Hk. rewrite <- curveX_S. apply Hlow. lia.
        -- now rewrite <- curveX_S.
        -- rewrite curveXs_S in Hp. simpl in Hp. now rewrite Hs in Hp.
    + split; [discriminate |]. intros (n & Hn & Hlow & Hstop & Hp).
      destruct n as [| n]; [simpl in Hstop; congruence |].
      rewrite curveXs_S in Hp. simpl in Hp. rewrite Hs in Hp. discriminate.
  - split.
    + intros [= <-]. exists 0%nat. repeat split; [lia | | assumption].
      intros k Hk. lia.
    + intros (n & Hn & Hlow & _ & Hp).
      destruct n as [| n]; [simpl in Hp; congruence |].
      specialize (Hlow 0%nat ltac:(lia)). simpl in Hlow. congruence.
Qed.

Lemma to_int_truncated (f : spec_float) : to_int f = truncated f.
Proof.
  destruct f as [sg | sg | | sg m e]; try reflexivity.
  unfold to_int, truncated, exact_num, exact_den.
  destruct (Z.leb_spec 0 e) as [He | He].
  - now rewrite Z.quot_1_r.
  - assert (Hp : 0 < 2 ^ (- e)) by (apply Z.pow_pos_nonneg; lia).
    destruct sg; cbn [cond_Zopp].
    + rewrite Z.quot_opp_l by lia. now rewrite Z.quot_div_nonneg by lia.
    + now rewrite Z.quot_div_nonneg by lia.
Qed.

Lemma curveY_sampleRow (a b c x : spec_float) : curveY a b c x = sampleRow a b c x.
Proof.
  unfold curveY, sampleRow. rewrite to_int_truncated. reflexivity.
Qed.

Lemma plotSamples_plotRows (a b c : spec_float) (xs : list spec_float) :
  forall s, plotSamples a b c s xs = plotRows a b c s xs.
Proof.
  induction xs as [| x xs IH]; intros s; [reflexivity |].
  cbn [plotSamples plotRows]. unfold plotSample. rewrite curveY_sampleRow.
  destruct (sampleRow a b c x) as [y |]; [| reflexivity].
  destruct (drawPoint s x (F32.of_int y) 1) as [[r s1] |]; [apply IH | reflexivity].
Qed.

(** The division by 10 truncates toward zero: the value -25 gives the
    row -2. *)
Lemma sampleRow_negative :
  sampleRow (fi 0) (fi 0) (fi (-25)) (fi 1) = Some (-2).
Proof. reflexivity. Qed.

(** C8, amended: [drawCurve] returns [s'] exactly when, for some [n], the
    values [x1], [x1 + 0.2], ... before the [n]-th step are below [x2],
    the value after [n] steps is not, and [s'] is [s] with the [n]
    samples at [x1 + 0.2], [x1 + 2 * 0.2], ..., the last of which is not
    below [x2], plotted with value 1.  The row of the sample at [x] is
    [a * (x * x) + b * x + c], computed in [float], truncated toward zero
    to an [int], and divided by 10 with truncation toward zero; the call
    has no defined result when a truncated value is not an [int]. *)
Theorem drawCurve_samples (fuel : nat) (s : Surface)
    (x1 x2 a b c : spec_float) (s' : Surface) :
  drawCurve fuel s x1 x2 a b c = Done s'
  <-> exists n : nat,
      (n <= fuel)%nat /\
      (forall k : nat, (k < n)%nat -> F32.ltb (curveX k x1) x2 = true) /\
      F32.ltb (curveX n x1) x2 = false /\
      plotRows a b c s (curveXs n x1) = Some s'.
Proof.
  rewrite drawCurve_iff_plotSamples.
  split; intros (n & H1 & H2 & H3 & H4); exists n;
    (split; [exact H1 | split; [exact H2 | split; [exact H3 |]]]).
  - now rewrite <- plotSamples_plotRows.
  - now rewrite plotSamples_plotRows.
Qed.

Lemma drawCurve_samples_witness :
  exists n : nat,
    (n <= 10)%nat /\
    F32.ltb (curveX n (fi 0)) (dy 1 (-3)) = false /\
    plotRows (fi 100) (fi 0) (fi 19) (blank 4 4) (curveXs n (fi 0))
    = Some (mkSurface [0; 0; 0; 0; 0; 0; 0; 0; 0; 0; 0; 0; 2; 0; 0; 0] 4 4).
Proof.
  destruct (proj1 (drawCurve_samples 10 (blank 4 4) (fi 0) (dy 1 (-3))
                     (fi 100) (fi 0) (fi 19)
                     (mkSurface [0; 0; 0; 0; 0; 0; 0; 0; 0; 0; 0; 0; 2; 0; 0; 0] 4 4)))
    as (n & Hn & _ & Hstop & Hp).
  - vm_compute. reflexivity.
  - exists n. repeat split; assumption.
Defined.

End Curve.

(** ** Reversing the end points of a line *)

Section Reversal.







End Reversal.

(** ** clearSurface and initSurface *)

Section Clear.

Lemma zeroAll_length (idxs : list nat) :
  forall d, length (zeroAll d idxs) = length d.
Proof.
  induction idxs as [| i idxs IH]; intros d; [reflexivity |].
  simpl. unfold zeroAll in IH. rewrite IH. apply length_insert.
Qed.

Lemma zeroAll_lookup (idxs : list nat) (k : nat) :
  forall d, (k < length d)%nat -> d !! k = Some 0 \/ k ∈ idxs ->
            zeroAll d idxs !! k = Some 0.
Proof.
  induction idxs as [| i idxs IH]; intros d Hk H.
  - destruct H as [H | H]; [exact H | inversion H].
  - simpl. apply IH; [now rewrite length_insert |].
    destruct (decide (i = k)) as [-> | Hne].
    + left. now apply list_lookup_insert_eq.
    + rewrite list_lookup_insert_ne by assumption.
      destruct H as [H | H]; [now left |].
      apply elem_of_cons in H. destruct H as [-> | H]; [contradiction | now right].
Qed.

Lemma foldl_bind_flat {A B C : Type} (g : A -> C -> A) (f : B -> list C)
    (l : list B) :
  forall a, foldl (fun a y => foldl g a (f y)) a l = foldl g a (l ≫= f).
Proof.
  induction l as [| y l IH]; intros a; [reflexivity |].
  rewrite bind_cons, foldl_app. simpl. apply IH.
Qed.

Lemma foldl_fmap_arg {A B C : Type} (g : A -> C -> A) (h : B -> C) (l : list B) :
  forall a, foldl (fun a x => g a (h x)) a l = foldl g a (h <$> l).
Proof. induction l as [| x l IH]; intros a; [reflexivity | simpl; apply IH]. Qed.

Lemma foldl_ext_fun {A B : Type} (f g : A -> B -> A) (l : list B) :
  (forall a b, f a b = g a b) -> forall a, foldl f a l = foldl g a l.
Proof.
  intros H. induction l as [| b l IH]; intros a; [reflexivity |].
  simpl. rewrite H. apply IH.
Qed.

Lemma clearSurface_zeroAll (s : Surface) :
  data (clearSurface s) = zeroAll (data s) (cellIndices (width s) (height s)).
Proof.
  unfold clearSurface, zeroAll, cellIndices. simpl.
  rewrite <- foldl_bind_flat. apply foldl_ext_fun. intros d y.
  apply (foldl_fmap_arg (fun d k => <[k:=0]> d)).
Qed.

Lemma elem_of_cellIndices (w h : Z) (k : nat) :
  0 <= w -> Z.of_nat k < w * h -> k ∈ cellIndices w h.
Proof.
  intros Hw Hk.
  assert (0 < w) by (destruct (Z.eq_dec w 0) as [-> | ?]; lia).
  unfold cellIndices. apply list_elem_of_bind.
  exists (Z.of_nat k / w). split.
  - apply list_elem_of_fmap. exists (Z.of_nat k mod w). split.
    + pose proof (Z.div_mod (Z.of_nat k) w). lia.
    + apply elem_of_seqZ. pose proof (Z.mod_pos_bound (Z.of_nat k) w). lia.
  - apply elem_of_seqZ. split; [apply Z.div_pos; lia |].
    simpl. apply Z.div_lt_upper_bound; lia.
Qed.

Lemma clearSurface_blank_dots (s : Surface) :
  0 <= width s -> 0 <= height s ->
  Z.of_nat (length (data s)) = width s * height s ->
  clearSurface s = blank (width s) (height s) /\
  (forall x y, readDot (clearSurface s) x y = false).
Proof.
  intros Hw Hh Hlen.
  assert (Hd : data (clearSurface s) = replicate (Z.to_nat (width s * height s)) 0).
  { rewrite clearSurface_zeroAll. apply list_eq. intros k.
    destruct (decide (k < length (data s))%nat) as [Hk | Hk].
    - rewrite zeroAll_lookup; [| assumption |].
      + symmetry. apply lookup_replicate_2. lia.
      + right. apply elem_of_cellIndices; lia.
    - rewrite !lookup_ge_None_2; [reflexivity | |].
      + rewrite length_replicate. lia.
      + rewrite zeroAll_length. lia. }
  assert (Heq : clearSurface s = blank (width s) (height s)).
  { unfold blank. rewrite <- Hd. reflexivity. }
  split; [exact Heq |].
  intros x y. rewrite Heq. unfold readDot, blank. simpl.
  destruct (replicate _ 0 !! _) as [c |] eqn:E; simpl.
  - apply lookup_replicate in E. destruct E as [-> _]. reflexivity.
  - reflexivity.
Qed.

End Clear.

(** ** Bytes packed into an [int] *)

Section Packing.

Lemma land_shiftl_disjoint (a b n : Z) :
  0 <= n -> 0 <= a < 2 ^ n -> Z.land a (Z.shiftl b n) = 0.
Proof.
  intros Hn Ha. apply Z.bits_inj'. intros m Hm.
  rewrite Z.land_spec, Z.bits_0.
  destruct (Z_lt_le_dec m n) as [Hlt | Hge].
  - rewrite Z.shiftl_spec_low by assumption. apply andb_false_r.
  - destruct (Z.eq_dec a 0) as [-> | Hne]; [now rewrite Z.bits_0 |].
    rewrite (Z.bits_above_log2 a m); [reflexivity | lia |].
    assert (Z.log2 a < n) by (apply Z.log2_lt_pow2; lia). lia.
Qed.

Lemma lor_shiftl_add (a b n : Z) :
  0 <= n -> 0 <= a < 2 ^ n -> Z.lor a (Z.shiftl b n) = a + b * 2 ^ n.
Proof.
  intros Hn Ha. rewrite <- Z.lxor_lor, <- Z.add_nocarry_lxor
    by now apply land_shiftl_disjoint.
  now rewrite Z.shiftl_mul_pow2.
Qed.

(** Three bytes packed with the first in the low byte, and read back from
    memory. *)
Lemma glyphBytes_pack (a b c : Z) :
  0 <= a < 256 -> 0 <= b < 256 -> 0 <= c < 256 ->
  glyphBytes (Z.lor (Z.lor (Z.shiftl c 16) (Z.shiftl b 8)) a) = [a; b; c].
Proof.
  intros Ha Hb Hc.
  assert (E : Z.lor (Z.lor (Z.shiftl c 16) (Z.shiftl b 8)) a
              = a + b * 2 ^ 8 + c * 2 ^ 16).
  { rewrite (Z.lor_comm _ a), (Z.lor_comm (Z.shiftl c 16)), Z.lor_assoc.
    rewrite (lor_shiftl_add a b 8) by lia.
    rewrite lor_shiftl_add; [reflexivity | lia |].
    change (2 ^ 16) with 65536. change (2 ^ 8) with 256. lia. }
  rewrite E. unfold glyphBytes.
  change 255 with (Z.ones 8). rewrite !Z.land_ones, !Z.shiftr_div_pow2 by lia.
  change (2 ^ 16) with 65536. change (2 ^ 8) with 256.
  assert (D1 : (a + b * 256 + c * 65536) / 256 = b + c * 256)
    by (symmetry; apply (Z.div_unique_pos _ _ _ a); lia).
  assert (D2 : (a + b * 256 + c * 65536) / 65536 = c)
    by (symmetry; apply (Z.div_unique_pos _ _ _ (a + b * 256)); lia).
  rewrite D1, D2.
  f_equal; [| f_equal; [| f_equal]].
  - symmetry. apply (Z.mod_unique_pos _ _ (b + c * 256)); lia.
  - symmetry. apply (Z.mod_unique_pos _ _ c); lia.
  - apply Z.mod_small. lia.
Qed.

Lemma lor_const_small (k n : Z) :
  forall v, 0 <= v < n ->
  forallb (fun v => Z.lor k v mod 256 =? k + v) (seqZ 0 n) = true ->
  Z.lor k v mod 256 = k + v.
Proof.
  intros v Hv H. rewrite forallb_forall in H.
  apply Z.eqb_eq, H, list_elem_of_In, elem_of_seqZ. lia.
Qed.

(** The three bytes that [utf8Encode] builds. *)
Lemma utf8Encode_fields (cp : Z) :
  utf8Encode cp
  = Z.lor (Z.lor (Z.shiftl (0x80 + cp mod 64) 16)
                 (Z.shiftl (0x80 + (cp / 64) mod 64) 8))
          (0xE0 + (cp / 4096) mod 16).
Proof.
  unfold utf8Encode. rewrite !Z.shiftr_land.
  change (Z.shiftr 0xF000 12) with (Z.ones 4).
  change (Z.shiftr 0x0FC0 6) with (Z.ones 6).
  change 0x003F with (Z.ones 6).
  rewrite !Z.land_ones, !Z.shiftr_div_pow2 by lia.
  change (2 ^ 12) with 4096. change (2 ^ 6) with 64. change (2 ^ 4) with 16.
  rewrite (lor_const_small 0xE0 16), (lor_const_small 0x80 64 ((cp / 64) mod 64)),
    (lor_const_small 0x80 64 (cp mod 64));
    try (apply Z.mod_pos_bound; lia); try (vm_compute; reflexivity).
Qed.

(** X2: on every code number from 0 to 0xFFFF the three bytes that
    [utf8Encode] leaves in memory are the three-byte UTF-8 form, from which
    the code number is recovered; a code number outside 16 bits is encoded
    as its low 16 bits. *)
Theorem utf8Encode_three_bytes_roundtrip (cp : Z) :
  (0 <= cp <= 0xFFFF ->
   glyphBytes (utf8Encode cp) = utf8_three_bytes cp /\
   exists b1 b2 b3,
     glyphBytes (utf8Encode cp) = [b1; b2; b3] /\
     0xE0 <= b1 < 0xF0 /\ 0x80 <= b2 < 0xC0 /\ 0x80 <= b3 < 0xC0 /\
     (b1 - 0xE0) * 4096 + (b2 - 0x80) * 64 + (b3 - 0x80) = cp) /\
  utf8Encode cp = utf8Encode (cp mod 65536).
Proof.
  split.
  - intros Hcp. rewrite utf8Encode_fields.
    assert (Ha : 0 <= cp / 4096 < 16)
      by (split; [apply Z.div_pos; lia | apply Z.div_lt_upper_bound; lia]).
    rewrite (Z.mod_small (cp / 4096)) by lia.
    pose proof (Z.mod_pos_bound (cp / 64) 64 ltac:(lia)) as Hb.
    pose proof (Z.mod_pos_bound cp 64 ltac:(lia)) as Hc.
    rewrite glyphBytes_pack by lia.
    split; [reflexivity |].
    exists (0xE0 + cp / 4096), (0x80 + (cp / 64) mod 64), (0x80 + cp mod 64).
    split; [reflexivity |]. repeat split; try lia.
    pose proof (Z.div_mod cp 64 ltac:(lia)).
    pose proof (Z.div_mod (cp / 64) 64 ltac:(lia)).
    assert (cp / 64 / 64 = cp / 4096) by (rewrite Z.div_div by lia; reflexivity).
    lia.
  - rewrite !utf8Encode_fields.
    pose proof (Z.div_mod cp 65536 ltac:(lia)) as D.
    set (r := cp mod 65536) in *. set (q := cp / 65536) in *.
    assert (E1 : r mod 64 = cp mod 64).
    { replace cp with (r + (q * 1024) * 64) by lia.
      now rewrite Z.mod_add by lia. }
    assert (E2 : (r / 64) mod 64 = (cp / 64) mod 64).
    { replace cp with (r + (q * 1024) * 64) by lia.
      rewrite Z.div_add by lia.
      replace (q * 1024) with (q * 16 * 64) by ring.
      now rewrite Z.mod_add by lia. }
    assert (E3 : (r / 4096) mod 16 = (cp / 4096) mod 16).
    { replace cp with (r + (q * 16) * 4096) by lia.
      rewrite Z.div_add by lia.
      now rewrite Z.mod_add by lia. }
    now rewrite E1, E2, E3.
Qed.

Lemma utf8Encode_three_bytes_roundtrip_witness :
  glyphBytes (utf8Encode 0x20AC) = [0xE2; 0x82; 0xAC].
Proof.
  destruct (utf8Encode_three_bytes_roundtrip 0x20AC) as [H _].
  destruct H as [H _]; [lia |]. rewrite H. reflexivity.
Defined.

End Packing.

(** ** The header fields and the pixels of a raster file *)

Section RasterFile.

Lemma lor4_sum (b0 b1 b2 b3 : Z) :
  0 <= b0 < 256 -> 0 <= b1 < 256 -> 0 <= b2 < 256 -> 0 <= b3 < 256 ->
  Z.lor (Z.lor (Z.lor b0 (Z.shiftl b1 8)) (Z.shiftl b2 16)) (Z.shiftl b3 24)
  = b0 + 256 * b1 + 65536 * b2 + 16777216 * b3.
Proof.
  intros H0 H1 H2 H3.
  rewrite (lor_shiftl_add b0 b1 8) by lia. change (2 ^ 8) with 256.
  rewrite (lor_shiftl_add _ b2 16) by (change (2 ^ 16) with 65536; lia).
  change (2 ^ 16) with 65536.
  rewrite (lor_shiftl_add _ b3 24) by (change (2 ^ 24) with 16777216; lia).
  change (2 ^ 24) with 16777216. ring.
Qed.

Lemma le4_of_sum (v b0 b1 b2 b3 k : Z) :
  0 <= b0 < 256 -> 0 <= b1 < 256 -> 0 <= b2 < 256 -> 0 <= b3 < 256 ->
  v = b0 + 256 * b1 + 65536 * b2 + 16777216 * b3 + 4294967296 * k ->
  le4 v = [b0; b1; b2; b3].
Proof.
  intros H0 H1 H2 H3 ->. unfold le4.
  change 255 with (Z.ones 8). rewrite !Z.land_ones, !Z.shiftr_div_pow2 by lia.
  change (2 ^ 8) with 256. change (2 ^ 16) with 65536.
  change (2 ^ 24) with 16777216.
  set (u := b0 + 256 * b1 + 65536 * b2 + 16777216 * b3 + 4294967296 * k).
  assert (D1 : u / 256 = b1 + 256 * b2 + 65536 * b3 + 16777216 * k)
    by (symmetry; apply (Z.div_unique_pos _ _ _ b0); subst u; lia).
  assert (D2 : u / 65536 = b2 + 256 * b3 + 65536 * k)
    by (symmetry; apply (Z.div_unique_pos _ _ _ (b0 + 256 * b1)); subst u; lia).
  assert (D3 : u / 16777216 = b3 + 256 * k)
    by (symmetry;
        apply (Z.div_unique_pos _ _ _ (b0 + 256 * b1 + 65536 * b2)); subst u; lia).
  rewrite D1, D2, D3.
  f_equal; [| f_equal; [| f_equal; [| f_equal]]]; symmetry.
  - apply (Z.mod_unique_pos _ _ (b1 + 256 * b2 + 65536 * b3 + 16777216 * k));
      subst u; lia.
  - apply (Z.mod_unique_pos _ _ (b2 + 256 * b3 + 65536 * k)); lia.
  - apply (Z.mod_unique_pos _ _ (b3 + 256 * k)); lia.
  - apply (Z.mod_unique_pos _ _ k); lia.
Qed.

(** X3: [littleToBigEndian] reads four bytes as a little-endian number,
    which is negative when the last byte is 128 or more; the four bytes
    are recovered from the result. *)
Theorem littleToBigEndian_value (b0 b1 b2 b3 : Z) :
  0 <= b0 < 256 -> 0 <= b1 < 256 -> 0 <= b2 < 256 -> 0 <= b3 < 256 ->
  let u := b0 + 256 * b1 + 65536 * b2 + 16777216 * b3 in
  littleToBigEndian b0 b1 b2 b3 = (if b3 <? 128 then u else u - 2 ^ 32) /\
  INT_MIN <= littleToBigEndian b0 b1 b2 b3 <= INT_MAX /\
  le4 (littleToBigEndian b0 b1 b2 b3) = [b0; b1; b2; b3].
Proof.
  intros H0 H1 H2 H3 u.
  assert (E : littleToBigEndian b0 b1 b2 b3
              = if b3 <? 128 then u else u - 2 ^ 32).
  { unfold littleToBigEndian, wrap_int. rewrite lor4_sum by assumption.
    fold u. change (2 ^ 31) with 2147483648. change (2 ^ 32) with 4294967296.
    destruct (Z.ltb_spec b3 128).
    - rewrite Z.mod_small by (subst u; lia). lia.
    - rewrite <- (Z.mod_unique_pos (u + 2147483648) 4294967296 1
                                   (u - 2147483648)) by (subst u; lia).
      lia. }
  split; [exact E |]. split.
  - rewrite E. unfold INT_MIN, INT_MAX.
    change (2 ^ 31) with 2147483648. change (2 ^ 32) with 4294967296.
    destruct (Z.ltb_spec b3 128); subst u; lia.
  - rewrite E. destruct (Z.ltb_spec b3 128).
    + apply (le4_of_sum _ _ _ _ _ 0); subst u; lia.
    + apply (le4_of_sum _ _ _ _ _ (-1)); try assumption.
      change (2 ^ 32) with 4294967296. subst u. lia.
Qed.

Lemma littleToBigEndian_value_witness :
  littleToBigEndian 0x36 0 0 0 = 54 /\
  littleToBigEndian 0xFE 0xFF 0xFF 0xFF = -2.
Proof.
  split.
  - destruct (littleToBigEndian_value 0x36 0 0 0) as [H _]; try lia. exact H.
  - destruct (littleToBigEndian_value 0xFE 0xFF 0xFF 0xFF) as [H _]; try lia.
    exact H.
Defined.

(** Lookup in a concatenation of blocks of the same length. *)
Lemma lookup_bind_blocks {A B : Type} (g : A -> list B) (n : nat) (l : list A) :
  (forall a, length (g a) = n) ->
  forall i j, (j < n)%nat ->
              (l ≫= g) !! (i * n + j)%nat = l !! i ≫= fun a => g a !! j.
Proof.
  intros Hg. induction l as [| a l IH]; intros i j Hj.
  - now rewrite lookup_nil.
  - rewrite bind_cons. destruct i as [| i].
    + simpl. apply lookup_app_l. rewrite Hg. exact Hj.
    + rewrite lookup_app_r by (rewrite Hg; lia). rewrite Hg.
      replace (S i * n + j - n)%nat with (i * n + j)%nat by lia.
      simpl. now apply IH.
Qed.

Lemma loadBitmap_lookup (buf : list Z) (x y : Z) :
  let w := readInt buf 0x12 in
  let h := readInt buf 0x16 in
  let p := readInt buf 0x0A mod 2 ^ 32 + (y * w + x) * 3 in
  Forall (fun b => 0 <= b < 256) buf ->
  width (loadBitmap buf) = w /\ height (loadBitmap buf) = h /\
  (w <= 0 \/ h <= 0 -> data (loadBitmap buf) = []) /\
  (0 <= x < w -> 0 <= y < h ->
   data (loadBitmap buf) !! Z.to_nat (y * w + x)
   = Some (if (byteAt buf p =? 0) && (byteAt buf (p + 1) =? 0)
              && (byteAt buf (p + 2) =? 0) then 1 else 0)).
Proof.
  intros w h p Hbytes. split; [reflexivity |]. split; [reflexivity |].
  assert (Hbyte : forall i, 0 <= byteAt buf i < 256).
  { intros i. unfold byteAt. destruct (buf !! Z.to_nat i) as [b |] eqn:E; simpl.
    - rewrite Forall_lookup in Hbytes. exact (Hbytes _ _ E).
    - lia. }
  split.
  - intros [Hw | Hh]; simpl; fold w h.
    + assert (E : seqZ 0 w = []) by (unfold seqZ; now rewrite Z2Nat.nonpos).
      rewrite E. clear. induction (seqZ 0 h) as [| a l IH]; [reflexivity |].
      now rewrite bind_cons, IH.
    + assert (E : seqZ 0 h = []) by (unfold seqZ; now rewrite Z2Nat.nonpos).
      now rewrite E.
  - intros Hx Hy. simpl. fold w h.
    replace (Z.to_nat (y * w + x))
      with (Z.to_nat y * Z.to_nat w + Z.to_nat x)%nat by nia.
    rewrite (lookup_bind_blocks _ (Z.to_nat w)).
    + rewrite lookup_seqZ_lt by lia. simpl.
      assert (Hin : (seqZ 0 w ≫= fun x0 =>
                [decodePixel buf (readInt buf 10 mod 2 ^ 32)
                             ((0 + Z.of_nat (Z.to_nat y)) * w + x0)])
              = (fun x0 => decodePixel buf (readInt buf 10 mod 2 ^ 32)
                             ((0 + Z.of_nat (Z.to_nat y)) * w + x0))
                <$> seqZ 0 w).
      { clear. induction (seqZ 0 w) as [| a l IH]; [reflexivity |].
        rewrite bind_cons, fmap_cons, IH. reflexivity. }
      rewrite Hin, list_lookup_fmap, lookup_seqZ_lt by lia. simpl.
      rewrite !Z2Nat.id by lia. simpl.
      unfold decodePixel. rewrite pixelByte_black_only by apply Hbyte.
      subst p. f_equal. rewrite !Z.add_0_l.
      set (B := byteAt buf (readInt buf 10 mod 2 ^ 32 + (y * w + x) * 3)).
      set (G := byteAt buf (readInt buf 10 mod 2 ^ 32 + (y * w + x) * 3 + 1)).
      set (R := byteAt buf (readInt buf 10 mod 2 ^ 32 + (y * w + x) * 3 + 2)).
      destruct (R =? 0), (G =? 0), (B =? 0); reflexivity.
    + intros y0. rewrite (length_bind_const _ _ 1%nat) by reflexivity.
      rewrite length_seqZ. lia.
    + lia.
Qed.

End RasterFile.

(** ** Dots of a surface: reading back, idempotence and exchange *)

Section Dots.

Lemma plot_wf (s : Surface) (x y value : Z) :
  wf_surface s -> wf_surface (plot s x y value).
Proof. apply drawPixel_wf. Qed.

Lemma plot_dims (s : Surface) (x y value : Z) :
  width (plot s x y value) = width s /\ height (plot s x y value) = height s.
Proof. apply drawPixel_dims. Qed.

Lemma inRange_dims (s s' : Surface) (x y : Z) :
  width s' = width s -> height s' = height s -> inRange s' x y <-> inRange s x y.
Proof. unfold inRange. now intros -> ->. Qed.

(** What a dot reads after a call on a pixel. *)
Lemma readDot_plot (s : Surface) (x y value qx qy : Z) :
  wf_surface s -> inRange s qx qy ->
  readDot (plot s x y value) qx qy
  = if bool_decide ((qx, qy) = (x, y)) then negb (value =? 0) else readDot s qx qy.
Proof.
  intros Hwf Hq. unfold plot. case_bool_decide as Heq.
  - injection Heq as -> ->. now apply readDot_drawPixel_same.
  - destruct (decide (inRange s x y)) as [Hr | Hr].
    + now apply readDot_drawPixel_other.
    + now rewrite drawPixel_out_of_range.
Qed.

Lemma cell_bit_pixel (s : Surface) (j k : Z) :
  0 <= width s -> 0 <= j < width s * height s -> 0 <= k < 8 ->
  exists x y, inRange s x y /\ cellOffset s x y = j /\ bitIndex x y = k.
Proof.
  intros Hw Hj Hk.
  assert (Hwpos : 0 < width s) by (destruct (Z.eq_dec (width s) 0) as [E | ?]; [rewrite E in Hj |]; lia).
  pose proof (Z.div_mod j (width s) ltac:(lia)) as Hdm.
  pose proof (Z.mod_pos_bound j (width s) Hwpos) as Hm.
  assert (Hq : 0 <= j / width s < height s).
  { split; [apply Z.div_pos; lia | apply Z.div_lt_upper_bound; lia]. }
  set (c := j mod width s) in *. set (r := j / width s) in *.
  exists (2 * c + (dotOfBit k).1), (4 * (height s - 1 - r) + (dotOfBit k).2).
  assert (Hcase : k = 0 \/ k = 1 \/ k = 2 \/ k = 3 \/ k = 4 \/ k = 5 \/ k = 6 \/ k = 7)
    by lia.
  assert (Hd : 0 <= (dotOfBit k).1 < 2 /\ 0 <= (dotOfBit k).2 < 4).
  { destruct Hcase as [-> | [-> | [-> | [-> | [-> | [-> | [-> | ->]]]]]]];
      simpl; lia. }
  destruct Hd as [Hdx Hdy].
  set (dx := (dotOfBit k).1) in *. set (dy := (dotOfBit k).2) in *.
  assert (Hx2 : (2 * c + dx) / 2 = c)
    by (symmetry; apply (Z.div_unique_pos _ _ _ dx); lia).
  assert (Hy4 : (4 * (height s - 1 - r) + dy) / 4 = height s - 1 - r)
    by (symmetry; apply (Z.div_unique_pos _ _ _ dy); lia).
  assert (Hxm : (2 * c + dx) mod 2 = dx)
    by (symmetry; apply (Z.mod_unique_pos _ _ c); lia).
  assert (Hym : (4 * (height s - 1 - r) + dy) mod 4 = dy)
    by (symmetry; apply (Z.mod_unique_pos _ _ (height s - 1 - r)); lia).
  split; [unfold inRange; lia |]. split.
  - rewrite cellOffset_row_col by lia. rewrite Hx2, Hy4. lia.
  - unfold bitIndex. rewrite !Z.rem_mod_nonneg by lia. rewrite Hxm, Hym.
    subst dx dy.
    destruct Hcase as [-> | [-> | [-> | [-> | [-> | [-> | [-> | ->]]]]]]];
      reflexivity.
Qed.

Lemma surface_eq_of_dots (s s' : Surface) :
  wf_surface s -> wf_surface s' ->
  width s' = width s -> height s' = height s ->
  (forall x y, inRange s x y -> readDot s' x y = readDot s x y) ->
  s' = s.
Proof.
  intros Hwf Hwf' Hw Hh Hdots.
  assert (Hdata : data s' = data s).
  { pose proof Hwf as (Hw0 & Hh0 & _ & _ & _ & Hlen & Hall).
    pose proof Hwf' as (_ & _ & _ & _ & _ & Hlen' & Hall').
    apply list_eq. intros j.
    destruct (decide (j < length (data s))%nat) as [Hj | Hj].
    2:{ rewrite !lookup_ge_None_2; [reflexivity | lia |]. rewrite Hw, Hh in Hlen'. lia. }
    destruct (lookup_lt_is_Some_2 (data s) j Hj) as [c Hc].
    destruct (lookup_lt_is_Some_2 (data s') j) as [c' Hc'];
      [rewrite Hw, Hh in Hlen'; lia |].
    rewrite Hc, Hc'. f_equal.
    rewrite Forall_lookup in Hall, Hall'.
    pose proof (Hall _ _ Hc) as Hb. pose proof (Hall' _ _ Hc') as Hb'.
    apply Z.bits_inj'. intros k Hk.
    destruct (Z_lt_le_dec k 8) as [Hk8 | Hk8].
    - destruct (cell_bit_pixel s (Z.of_nat j) k) as (x & y & Hr & Hoff & Hbit);
        try lia.
      specialize (Hdots x y Hr).
      assert (Hoff' : cellOffset s' x y = Z.of_nat j).
      { unfold cellOffset in *. rewrite Hw, Hh. exact Hoff. }
      destruct Hr as [Hx Hy].
      rewrite (readDot_testbit s x y c) in Hdots; try lia.
      2:{ rewrite Hoff, Nat2Z.id. exact Hc. }
      rewrite (readDot_testbit s' x y c') in Hdots; try lia.
      2:{ rewrite Hoff', Nat2Z.id. exact Hc'. }
      now rewrite Hbit in Hdots.
    - now rewrite !byte_high_bits by lia. }
  destruct s, s'. simpl in *. now subst.
Qed.

(** X5: a well-formed surface is determined by its dots: every bit of
    every cell is the dot of a pixel, so two surfaces of the same
    dimensions on which every pixel reads the same are equal. *)
Theorem surface_dots_ext (s s' : Surface) :
  wf_surface s -> wf_surface s' ->
  width s' = width s -> height s' = height s ->
  (forall x y, inRange s x y -> readDot s' x y = readDot s x y) ->
  s' = s.
Proof. apply surface_eq_of_dots. Qed.

Lemma surface_dots_ext_witness :
  plot (plot (blank 2 2) 1 1 1) 1 1 0 = blank 2 2.
Proof.
  apply surface_dots_ext.
  - apply wf_blank; vm_compute; discriminate.
  - vm_compute. repeat split; try discriminate. repeat constructor; discriminate.
  - reflexivity.
  - reflexivity.
  - intros x y _. vm_compute. reflexivity.
Defined.

Lemma drawPoint_plot (s : Surface) (fx fy : spec_float) (value r : Z)
    (s' : Surface) :
  drawPoint s fx fy value = Some (r, s') ->
  exists x y, fRound fx = Some x /\ fRound fy = Some y /\
              s' = plot s x y value /\ r = (drawPixel s x y value).1.
Proof.
  unfold drawPoint. destruct (fRound fx) as [x |]; [| discriminate].
  destruct (fRound fy) as [y |]; [| discriminate].
  intros [= E]. exists x, y. unfold plot. rewrite E. auto.
Qed.

Lemma drawPixel_result (s : Surface) (x y value : Z) :
  (drawPixel s x y value).1 = if bool_decide (inRange s x y) then 0 else -1.
Proof.
  case_bool_decide as Hr.
  - unfold drawPixel. now rewrite (proj2 (drawPixel_guard s x y) Hr).
  - now rewrite drawPixel_out_of_range.
Qed.

Lemma plot_plot_same (s : Surface) (x y value : Z) :
  wf_surface s -> plot (plot s x y value) x y value = plot s x y value.
Proof.
  intros Hwf. destruct (plot_dims s x y value) as [Hw Hh].
  destruct (plot_dims (plot s x y value) x y value) as [Hw' Hh'].
  apply surface_eq_of_dots; try (now repeat apply plot_wf); try congruence.
  intros qx qy Hq.
  assert (Hq0 : inRange s qx qy) by now apply (inRange_dims s (plot s x y value)).
  rewrite readDot_plot by (try apply plot_wf; assumption).
  rewrite (readDot_plot s) by assumption.
  now case_bool_decide.
Qed.

Lemma plot_plot_comm (s : Surface) (x y v x' y' v' : Z) :
  wf_surface s ->
  (x, y) <> (x', y') \/ (v =? 0) = (v' =? 0) ->
  plot (plot s x y v) x' y' v' = plot (plot s x' y' v') x y v.
Proof.
  intros Hwf Hor.
  destruct (plot_dims s x y v) as [Hw Hh].
  destruct (plot_dims s x' y' v') as [Hw' Hh'].
  destruct (plot_dims (plot s x y v) x' y' v') as [Hw1 Hh1].
  destruct (plot_dims (plot s x' y' v') x y v) as [Hw2 Hh2].
  apply surface_eq_of_dots; try (now repeat apply plot_wf); try congruence.
  intros qx qy Hq.
  assert (Hq0 : inRange s qx qy).
  { apply (inRange_dims s (plot (plot s x' y' v') x y v)); congruence. }
  assert (Hq1 : inRange (plot s x y v) qx qy) by now apply (inRange_dims s).
  assert (Hq2 : inRange (plot s x' y' v') qx qy) by now apply (inRange_dims s).
  rewrite !readDot_plot by (try apply plot_wf; assumption).
  repeat case_bool_decide; try reflexivity.
  destruct Hor as [Hne | Hv]; [congruence | now rewrite Hv].
Qed.

(** X6: plotting a point a second time with the same value changes
    nothing: the second call returns what the first returned and leaves the
    surface of the first. *)
Theorem drawPoint_idempotent (s s1 : Surface) (fx fy : spec_float) (value r : Z) :
  wf_surface s ->
  drawPoint s fx fy value = Some (r, s1) ->
  drawPoint s1 fx fy value = Some (r, s1).
Proof.
  intros Hwf Hd.
  destruct (drawPoint_plot _ _ _ _ _ _ Hd) as (x & y & Hx & Hy & -> & ->).
  unfold drawPoint. rewrite Hx, Hy. f_equal.
  rewrite (surjective_pairing (drawPixel (plot s x y value) x y value)).
  f_equal.
  - rewrite !drawPixel_result.
    destruct (plot_dims s x y value) as [Hw Hh].
    repeat case_bool_decide; try reflexivity;
      exfalso; rewrite inRange_dims in * by eassumption; contradiction.
  - now apply plot_plot_same.
Qed.

Lemma drawPoint_idempotent_witness :
  drawPoint (mkSurface [0; 32; 0; 0] 2 2) (fi 3) (fi 5) 1
  = Some (0, mkSurface [0; 32; 0; 0] 2 2).
Proof.
  apply (drawPoint_idempotent (blank 2 2)).
  - apply wf_blank; vm_compute; discriminate.
  - vm_compute. reflexivity.
Defined.

(** X7: two calls of [drawPoint] can be exchanged when they round to
    different pixels, or when both set or both clear: the surface after the
    two calls is the same in either order. *)
Theorem drawPoint_commute (s s1 s12 s2 s21 : Surface)
    (fx fy fx' fy' : spec_float) (v v' r1 r2 r3 r4 : Z) :
  wf_surface s ->
  (fRound fx, fRound fy) <> (fRound fx', fRound fy') \/ (v =? 0) = (v' =? 0) ->
  drawPoint s fx fy v = Some (r1, s1) ->
  drawPoint s1 fx' fy' v' = Some (r2, s12) ->
  drawPoint s fx' fy' v' = Some (r3, s2) ->
  drawPoint s2 fx fy v = Some (r4, s21) ->
  s12 = s21.
Proof.
  intros Hwf Hor H1 H12 H2 H21.
  destruct (drawPoint_plot _ _ _ _ _ _ H1) as (x & y & Hx & Hy & -> & _).
  destruct (drawPoint_plot _ _ _ _ _ _ H2) as (x' & y' & Hx' & Hy' & -> & _).
  destruct (drawPoint_plot _ _ _ _ _ _ H12) as (a & b & Ha & Hb & -> & _).
  destruct (drawPoint_plot _ _ _ _ _ _ H21) as (a' & b' & Ha' & Hb' & -> & _).
  assert (a = x') by congruence. assert (b = y') by congruence.
  assert (a' = x) by congruence. assert (b' = y) by congruence. subst.
  apply plot_plot_comm; [assumption |].
  destruct Hor as [Hne | Hv]; [left | now right].
  rewrite Hx, Hy, Hx', Hy' in Hne. congruence.
Qed.

Lemma drawPoint_commute_witness :
  plot (plot (blank 2 2) 3 5 1) 0 0 0 = plot (plot (blank 2 2) 0 0 0) 3 5 1.
Proof.
  eapply (drawPoint_commute (blank 2 2)) with
    (fx := fi 3) (fy := fi 5) (fx' := fi 0) (fy' := fi 0) (v := 1) (v' := 0).
  - apply wf_blank; vm_compute; discriminate.
  - left. vm_compute. discriminate.
  - vm_compute. reflexivity.
  - vm_compute. reflexivity.
  - vm_compute. reflexivity.
  - vm_compute. reflexivity.
Defined.

End Dots.

(** ** Lines and curves only add dots *)

Section OnlyAdd.

Lemma drawPoint_keeps_wf_dims (s s' : Surface) (fx fy : spec_float) (v r : Z) :
  wf_surface s -> drawPoint s fx fy v = Some (r, s') ->
  wf_surface s' /\ width s' = width s /\ height s' = height s.
Proof.
  intros Hwf Hd.
  destruct (drawPoint_plot _ _ _ _ _ _ Hd) as (x & y & _ & _ & -> & _).
  split; [now apply plot_wf | apply plot_dims].
Qed.

Lemma lineLoop_wf_dims (fuel : nat) (inf : bool) (slope yint x2 y2 : spec_float) :
  forall (s : Surface) (x1 y1 : spec_float) (s' : Surface),
    wf_surface s ->
    lineLoop fuel inf slope yint x2 y2 s x1 y1 = Done s' ->
    wf_surface s' /\ width s' = width s /\ height s' = height s.
Proof.
  induction fuel as [| fuel IH]; intros s x1 y1 s' Hwf;
    rewrite lineLoop_unfold; destruct (lineCond x1 y1 x2 y2);
    try discriminate; try (intros [= <-]; auto).
  destruct (drawPoint s _ _ 1) as [[r s1] |] eqn:Hd; [| discriminate].
  destruct (drawPoint_keeps_wf_dims _ _ _ _ _ _ Hwf Hd) as (Hwf1 & Hw1 & Hh1).
  intros Hl. destruct (IH _ _ _ _ Hwf1 Hl) as (? & ? & ?).
  split; [assumption | split; congruence].
Qed.

(** X8: when [drawLine] returns, the surface has the dimensions it had
    and is well formed, and every dot that was lit is still lit: a line
    never erases. *)
Theorem drawLine_only_adds_dots (fuel : nat) (s s' : Surface)
    (x1 y1 x2 y2 : spec_float) :
  wf_surface s ->
  drawLine fuel s x1 y1 x2 y2 = Done s' ->
  wf_surface s' /\ width s' = width s /\ height s' = height s /\
  (forall x y, inRange s x y -> readDot s x y = true -> readDot s' x y = true).
Proof.
  intros Hwf. unfold drawLine.
  destruct (drawPoint s x1 y1 1) as [[r s1] |] eqn:Hd; [| discriminate].
  destruct (drawPoint_keeps_wf_dims _ _ _ _ _ _ Hwf Hd) as (Hwf1 & Hw1 & Hh1).
  intros Hl. destruct (lineLoop_wf_dims _ _ _ _ _ _ _ _ _ _ Hwf1 Hl) as (? & ? & ?).
  split; [assumption |]. split; [congruence |]. split; [congruence |].
  intros x y Hr Hlit.
  destruct (drawPoint_set_keeps_lit _ _ _ _ _ _ _ Hwf Hr Hlit Hd) as (_ & Hr1 & Hl1).
  exact (lineLoop_keeps_lit _ _ _ _ _ _ _ _ _ _ _ _ Hwf1 Hr1 Hl1 Hl).
Qed.

Lemma drawLine_only_adds_dots_witness :
  exists s', drawLine 8 (mkSurface [0; 0; 0; 0; 0; 0; 0; 64] 4 2)
                      (fi 0) (fi 7) (fi 4) (fi 7) = Done s' /\
             readDot s' 6 0 = true.
Proof.
  assert (E : exists s', drawLine 8 (mkSurface [0; 0; 0; 0; 0; 0; 0; 64] 4 2)
                                  (fi 0) (fi 7) (fi 4) (fi 7) = Done s')
    by (eexists; vm_compute; reflexivity).
  destruct E as [s' H]. exists s'. split; [exact H |].
  assert (Hwf : wf_surface (mkSurface [0; 0; 0; 0; 0; 0; 0; 64] 4 2)).
  { unfold wf_surface, INT_MAX. simpl. repeat split; try lia.
    repeat constructor; lia. }
  destruct (drawLine_only_adds_dots _ _ _ _ _ _ _ Hwf H) as (_ & _ & _ & Hk).
  apply Hk; [unfold inRange; simpl; lia | reflexivity].
Defined.

Lemma drawCurve_keeps (fuel : nat) (x2 a b c : spec_float) :
  forall (s : Surface) (x1 : spec_float) (s' : Surface),
    wf_surface s ->
    drawCurve fuel s x1 x2 a b c = Done s' ->
    wf_surface s' /\ width s' = width s /\ height s' = height s /\
    (forall x y, inRange s x y -> readDot s x y = true -> readDot s' x y = true).
Proof.
  induction fuel as [| fuel IH]; intros s x1 s' Hwf;
    rewrite drawCurve_unfold; destruct (F32.ltb x1 x2);
    try discriminate; try (intros [= <-]; auto).
  unfold plotSample. destruct (curveY a b c _) as [y |]; [| discriminate].
  destruct (drawPoint s _ _ 1) as [[r s1] |] eqn:Hd; [| discriminate].
  destruct (drawPoint_keeps_wf_dims _ _ _ _ _ _ Hwf Hd) as (Hwf1 & Hw1 & Hh1).
  intros Hl. destruct (IH _ _ _ Hwf1 Hl) as (? & ? & ? & Hk).
  split; [assumption |]. split; [congruence |]. split; [congruence |].
  intros px py Hr Hlit.
  destruct (drawPoint_set_keeps_lit _ _ _ _ _ _ _ Hwf Hr Hlit Hd) as (_ & Hr1 & Hl1).
  now apply Hk.
Qed.

(** X9: when [drawCurve] returns, the surface has the dimensions it had
    and is well formed, and every dot that was lit is still lit. *)
Theorem drawCurve_only_adds_dots (fuel : nat) (s s' : Surface)
    (x1 x2 a b c : spec_float) :
  wf_surface s ->
  drawCurve fuel s x1 x2 a b c = Done s' ->
  wf_surface s' /\ width s' = width s /\ height s' = height s /\
  (forall x y, inRange s x y -> readDot s x y = true -> readDot s' x y = true).
Proof. apply drawCurve_keeps. Qed.

Lemma drawCurve_only_adds_dots_witness :
  exists s', drawCurve 10 (mkSurface [0; 0; 0; 0; 0; 0; 0; 64] 4 2)
                       (fi 0) (fi 1) (fi 0) (fi 0) (fi 30) = Done s' /\
             readDot s' 6 0 = true.
Proof.
  assert (E : exists s', drawCurve 10 (mkSurface [0; 0; 0; 0; 0; 0; 0; 64] 4 2)
                                   (fi 0) (fi 1) (fi 0) (fi 0) (fi 30) = Done s')
    by (eexists; vm_compute; reflexivity).
  destruct E as [s' H]. exists s'. split; [exact H |].
  assert (Hwf : wf_surface (mkSurface [0; 0; 0; 0; 0; 0; 0; 64] 4 2)).
  { unfold wf_surface, INT_MAX. simpl. repeat split; try lia.
    repeat constructor; lia. }
  destruct (drawCurve_only_adds_dots _ _ _ _ _ _ _ _ Hwf H) as (_ & _ & _ & Hk).
  apply Hk; [unfold inRange; simpl; lia | reflexivity].
Defined.

End OnlyAdd.

(** ** Exact cases of the rounding of [SpecFloat] *)

Section ExactRounding.

Variables prec emax : Z.

Lemma digits2_pos_log2 (p : positive) :
  Zpos (digits2_pos p) = Z.log2 (Zpos p) + 1.
Proof.
  assert (H : digits2_pos p = Pos.size p)
    by (induction p as [p IH | p IH |]; simpl; congruence).
  rewrite H. destruct p; simpl; lia.
Qed.

Lemma pos_iter_xO (m d : positive) :
  Zpos (Pos.iter xO m d) = Zpos m * 2 ^ Zpos d.
Proof.
  induction d as [| d IH] using Pos.peano_ind.
  - simpl. lia.
  - rewrite Pos.iter_succ, Pos2Z.inj_xO, IH, Pos2Z.inj_succ, Z.pow_succ_r by lia.
    ring.
Qed.

Lemma iter_pos_nat {A : Type} (f : A -> A) (d : positive) :
  forall x, SpecFloat.iter_pos f d x = Nat.iter (Pos.to_nat d) f x.
Proof.
  induction d as [d IH | d IH |]; intros x.
  - change (SpecFloat.iter_pos f d~1 x)
      with (SpecFloat.iter_pos f d (SpecFloat.iter_pos f d (f x))).
    rewrite !IH, Pos2Nat.inj_xI, <- Nat.iter_add, <- Nat.iter_succ_r.
    f_equal. lia.
  - change (SpecFloat.iter_pos f d~0 x)
      with (SpecFloat.iter_pos f d (SpecFloat.iter_pos f d x)).
    rewrite !IH, Pos2Nat.inj_xO, <- Nat.iter_add. f_equal. lia.
  - reflexivity.
Qed.

Lemma shr_1_iter (n : nat) (m : positive) :
  Nat.iter n shr_1 (Build_shr_record (Zpos (Nat.iter n xO m)) false false)
  = Build_shr_record (Zpos m) false false.
Proof.
  induction n as [| n IH]; [reflexivity |].
  rewrite Nat.iter_succ_r. simpl. exact IH.
Qed.

Lemma pos_iter_nat (m d : positive) :
  Pos.iter xO m d = Nat.iter (Pos.to_nat d) xO m.
Proof. apply Pos2Nat.inj_iter. Qed.

(** Shifting out [d] zero bits is exact. *)
Lemma shr_exact (M m : positive) (e : Z) (d : positive) :
  Zpos M = Zpos m * 2 ^ Zpos d ->
  shr (Build_shr_record (Zpos M) false false) e (Zpos d)
  = (Build_shr_record (Zpos m) false false, e + Zpos d).
Proof.
  intros HM. unfold shr. f_equal.
  assert (E : M = Pos.iter xO m d).
  { apply Pos2Z.inj. now rewrite pos_iter_xO. }
  rewrite E, iter_pos_nat, pos_iter_nat. apply shr_1_iter.
Qed.

Hypothesis prec_pos : 0 < prec.

Lemma fexp_normal (m : positive) (e : Z) :
  normal prec emax m e -> fexp prec emax (Zpos (digits2_pos m) + e) = e.
Proof.
  intros [Hd He]. unfold fexp, emin. rewrite Hd. lia.
Qed.

Lemma binary_round_aux_normal (s : bool) (m : positive) (e : Z) :
  normal prec emax m e ->
  binary_round_aux prec emax s (Zpos m) e loc_Exact = S754_finite s m e.
Proof.
  intros Hn. pose proof (fexp_normal m e Hn) as Hf.
  unfold binary_round_aux, shr_fexp. simpl Zdigits2.
  rewrite Hf, Z.sub_diag. simpl. rewrite Hf, Z.sub_diag. simpl.
  destruct Hn as [_ He].
  destruct (Z.leb_spec e (emax - prec)); [reflexivity | lia].
Qed.

(** [M * 2^e] has the normal form [m * 2^e'] with [e <= e']. *)
Lemma binary_round_aux_exact (s : bool) (M m : positive) (e e' : Z) :
  normal prec emax m e' -> e <= e' -> Zpos M = Zpos m * 2 ^ (e' - e) ->
  binary_round_aux prec emax s (Zpos M) e loc_Exact = S754_finite s m e'.
Proof.
  intros Hn Hle HM.
  destruct (Z.eq_dec e e') as [<- | Hne].
  - rewrite Z.sub_diag, Z.pow_0_r, Z.mul_1_r in HM. injection HM as ->.
    now apply binary_round_aux_normal.
  - pose proof (fexp_normal m e' Hn) as Hf. destruct Hn as [Hd He].
    assert (HD : Zpos (digits2_pos M) = prec + (e' - e)).
    { rewrite digits2_pos_log2, HM, Z.log2_mul_pow2 by lia.
      rewrite digits2_pos_log2 in Hd. lia. }
    unfold binary_round_aux, shr_fexp. simpl Zdigits2.
    assert (Hfe : fexp prec emax (Zpos (digits2_pos M) + e) = e').
    { unfold fexp, emin. rewrite HD. lia. }
    rewrite Hfe.
    destruct (e' - e) as [| d | d] eqn:Ed; try lia.
    simpl shr_record_of_loc. rewrite (shr_exact M m e d HM).
    replace (e + Zpos d) with e' by lia.
    cbv beta iota zeta delta [shr_m loc_of_shr_record round_nearest_even
                              shr_fexp shr_record_of_loc Zdigits2].
    rewrite Hf.
    rewrite Z.sub_diag. simpl.
    destruct (Z.leb_spec e' (emax - prec)); [reflexivity | lia].
Qed.

(** The rounding of a number that has a normal form is that form. *)
Lemma binary_round_exact (s : bool) (M m : positive) (e e' : Z) :
  normal prec emax m e' ->
  (e' <= e /\ Zpos m = Zpos M * 2 ^ (e - e')) \/
  (e <= e' /\ Zpos M = Zpos m * 2 ^ (e' - e)) ->
  binary_round prec emax s M e = S754_finite s m e'.
Proof.
  intros Hn Hv. pose proof Hn as [Hd He]. unfold binary_round.
  assert (Hfe : fexp prec emax (Zpos (digits2_pos M) + e) = e').
  { unfold fexp, emin. rewrite (digits2_pos_log2 M).
    rewrite (digits2_pos_log2 m) in Hd.
    destruct Hv as [[Hle Hm] | [Hle HM]].
    - assert (Z.log2 (Zpos m) = (e - e') + Z.log2 (Zpos M))
        by (rewrite Hm; apply Z.log2_mul_pow2; lia).
      lia.
    - assert (Z.log2 (Zpos M) = (e' - e) + Z.log2 (Zpos m))
        by (rewrite HM; apply Z.log2_mul_pow2; lia).
      lia. }
  rewrite Hfe. clear Hfe. unfold shl_align.
  destruct (e' - e) as [| d | d] eqn:Ed.
  - assert (e' = e) by lia. subst e'.
    apply binary_round_aux_exact; [assumption | lia |].
    destruct Hv as [[_ Hm] | [_ HM]].
    + rewrite Z.sub_diag, Z.pow_0_r, Z.mul_1_r in Hm |- *. congruence.
    + now rewrite Z.sub_diag.
  - destruct Hv as [[Hle Hm] | [Hle HM]]; [lia |].
    apply binary_round_aux_exact; [assumption | lia | now rewrite Ed].
  - destruct Hv as [[Hle Hm] | [Hle HM]]; [| lia].
    assert (E : Pos.iter xO M d = m).
    { apply Pos2Z.inj. rewrite pos_iter_xO, Hm. f_equal. f_equal. lia. }
    rewrite E. now apply binary_round_aux_normal.
Qed.

End ExactRounding.

(** ** Integers as floating-point numbers *)

Section IntegerFloats.

Variables prec emax : Z.
Hypothesis prec_pos : 0 < prec.
Hypothesis emax_prec : prec <= emax.

Lemma log2_lt_prec (n : Z) : 0 < n < 2 ^ prec -> 0 <= Z.log2 n < prec.
Proof.
  intros Hn. split; [apply Z.log2_nonneg |]. apply Z.log2_lt_pow2; lia.
Qed.

Lemma nmant_val (n : Z) :
  0 < n < 2 ^ prec -> Zpos (nmant prec n) = n * 2 ^ (prec - 1 - Z.log2 n).
Proof.
  intros Hn. pose proof (log2_lt_prec n Hn). unfold nmant.
  rewrite Z2Pos.id; [reflexivity |].
  apply Z.mul_pos_pos; [lia | apply Z.pow_pos_nonneg; lia].
Qed.

Lemma normal_int (n E : Z) :
  0 < n < 2 ^ prec ->
  3 - emax - prec <= nexp prec n + E <= emax - prec ->
  normal prec emax (nmant prec n) (nexp prec n + E).
Proof.
  intros Hn HE. pose proof (log2_lt_prec n Hn). split; [| exact HE].
  rewrite digits2_pos_log2, nmant_val, Z.log2_mul_pow2 by lia. lia.
Qed.

(** The rounding of [n * 2^j * 2^e] is the normal form of [n], with the
    exponent moved by [e + j]. *)
Lemma binary_round_scaled (s : bool) (M : positive) (n j e : Z) :
  0 < n < 2 ^ prec -> 0 <= j -> Zpos M = n * 2 ^ j ->
  3 - emax - prec <= nexp prec n + (e + j) <= emax - prec ->
  binary_round prec emax s M e
  = S754_finite s (nmant prec n) (nexp prec n + (e + j)).
Proof.
  intros Hn Hj HM HE. pose proof (log2_lt_prec n Hn) as HL.
  apply binary_round_exact; [now apply normal_int |].
  rewrite nmant_val, HM by assumption. unfold nexp.
  destruct (Z_le_gt_dec (Z.log2 n + 1 - prec + (e + j)) e) as [Hle | Hgt].
  - left. split; [assumption |].
    rewrite <- Z.mul_assoc, <- Z.pow_add_r by lia. do 2 f_equal. lia.
  - right. split; [lia |].
    rewrite <- Z.mul_assoc, <- Z.pow_add_r by lia. do 2 f_equal. lia.
Qed.

Lemma binary_normalize_scaled (z k e : Z) (sz : bool) :
  z <> 0 -> Z.abs z < 2 ^ prec -> 0 <= k ->
  3 - emax - prec <= nexp prec (Z.abs z) + (e + k) <= emax - prec ->
  binary_normalize prec emax (z * 2 ^ k) e sz
  = S754_finite (z <? 0) (nmant prec (Z.abs z)) (nexp prec (Z.abs z) + (e + k)).
Proof.
  intros Hz Hlt Hk HE.
  assert (Hp : 0 < 2 ^ k) by (apply Z.pow_pos_nonneg; lia).
  unfold binary_normalize.
  destruct (z * 2 ^ k) as [| M | M] eqn:EM.
  - nia.
  - assert (0 < z) by nia.
    replace (z <? 0) with false by (symmetry; apply Z.ltb_ge; lia).
    apply binary_round_scaled; try assumption; lia.
  - assert (z < 0) by nia.
    replace (z <? 0) with true by (symmetry; apply Z.ltb_lt; lia).
    apply binary_round_scaled; try assumption; lia.
Qed.

Lemma shl_align_val (m : positive) (e ez : Z) :
  ez <= e -> Zpos (fst (shl_align m e ez)) = Zpos m * 2 ^ (e - ez).
Proof.
  intros Hle. unfold shl_align.
  destruct (ez - e) as [| d | d] eqn:Ed; simpl.
  - replace (e - ez) with 0 by lia. lia.
  - lia.
  - rewrite pos_iter_xO. do 2 f_equal. lia.
Qed.

End IntegerFloats.

(** ** Integers in [float], and their rounding by [fRound] *)

Section Float32Integers.

Lemma f32_of_int_nonzero (z : Z) :
  z <> 0 -> Z.abs z < 2 ^ 24 ->
  F32.of_int z = S754_finite (z <? 0) (nmant 24 (Z.abs z)) (nexp 24 (Z.abs z)).
Proof.
  intros Hz Hlt. unfold F32.of_int, F32.prec, F32.emax.
  replace z with (z * 2 ^ 0) at 1 by (rewrite Z.pow_0_r; lia).
  rewrite (binary_normalize_scaled 24 128) with (k := 0); try lia.
  - do 2 f_equal. lia.
  - assert (0 <= Z.log2 (Z.abs z) < 24) by (apply log2_lt_prec; lia).
    unfold nexp. lia.
Qed.

Lemma f64_of_float_int (s : bool) (n : Z) :
  0 < n < 2 ^ 24 ->
  F64.of_float (S754_finite s (nmant 24 n) (nexp 24 n))
  = S754_finite s (nmant 53 n) (nexp 53 n).
Proof.
  intros Hn.
  assert (HL : 0 <= Z.log2 n < 24) by (apply log2_lt_prec; lia).
  assert (Hn53 : 0 < n < 2 ^ 53).
  { split; [lia |]. apply Z.lt_trans with (2 ^ 24); [lia | reflexivity]. }
  unfold F64.of_float, binary_normalize, F64.prec, F64.emax.
  assert (E : binary_round 53 1024 s (nmant 24 n) (nexp 24 n)
              = S754_finite s (nmant 53 n) (nexp 53 n)).
  { rewrite (binary_round_scaled 53 1024) with (n := n) (j := 23 - Z.log2 n);
      try lia.
    - f_equal. unfold nexp. lia.
    - rewrite (nmant_val 24) by lia. do 2 f_equal.
    - unfold nexp. lia. }
  destruct s; simpl; exact E.
Qed.

Lemma f64_half : F64.half = S754_finite false 4503599627370496 (-53).
Proof. reflexivity. Qed.

(** [(int)(n + 0.5)] on an integer [n] in [double]: the sum is
    [z * 2^52 * 2^-53] with [z = 2 n + 1] or [1 - 2 n]. *)
Lemma to_int_half_odd (s : bool) (N : Z) :
  0 < N < 2 ^ 26 ->
  to_int (S754_finite s (nmant 53 N) (nexp 53 N + (-53 + 52)))
  = Some (cond_Zopp s (N / 2)).
Proof.
  intros HN.
  assert (HL : 0 <= Z.log2 N < 26).
  { split; [apply Z.log2_nonneg | apply Z.log2_lt_pow2; lia]. }
  assert (HN53 : 0 < N < 2 ^ 53).
  { split; [lia |]. apply Z.lt_trans with (2 ^ 26); [lia | reflexivity]. }
  unfold to_int. rewrite (nmant_val 53) by lia.
  unfold nexp.
  destruct (Z.leb_spec 0 (Z.log2 N + 1 - 53 + (-53 + 52))) as [Hge | Hlt]; [lia |].
  replace (- (Z.log2 N + 1 - 53 + (-53 + 52))) with (1 + (53 - 1 - Z.log2 N)) by lia.
  rewrite Z.pow_add_r by lia.
  rewrite Z.mul_comm, (Z.mul_comm (2 ^ 1)).
  rewrite Z.div_mul_cancel_l; [| apply Z.pow_nonzero; lia | apply Z.pow_nonzero; lia].
  change (2 ^ 1) with 2.
  assert (0 <= N / 2 < 2 ^ 25).
  { split; [apply Z.div_pos; lia |]. apply Z.div_lt_upper_bound; [lia |].
    change (2 * 2 ^ 25) with (2 ^ 26). lia. }
  assert (Hr : (INT_MIN <=? cond_Zopp s (N / 2)) && (cond_Zopp s (N / 2) <=? INT_MAX) = true).
  { unfold INT_MIN, INT_MAX. change (2 ^ 31) with 2147483648.
    change (2 ^ 25) with 33554432 in *.
    apply andb_true_intro. split; apply Z.leb_le; destruct s; simpl; lia. }
  now rewrite Hr.
Qed.

Lemma fRound_of_int_nonzero (z : Z) :
  z <> 0 -> Z.abs z < 2 ^ 24 ->
  fRound (F32.of_int z) = Some (if z <? 0 then z + 1 else z).
Proof.
  intros Hz Hlt. change (2 ^ 24) with 16777216 in Hlt.
  assert (Hn : 0 < Z.abs z < 2 ^ 24) by (change (2 ^ 24) with 16777216; lia).
  assert (HL : 0 <= Z.log2 (Z.abs z) < 24) by (apply log2_lt_prec; lia).
  unfold fRound. rewrite f32_of_int_nonzero, f64_of_float_int, f64_half
    by (try assumption; change (2 ^ 24) with 16777216; lia).
  set (n := Z.abs z) in *. set (s := z <? 0).
  unfold F64.add, SFadd, F64.prec, F64.emax.
  assert (Hmin : Z.min (nexp 53 n) (-53) = -53) by (unfold nexp; lia).
  rewrite Hmin.
  rewrite (shl_align_val (nmant 53 n)) by (unfold nexp; lia).
  rewrite (shl_align_val 4503599627370496) by lia.
  assert (Hn53 : 0 < n < 2 ^ 53).
  { split; [lia |]. apply Z.lt_trans with (2 ^ 24); [lia | reflexivity]. }
  rewrite (nmant_val 53) by lia.
  assert (Hsum : cond_Zopp s (n * 2 ^ (53 - 1 - Z.log2 n) * 2 ^ (nexp 53 n - -53))
                 + cond_Zopp false (4503599627370496 * 2 ^ (-53 - -53))
                 = (cond_Zopp s (2 * n) + 1) * 2 ^ 52).
  { unfold nexp. rewrite <- Z.mul_assoc, <- Z.pow_add_r by lia.
    replace (53 - 1 - Z.log2 n + (Z.log2 n + 1 - 53 - -53)) with 53 by lia.
    change (2 ^ 53) with 9007199254740992. change (2 ^ 52) with 4503599627370496.
    change (2 ^ (-53 - -53)) with 1.
    destruct s; simpl cond_Zopp; lia. }
  rewrite Hsum.
  assert (Hodd : cond_Zopp s (2 * n) + 1 <> 0) by (destruct s; simpl; lia).
  assert (Habs : Z.abs (cond_Zopp s (2 * n) + 1) = if s then 2 * n - 1 else 2 * n + 1)
    by (destruct s; simpl; lia).
  rewrite (binary_normalize_scaled 53 1024); try lia.
  - rewrite to_int_half_odd.
    + f_equal. rewrite Habs. subst s n.
      destruct (Z.ltb_spec z 0).
      * replace (cond_Zopp true (2 * Z.abs z) + 1 <? 0) with true
          by (symmetry; apply Z.ltb_lt; simpl; lia).
        simpl. replace (2 * Z.abs z - 1) with (1 + (Z.abs z - 1) * 2) by lia.
        rewrite Z.div_add by lia. change (1 / 2) with 0. clear - H. lia.
      * replace (cond_Zopp false (2 * Z.abs z) + 1 <? 0) with false
          by (symmetry; apply Z.ltb_ge; simpl; lia).
        simpl. replace (2 * Z.abs z + 1) with (1 + Z.abs z * 2) by lia.
        rewrite Z.div_add by lia. change (1 / 2) with 0. clear - H. lia.
    + rewrite Habs. change (2 ^ 26) with 67108864. change (2 ^ 24) with 16777216 in *.
      destruct s; lia.
  - rewrite Habs. apply Z.lt_trans with (2 ^ 26); [| reflexivity].
    change (2 ^ 26) with 67108864. change (2 ^ 24) with 16777216 in *.
    destruct s; lia.
  - assert (0 <= Z.log2 (Z.abs (cond_Zopp s (2 * n) + 1)) < 26).
    { split; [apply Z.log2_nonneg |]. apply Z.log2_lt_pow2; [lia |].
      rewrite Habs. change (2 ^ 26) with 67108864. change (2 ^ 24) with 16777216 in *.
      destruct s; lia. }
    unfold nexp. lia.
Qed.

Lemma fRound_of_int (z : Z) :
  - 2 ^ 24 < z < 2 ^ 24 ->
  fRound (F32.of_int z) = Some (if z <? 0 then z + 1 else z).
Proof.
  intros Hz. destruct (Z.eq_dec z 0) as [-> | Hne]; [reflexivity |].
  apply fRound_of_int_nonzero; [assumption | lia].
Qed.

End Float32Integers.

(** ** drawRect and drawBitmap *)

Section Loops.

Lemma forEach_app {S A : Type} (body : S -> A -> option S) (l1 l2 : list A) :
  forall st, forEach body (l1 ++ l2) st
             = match forEach body l1 st with
               | Some st' => forEach body l2 st'
               | None => None
               end.
Proof.
  induction l1 as [| a l1 IH]; intros st; [reflexivity |].
  simpl. destruct (body st a); [apply IH | reflexivity].
Qed.

Lemma forEach_bind {S A B : Type} (body : S -> B -> option S) (f : A -> list B)
    (l : list A) :
  forall st, forEach (fun st a => forEach body (f a) st) l st
             = forEach body (l ≫= f) st.
Proof.
  induction l as [| a l IH]; intros st; [reflexivity |].
  rewrite bind_cons, forEach_app. simpl.
  destruct (forEach body (f a) st); [apply IH | reflexivity].
Qed.

Lemma plotInt_plot (s : Surface) (x y v : Z) :
  exactInt x -> exactInt y ->
  plotInt s x y v = Some (plot s (roundInt x) (roundInt y) v).
Proof.
  intros Hx Hy. unfold plotInt, drawPoint.
  rewrite !fRound_of_int by assumption. unfold plot, roundInt.
  now destruct (drawPixel s _ _ v).
Qed.

(** A loop of calls with exact arguments plots the list of the rounded
    pixels. *)
Lemma forEach_plotInt {A : Type} (f : A -> Z * Z * Z) (l : list A) :
  (forall a, a ∈ l -> exactInt (f a).1.1 /\ exactInt (f a).1.2) ->
  forall s,
    forEach (fun s a => plotInt s (f a).1.1 (f a).1.2 (f a).2) l s
    = Some (plotAll s ((fun a => (roundInt (f a).1.1, roundInt (f a).1.2, (f a).2))
                         <$> l)).
Proof.
  induction l as [| a l IH]; intros Hex s; [reflexivity |].
  simpl. destruct (Hex a) as [Hx Hy]; [left |].
  rewrite plotInt_plot by assumption.
  rewrite IH; [reflexivity |]. intros b Hb. apply Hex. now right.
Qed.

Lemma plotAll_wf_dims (l : list (Z * Z * Z)) :
  forall s, wf_surface s ->
            wf_surface (plotAll s l) /\ width (plotAll s l) = width s /\
            height (plotAll s l) = height s.
Proof.
  induction l as [| t l IH]; intros s Hwf; [auto |].
  simpl. destruct (IH (plot s t.1.1 t.1.2 t.2)) as (H1 & H2 & H3);
    [now apply plot_wf |].
  destruct (plot_dims s t.1.1 t.1.2 t.2) as [Hw Hh].
  split; [assumption |]. split; congruence.
Qed.

Lemma readDot_plotAll (l : list (Z * Z * Z)) (qx qy : Z) :
  forall s, wf_surface s -> inRange s qx qy ->
            readDot (plotAll s l) qx qy
            = match lastValue l (qx, qy) with
              | Some v => negb (v =? 0)
              | None => readDot s qx qy
              end.
Proof.
  induction l as [| [[x y] v] l IH]; intros s Hwf Hq; [reflexivity |].
  simpl. rewrite IH.
  - destruct (lastValue l (qx, qy)); [reflexivity |].
    rewrite readDot_plot by assumption. simpl.
    case_bool_decide; reflexivity.
  - now apply plot_wf.
  - destruct (plot_dims s x y v) as [Hw Hh]. now apply (inRange_dims s).
Qed.

Lemma lastValue_all_ones (l : list (Z * Z * Z)) (q : Z * Z) :
  Forall (fun t => t.2 = 1) l ->
  lastValue l q = if bool_decide (q ∈ l.*1) then Some 1 else None.
Proof.
  induction l as [| t l IH]; intros Hall; [reflexivity |].
  apply Forall_cons in Hall. destruct Hall as [Ht Hall].
  simpl. rewrite IH by assumption.
  destruct (decide (q ∈ l.*1)) as [Hin | Hnin].
  - rewrite !bool_decide_eq_true_2; [reflexivity | now right | assumption].
  - rewrite (bool_decide_eq_false_2 (q ∈ l.*1)) by assumption.
    destruct (decide (q = t.1)) as [-> | Hne].
    + rewrite !bool_decide_eq_true_2; [now rewrite Ht | now left | reflexivity].
    + rewrite !bool_decide_eq_false_2; [reflexivity | | assumption].
      intros H. apply elem_of_cons in H. destruct H; contradiction.
Qed.

Lemma lastValue_NoDup (l : list (Z * Z * Z)) (q : Z * Z) (v : Z) :
  NoDup l.*1 -> (q, v) ∈ l -> lastValue l q = Some v.
Proof.
  induction l as [| t l IH]; intros Hnd Hin; [inversion Hin |].
  simpl in Hnd. apply NoDup_cons in Hnd. destruct Hnd as [Hnot Hnd].
  apply elem_of_cons in Hin. simpl. destruct Hin as [<- | Hin].
  - assert (E : lastValue l q = None).
    { clear - Hnot. induction l as [| u l IH]; [reflexivity |].
      simpl in *. rewrite IH by (intros H; apply Hnot; now right).
      case_bool_decide; [| reflexivity].
      exfalso. apply Hnot. subst. now left. }
    simpl. rewrite E. now rewrite bool_decide_eq_true_2.
  - now rewrite IH.
Qed.

Lemma lastValue_None (l : list (Z * Z * Z)) (q : Z * Z) :
  q ∉ l.*1 -> lastValue l q = None.
Proof.
  induction l as [| u l IH]; intros Hnot; [reflexivity |].
  simpl in *. rewrite IH by (intros H; apply Hnot; now right).
  case_bool_decide; [| reflexivity].
  exfalso. apply Hnot. subst. now left.
Qed.

End Loops.

Section Rect.

Lemma forEach_ext {S A : Type} (f g : S -> A -> option S) (l : list A) :
  (forall st a, f st a = g st a) -> forall st, forEach f l st = forEach g l st.
Proof.
  intros H. induction l as [| a l IH]; intros st; [reflexivity |].
  simpl. rewrite H. destruct (g st a); [apply IH | reflexivity].
Qed.

Lemma forEach_fmap {S A B : Type} (body : S -> B -> option S) (g : A -> B)
    (l : list A) :
  forall st, forEach (fun st a => body st (g a)) l st = forEach body (g <$> l) st.
Proof.
  induction l as [| a l IH]; intros st; [reflexivity |].
  simpl. destruct (body st (g a)); [apply IH | reflexivity].
Qed.

Lemma roundInt_nonneg (z : Z) : 0 <= z -> roundInt z = z.
Proof. intros Hz. unfold roundInt. destruct (Z.ltb_spec z 0); lia. Qed.

(** A loop of calls that set the pixels of a list, all of them with
    non-negative coordinates that [float] holds exactly. *)
Lemma forEach_set_pixels (pts : list (Z * Z)) :
  Forall (fun p => 0 <= p.1 < 2 ^ 24 /\ 0 <= p.2 < 2 ^ 24) pts ->
  forall s,
    forEach (fun s p => plotInt s p.1 p.2 1) pts s
    = Some (plotAll s ((fun p => (p, 1)) <$> pts)).
Proof.
  intros Hall s.
  rewrite (forEach_plotInt (fun p => (p, 1)) pts).
  - f_equal. f_equal. apply Forall_fmap_ext_1.
    eapply Forall_impl; [exact Hall |]. intros [px py] [Hx Hy]. simpl in *.
    now rewrite !roundInt_nonneg by lia.
  - intros p Hp. rewrite Forall_forall in Hall. specialize (Hall p Hp).
    unfold exactInt. simpl. lia.
Qed.

Lemma plotAll_ones_lit (pts : list (Z * Z)) (s : Surface) (qx qy : Z) :
  wf_surface s -> inRange s qx qy ->
  readDot (plotAll s ((fun p => (p, 1)) <$> pts)) qx qy = true
  <-> readDot s qx qy = true \/ (qx, qy) ∈ pts.
Proof.
  intros Hwf Hq. rewrite readDot_plotAll by assumption.
  rewrite lastValue_all_ones.
  2:{ apply Forall_forall. intros t Ht. apply list_elem_of_fmap in Ht.
      now destruct Ht as (p & -> & _). }
  replace ((fun p : Z * Z => (p, 1)) <$> pts).*1 with pts
    by (rewrite <- list_fmap_compose; symmetry; apply list_fmap_id).
  case_bool_decide as Hin; simpl.
  - split; [now right | reflexivity].
  - split; [now left | intros [H | H]; [assumption | contradiction]].
Qed.

Lemma elem_of_rectPixels (x y w h qx qy : Z) :
  (qx, qy) ∈ rectPixels x y w h <-> x <= qx < x + w /\ y <= qy < y + h.
Proof.
  unfold rectPixels. rewrite list_elem_of_bind. split.
  - intros (i & Hin & Hi). apply list_elem_of_fmap in Hin.
    destruct Hin as (j & [= -> ->] & Hj).
    apply elem_of_seqZ in Hi, Hj. lia.
  - intros [Hx Hy]. exists (qy - y). split.
    + apply list_elem_of_fmap. exists (qx - x). split; [f_equal; lia |].
      apply elem_of_seqZ. lia.
    + apply elem_of_seqZ. lia.
Qed.

Lemma elem_of_outlinePixels (x y w h qx qy : Z) :
  1 <= w -> 1 <= h ->
  (qx, qy) ∈ outlinePixels x y w h
  <-> (x <= qx < x + w /\ y <= qy < y + h) /\
      (qx = x \/ qx = x + w - 1 \/ qy = y \/ qy = y + h - 1).
Proof.
  intros Hw Hh. unfold outlinePixels.
  rewrite elem_of_app, !list_elem_of_bind. split.
  - intros [(i & Hin & Hi) | (i & Hin & Hi)]; apply elem_of_seqZ in Hi;
      apply elem_of_cons in Hin; destruct Hin as [[= -> ->] | Hin];
      try (apply list_elem_of_singleton in Hin; injection Hin as -> ->); lia.
  - intros [[Hx Hy] Hedge].
    destruct (decide (qy = y \/ qy = y + h - 1)) as [Hrow | Hrow].
    + left. exists (qx - x). split; [| apply elem_of_seqZ; lia].
      destruct Hrow as [-> | ->].
      * apply elem_of_cons. left. f_equal. lia.
      * apply elem_of_cons. right. apply elem_of_cons. left. f_equal. lia.
    + right. exists (qy - y). split; [| apply elem_of_seqZ; lia].
      destruct Hedge as [-> | [-> | [? | ?]]]; try lia.
      * apply elem_of_cons. left. f_equal. lia.
      * apply elem_of_cons. right. apply elem_of_cons. left. f_equal. lia.
Qed.

Lemma drawRect_filled_pixels (s : Surface) (x y w h fill : Z) :
  fill <> 0 -> 0 <= x -> 0 <= y -> x + w < 2 ^ 24 -> y + h < 2 ^ 24 ->
  drawRect s x y w h fill
  = Some (plotAll s ((fun p => (p, 1)) <$> rectPixels x y w h)).
Proof.
  intros Hfill Hx Hy Hw Hh. unfold drawRect.
  destruct (Z.eqb_spec fill 0) as [? | _]; [contradiction |].
  rewrite <- forEach_set_pixels.
  - unfold rectPixels. rewrite <- forEach_bind.
    apply forEach_ext. intros st i.
    apply (forEach_fmap (fun s p => plotInt s p.1 p.2 1)
                        (fun j => (x + j, y + i))).
  - apply Forall_forall. intros [px py] Hp.
    apply elem_of_rectPixels in Hp. simpl. lia.
Qed.

Lemma drawRect_outline_pixels (s : Surface) (x y w h : Z) :
  1 <= w -> 1 <= h ->
  0 <= x -> 0 <= y -> x + w < 2 ^ 24 -> y + h < 2 ^ 24 ->
  drawRect s x y w h 0
  = Some (plotAll s ((fun p => (p, 1)) <$> outlinePixels x y w h)).
Proof.
  intros Hw1 Hh1 Hx Hy Hw Hh. unfold drawRect. simpl.
  assert (Hall : Forall (fun p => 0 <= p.1 < 2 ^ 24 /\ 0 <= p.2 < 2 ^ 24)
                        (outlinePixels x y w h)).
  { apply Forall_forall. intros [px py] Hp.
    apply elem_of_outlinePixels in Hp; [simpl; lia | lia | lia]. }
  unfold outlinePixels in *. apply Forall_app in Hall. destruct Hall as [H1 H2].
  rewrite (forEach_ext _ (fun st a =>
             forEach (fun s p => plotInt s p.1 p.2 1)
                     [(x + a, y); (x + a, y + h - 1)] st)).
  2:{ intros st a. simpl. destruct (plotInt st (x + a) y 1); [| reflexivity].
      now destruct (plotInt _ (x + a) (y + h - 1) 1). }
  rewrite forEach_bind, (forEach_set_pixels _ H1).
  rewrite (forEach_ext _ (fun st a =>
             forEach (fun s p => plotInt s p.1 p.2 1)
                     [(x, y + a); (x + w - 1, y + a)] st)).
  2:{ intros st a. simpl. destruct (plotInt st x (y + a) 1); [| reflexivity].
      now destruct (plotInt _ (x + w - 1) (y + a) 1). }
  rewrite forEach_bind, (forEach_set_pixels _ H2).
  f_equal. unfold plotAll. now rewrite fmap_app, foldl_app.
Qed.

(** X10: a filled rectangle with its origin on or right of and above the
    origin of the surface is clipped to the surface: the call returns, the
    surface keeps its dimensions, and a pixel of the surface is lit
    afterwards exactly when it was lit or lies in the rectangle. *)
Theorem drawRect_filled (s : Surface) (x y w h fill qx qy : Z) :
  wf_surface s -> fill <> 0 ->
  0 <= x -> 0 <= y -> x + w < 2 ^ 24 -> y + h < 2 ^ 24 ->
  exists s',
    drawRect s x y w h fill = Some s' /\
    wf_surface s' /\ width s' = width s /\ height s' = height s /\
    (inRange s qx qy ->
     (readDot s' qx qy = true
      <-> readDot s qx qy = true \/ (x <= qx < x + w /\ y <= qy < y + h))).
Proof.
  intros Hwf Hfill Hx Hy Hw Hh.
  eexists. split; [now apply drawRect_filled_pixels |].
  destruct (plotAll_wf_dims ((fun p => (p, 1)) <$> rectPixels x y w h) s Hwf)
    as (H1 & H2 & H3).
  split; [assumption |]. split; [assumption |]. split; [assumption |].
  intros Hq. rewrite plotAll_ones_lit by assumption.
  now rewrite elem_of_rectPixels.
Qed.

(** X11: the outline of a rectangle of at least one pixel in each
    direction lights the pixels of its border and no others: the two
    rows [y] and [y + h - 1] and the two columns [x] and [x + w - 1]. *)
Theorem drawRect_outline (s : Surface) (x y w h qx qy : Z) :
  wf_surface s -> 1 <= w -> 1 <= h ->
  0 <= x -> 0 <= y -> x + w < 2 ^ 24 -> y + h < 2 ^ 24 ->
  exists s',
    drawRect s x y w h 0 = Some s' /\
    wf_surface s' /\ width s' = width s /\ height s' = height s /\
    (inRange s qx qy ->
     (readDot s' qx qy = true
      <-> readDot s qx qy = true
          \/ ((x <= qx < x + w /\ y <= qy < y + h) /\
              (qx = x \/ qx = x + w - 1 \/ qy = y \/ qy = y + h - 1)))).
Proof.
  intros Hwf Hw1 Hh1 Hx Hy Hw Hh.
  eexists. split; [now apply drawRect_outline_pixels |].
  destruct (plotAll_wf_dims ((fun p => (p, 1)) <$> outlinePixels x y w h) s Hwf)
    as (H1 & H2 & H3).
  split; [assumption |]. split; [assumption |]. split; [assumption |].
  intros Hq. rewrite plotAll_ones_lit by assumption.
  now rewrite elem_of_outlinePixels.
Qed.

End Rect.

Section Blit.

Variables (bitmap : Surface) (x y : Z).

Hypothesis Hx : 0 <= x.
Hypothesis Hy : 0 <= y.
Hypothesis Hw : x + width bitmap < 2 ^ 24.
Hypothesis Hh : y + height bitmap < 2 ^ 24.

Lemma blit_row (i : Z) (n : nat) :
  0 <= i < height bitmap ->
  forall (a p : Z) (s : Surface),
    0 <= a -> a + Z.of_nat n <= width bitmap ->
    forEach (blitBody bitmap x y i) (seqZ a (Z.of_nat n)) (s, p)
    = Some (plotAll s (blitRow bitmap x y i p a n), p + Z.of_nat n).
Proof.
  intros Hi. induction n as [| n IH]; intros a p s Ha Han.
  - simpl. f_equal. f_equal. lia.
  - unfold blitRow. rewrite (seqZ_cons a (Z.of_nat (S n))) by lia.
    replace (Z.pred (Z.of_nat (S n))) with (Z.of_nat n) by lia.
    cbn [forEach blitBody fmap list_fmap].
    rewrite plotInt_plot by (unfold exactInt; lia).
    rewrite !roundInt_nonneg by lia.
    rewrite IH by lia. f_equal. f_equal; [| lia].
    unfold plotAll, blitRow. cbn [foldl]. simpl fst. simpl snd.
    replace (p + (a - a)) with p by lia. f_equal.
    apply list_fmap_ext. intros k j _. do 2 f_equal. lia.
Qed.

Lemma blit_rows (m : nat) :
  forall (b p : Z) (s : Surface),
    0 <= b -> b + Z.of_nat m <= height bitmap -> 0 <= width bitmap ->
    forEach (fun st i => forEach (blitBody bitmap x y i) (seqZ 0 (width bitmap)) st)
            (seqZ b (Z.of_nat m)) (s, p)
    = Some (plotAll s (i ← seqZ b (Z.of_nat m);
                       blitRow bitmap x y i (p + (i - b) * width bitmap) 0
                               (Z.to_nat (width bitmap))),
            p + Z.of_nat m * width bitmap).
Proof.
  induction m as [| m IH]; intros b p s Hb Hbm Hw0.
  - simpl. f_equal. f_equal. lia.
  - rewrite (seqZ_cons b (Z.of_nat (S m))) by lia.
    replace (Z.pred (Z.of_nat (S m))) with (Z.of_nat m) by lia.
    cbn [forEach]. rewrite bind_cons.
    replace (seqZ 0 (width bitmap))
      with (seqZ 0 (Z.of_nat (Z.to_nat (width bitmap)))) by (f_equal; lia).
    rewrite blit_row by lia.
    replace (seqZ 0 (Z.of_nat (Z.to_nat (width bitmap))))
      with (seqZ 0 (width bitmap)) by (f_equal; lia).
    rewrite IH by lia. f_equal. f_equal; [| lia].
    unfold plotAll. rewrite foldl_app. f_equal.
    + f_equal. replace (p + (b - b) * width bitmap) with p by lia. reflexivity.
    + apply list_bind_ext; [| reflexivity]. intros i. f_equal. lia.
Qed.

Lemma drawBitmap_pixels (s : Surface) :
  drawBitmap s bitmap x y = Some (plotAll s (blitPixels bitmap x y)).
Proof.
  unfold drawBitmap.
  destruct (Z_lt_le_dec (height bitmap) 0) as [Hneg | Hpos].
  { unfold blitPixels. replace (seqZ 0 (height bitmap)) with (@nil Z); [reflexivity |].
    unfold seqZ. now rewrite Z2Nat.nonpos by lia. }
  destruct (Z_lt_le_dec (width bitmap) 0) as [Hwneg | Hwpos].
  { unfold blitPixels. replace (seqZ 0 (width bitmap)) with (@nil Z)
      by (unfold seqZ; now rewrite Z2Nat.nonpos by lia).
    assert (E : forall l st, forEach (fun (st : Surface * Z) (i : Z) =>
                                        forEach (blitBody bitmap x y i) [] st) l st = Some st)
      by (induction l; intros; simpl; auto).
    rewrite E. f_equal.
    induction (seqZ 0 (height bitmap)) as [| a l IH]; [reflexivity |].
    rewrite bind_cons. simpl. exact IH. }
  replace (seqZ 0 (height bitmap))
    with (seqZ 0 (Z.of_nat (Z.to_nat (height bitmap)))) by (f_equal; lia).
  rewrite blit_rows by lia. f_equal. f_equal.
  unfold blitPixels.
  replace (seqZ 0 (Z.of_nat (Z.to_nat (height bitmap))))
    with (seqZ 0 (height bitmap)) by (f_equal; lia).
  apply list_bind_ext; [| reflexivity]. intros i. unfold blitRow.
  rewrite Z2Nat.id by lia.
  apply list_fmap_ext. intros k j _. do 2 f_equal. lia.
Qed.

Lemma elem_of_blitPixels (t : Z * Z * Z) :
  t ∈ (blitPixels bitmap x y) <->
  exists i j, 0 <= i < height bitmap /\ 0 <= j < width bitmap /\
              t = (x + j, y + i, byteAt (data bitmap) (i * width bitmap + j)).
Proof.
  unfold blitPixels. rewrite list_elem_of_bind. split.
  - intros (i & Hin & Hi). apply list_elem_of_fmap in Hin.
    destruct Hin as (j & -> & Hj). apply elem_of_seqZ in Hi, Hj.
    exists i, j. repeat split; lia.
  - intros (i & j & Hi & Hj & ->). exists i. split; [| apply elem_of_seqZ; lia].
    apply list_elem_of_fmap. exists j. split; [reflexivity | apply elem_of_seqZ; lia].
Qed.

Lemma fmap_of_bind {A B C : Type} (f : B -> C) (g : A -> list B) (l : list A) :
  f <$> (l ≫= g) = l ≫= fun a => f <$> g a.
Proof.
  induction l as [| a l IH]; [reflexivity |].
  now rewrite !bind_cons, fmap_app, IH.
Qed.

Lemma NoDup_blitPixels : NoDup (blitPixels bitmap x y).*1.
Proof.
  unfold blitPixels. rewrite fmap_of_bind.
  apply NoDup_bind.
  - intros i1 i2 q _ _ H1 H2.
    rewrite <- list_fmap_compose in H1, H2.
    apply list_elem_of_fmap in H1, H2.
    destruct H1 as (j1 & -> & _), H2 as (j2 & E & _).
    apply (f_equal snd) in E. simpl in E. lia.
  - intros i _. rewrite <- list_fmap_compose.
    apply NoDup_fmap_2_strong; [| apply NoDup_seqZ].
    intros j1 j2 _ _ E. apply (f_equal fst) in E. simpl in E. lia.
  - apply NoDup_seqZ.
Qed.

End Blit.

Lemma drawBitmap_dots (s bitmap : Surface) (x y qx qy : Z) :
  wf_surface s ->
  Z.of_nat (length (data bitmap)) = width bitmap * height bitmap ->
  0 <= x -> 0 <= y ->
  x + width bitmap < 2 ^ 24 -> y + height bitmap < 2 ^ 24 ->
  exists s',
    drawBitmap s bitmap x y = Some s' /\
    wf_surface s' /\ width s' = width s /\ height s' = height s /\
    (inRange s qx qy ->
     readDot s' qx qy
     = if (x <=? qx) && (qx <? x + width bitmap)
          && (y <=? qy) && (qy <? y + height bitmap)
       then negb (byteAt (data bitmap) ((qy - y) * width bitmap + (qx - x)) =? 0)
       else readDot s qx qy).
Proof.
  intros Hwf _ Hx Hy Hw Hh.
  eexists. split; [now apply drawBitmap_pixels |].
  destruct (plotAll_wf_dims (blitPixels bitmap x y) s Hwf) as (H1 & H2 & H3).
  split; [assumption |]. split; [assumption |]. split; [assumption |].
  intros Hq. rewrite readDot_plotAll by assumption.
  destruct ((x <=? qx) && (qx <? x + width bitmap)
            && (y <=? qy) && (qy <? y + height bitmap)) eqn:Hin.
  - rewrite !andb_true_iff, !Z.leb_le, !Z.ltb_lt in Hin.
    rewrite (lastValue_NoDup _ _
               (byteAt (data bitmap) ((qy - y) * width bitmap + (qx - x)))).
    + reflexivity.
    + apply NoDup_blitPixels.
    + apply elem_of_blitPixels. exists (qy - y), (qx - x).
      repeat split; try lia. do 2 f_equal; lia.
  - rewrite lastValue_None; [reflexivity |].
    intros Hel. apply list_elem_of_fmap in Hel.
    destruct Hel as (t & Ht & Hel). apply elem_of_blitPixels in Hel.
    destruct Hel as (i & j & Hi & Hj & ->). simpl in Ht. injection Ht as -> ->.
    rewrite !andb_false_iff, !Z.leb_gt, !Z.ltb_ge in Hin. lia.
Qed.

(** ** Arithmetic of [float] on small integers *)

Section Float32Arith.

Lemma small_log2 (n : Z) : 0 < n -> n < 2 ^ 24 -> 0 <= Z.log2 n < 24.
Proof. intros. apply log2_lt_prec; lia. Qed.

Lemma f32_of_int_0 : F32.of_int 0 = S754_zero false.
Proof. reflexivity. Qed.

Lemma cond_Zopp_abs (z : Z) : cond_Zopp (z <? 0) (Z.abs z) = z.
Proof. destruct (Z.ltb_spec z 0); simpl; lia. Qed.

(** The mantissa of [fi z], moved to the exponent [ez]. *)
Lemma aligned_int (n ez : Z) :
  0 < n < 2 ^ 24 -> ez <= nexp 24 n ->
  Zpos (fst (shl_align (nmant 24 n) (nexp 24 n) ez)) = n * 2 ^ (- ez).
Proof.
  intros Hn Hez. pose proof (small_log2 n) as HL.
  rewrite shl_align_val by assumption. rewrite (nmant_val 24) by lia.
  unfold nexp in *. rewrite <- Z.mul_assoc, <- Z.pow_add_r by lia.
  do 2 f_equal. lia.
Qed.

Lemma f32_sum_normalize (z ez : Z) :
  small z -> -23 <= ez <= 0 ->
  binary_normalize 24 128 (z * 2 ^ (- ez)) ez false = F32.of_int z.
Proof.
  intros Hz Hez. unfold small in Hz.
  destruct (Z.eq_dec z 0) as [-> | Hne]; [reflexivity |].
  rewrite f32_of_int_nonzero by assumption.
  rewrite (binary_normalize_scaled 24 128); try lia.
  - do 2 f_equal. lia.
  - assert (0 <= Z.log2 (Z.abs z) < 24) by (apply small_log2; lia).
    unfold nexp. lia.
Qed.

Lemma nexp_bounds (n : Z) : 0 < n < 2 ^ 24 -> -23 <= nexp 24 n <= 0.
Proof. intros Hn. pose proof (small_log2 n). unfold nexp. lia. Qed.

(** Sums and differences of small integers are exact. *)
Lemma f32_add_int (a b : Z) :
  small a -> small b -> small (a + b) ->
  F32.add (F32.of_int a) (F32.of_int b) = F32.of_int (a + b).
Proof.
  intros Ha Hb Hab. unfold small in *.
  destruct (Z.eq_dec a 0) as [-> | Hane].
  { rewrite f32_of_int_0, Z.add_0_l.
    destruct (Z.eq_dec b 0) as [-> | Hbne]; [reflexivity |].
    now rewrite f32_of_int_nonzero by assumption. }
  destruct (Z.eq_dec b 0) as [-> | Hbne].
  { rewrite f32_of_int_0, Z.add_0_r.
    now rewrite f32_of_int_nonzero by assumption. }
  rewrite (f32_of_int_nonzero a), (f32_of_int_nonzero b) by assumption.
  unfold F32.add, SFadd, F32.prec, F32.emax.
  pose proof (nexp_bounds (Z.abs a) ltac:(lia)) as Hea.
  pose proof (nexp_bounds (Z.abs b) ltac:(lia)) as Heb.
  set (ez := Z.min (nexp 24 (Z.abs a)) (nexp 24 (Z.abs b))) in *.
  rewrite !aligned_int by (try lia; subst ez; lia).
  replace (cond_Zopp (a <? 0) (Z.abs a * 2 ^ (- ez))
           + cond_Zopp (b <? 0) (Z.abs b * 2 ^ (- ez)))
    with ((a + b) * 2 ^ (- ez)).
  - apply f32_sum_normalize; [assumption | subst ez; lia].
  - rewrite <- (cond_Zopp_abs a) at 1. rewrite <- (cond_Zopp_abs b) at 1.
    destruct (a <? 0), (b <? 0); simpl; ring.
Qed.

Lemma f32_sub_int (a b : Z) :
  small a -> small b -> small (a - b) ->
  F32.sub (F32.of_int a) (F32.of_int b) = F32.of_int (a - b).
Proof.
  intros Ha Hb Hab. unfold small in *.
  destruct (Z.eq_dec b 0) as [-> | Hbne].
  { rewrite f32_of_int_0, Z.sub_0_r.
    destruct (Z.eq_dec a 0) as [-> | Hane]; [reflexivity |].
    now rewrite f32_of_int_nonzero by assumption. }
  destruct (Z.eq_dec a 0) as [-> | Hane].
  { rewrite f32_of_int_0, Z.sub_0_l.
    rewrite (f32_of_int_nonzero b), (f32_of_int_nonzero (- b)) by lia.
    simpl. rewrite Z.abs_opp. f_equal.
    destruct (Z.ltb_spec b 0), (Z.ltb_spec (- b) 0); simpl; lia. }
  rewrite (f32_of_int_nonzero a), (f32_of_int_nonzero b) by assumption.
  unfold F32.sub, SFsub, F32.prec, F32.emax.
  pose proof (nexp_bounds (Z.abs a) ltac:(lia)) as Hea.
  pose proof (nexp_bounds (Z.abs b) ltac:(lia)) as Heb.
  set (ez := Z.min (nexp 24 (Z.abs a)) (nexp 24 (Z.abs b))) in *.
  rewrite !aligned_int by (try lia; subst ez; lia).
  replace (cond_Zopp (a <? 0) (Z.abs a * 2 ^ (- ez))
           - cond_Zopp (b <? 0) (Z.abs b * 2 ^ (- ez)))
    with ((a - b) * 2 ^ (- ez)).
  - apply f32_sum_normalize; [assumption | subst ez; lia].
  - rewrite <- (cond_Zopp_abs a) at 1. rewrite <- (cond_Zopp_abs b) at 1.
    destruct (a <? 0), (b <? 0); simpl; ring.
Qed.

(** The comparison of two positive integers in normal form. *)
Lemma compare_normal_int (a b : Z) :
  0 < a < 2 ^ 24 -> 0 < b < 2 ^ 24 ->
  match nexp 24 a ?= nexp 24 b with
  | Eq => Pos.compare_cont Eq (nmant 24 a) (nmant 24 b)
  | Lt => Lt
  | Gt => Gt
  end = (a ?= b).
Proof.
  intros Ha Hb. pose proof (small_log2 a) as HLa. pose proof (small_log2 b) as HLb.
  unfold nexp. symmetry.
  destruct (Z.compare_spec (Z.log2 a + 1 - 24) (Z.log2 b + 1 - 24)) as [E | L | G].
  - change (Pos.compare_cont Eq (nmant 24 a) (nmant 24 b))
      with (Zpos (nmant 24 a) ?= Zpos (nmant 24 b)).
    rewrite !(nmant_val 24) by lia.
    replace (Z.log2 b) with (Z.log2 a) by lia.
    assert (Hk : 0 < 2 ^ (24 - 1 - Z.log2 a)) by (apply Z.pow_pos_nonneg; lia).
    set (k := 2 ^ (24 - 1 - Z.log2 a)) in *.
    destruct (Z.compare_spec a b) as [-> | ? | ?].
    + symmetry. apply Z.compare_refl.
    + symmetry. apply Z.compare_lt_iff. nia.
    + symmetry. apply Z.compare_gt_iff. nia.
  - apply Z.compare_lt_iff. apply Z.log2_lt_cancel. lia.
  - apply Z.compare_gt_iff. apply Z.log2_lt_cancel. lia.
Qed.

Lemma f32_compare_int (a b : Z) :
  small a -> small b ->
  SFcompare (F32.of_int a) (F32.of_int b) = Some (a ?= b).
Proof.
  intros Ha Hb. unfold small in *.
  destruct (Z.eq_dec a 0) as [-> | Hane]; destruct (Z.eq_dec b 0) as [-> | Hbne];
    try reflexivity.
  - rewrite f32_of_int_0, f32_of_int_nonzero by assumption.
    destruct b; [contradiction | reflexivity | reflexivity].
  - rewrite f32_of_int_0, f32_of_int_nonzero by assumption.
    destruct a; [contradiction | reflexivity | reflexivity].
  - rewrite (f32_of_int_nonzero a), (f32_of_int_nonzero b) by assumption.
    unfold SFcompare. f_equal.
    destruct (Z.ltb_spec a 0), (Z.ltb_spec b 0).
    + pose proof (compare_normal_int (Z.abs a) (Z.abs b) ltac:(lia) ltac:(lia)) as C.
      replace (a ?= b) with (CompOpp (Z.abs a ?= Z.abs b)).
      * rewrite <- C. now destruct (nexp 24 (Z.abs a) ?= nexp 24 (Z.abs b)).
      * rewrite !Z.abs_neq by lia. rewrite Z.compare_opp.
        symmetry. apply Z.compare_antisym.
    + symmetry. apply Z.compare_lt_iff. lia.
    + symmetry. apply Z.compare_gt_iff. lia.
    + rewrite compare_normal_int by lia. now rewrite !Z.abs_eq by lia.
Qed.

Lemma f32_ltb_int (a b : Z) :
  small a -> small b -> F32.ltb (F32.of_int a) (F32.of_int b) = (a <? b).
Proof.
  intros Ha Hb. unfold F32.ltb, SFltb. rewrite f32_compare_int by assumption.
  unfold Z.ltb. now destruct (a ?= b).
Qed.

Lemma f32_eqb_int (a b : Z) :
  small a -> small b -> F32.eqb (F32.of_int a) (F32.of_int b) = (a =? b).
Proof.
  intros Ha Hb. unfold F32.eqb, SFeqb. rewrite f32_compare_int by assumption.
  rewrite Z.eqb_compare. now destruct (a ?= b).
Qed.

End Float32Arith.

(** ** Lines along an axis *)

Section AxisWalk.

Variables (inf : bool) (slope yint x2 y2 : spec_float).
Variables (X Y : Z -> spec_float) (px py : Z -> Z) (t lo hi : Z).

Hypothesis Hcond : forall a, lo <= a <= hi ->
  lineCond (X a) (Y a) x2 y2 = (1 <? Z.abs (a - t)).
Hypothesis Hstep : forall a, lo <= a <= hi -> 1 < Z.abs (a - t) ->
  lineStep inf slope yint x2 y2 (X a) (Y a)
  = (X (a + stepDir a t), Y (a + stepDir a t)).
Hypothesis Hround : forall a, lo <= a <= hi ->
  fRound (X a) = Some (px a) /\ fRound (Y a) = Some (py a).
Hypothesis Ht : lo <= t <= hi.

Lemma walk_loop (n : nat) :
  forall (a : Z) (s : Surface) (fuel : nat),
    lo <= a <= hi -> Z.of_nat n = Z.max 0 (Z.abs (a - t) - 1) ->
    (n <= fuel)%nat ->
    lineLoop fuel inf slope yint x2 y2 s (X a) (Y a)
    = Done (plotAll s ((fun b => (px b, py b, 1)) <$> walkFrom a t n)).
Proof.
  induction n as [| n IH]; intros a s fuel Ha Hn Hfuel.
  - rewrite lineLoop_unfold, Hcond by assumption.
    destruct (Z.ltb_spec 1 (Z.abs (a - t))); [lia |]. reflexivity.
  - rewrite lineLoop_unfold, Hcond by assumption.
    destruct (Z.ltb_spec 1 (Z.abs (a - t))); [| lia].
    destruct fuel as [| fuel]; [lia |].
    rewrite Hstep by assumption. simpl fst. simpl snd.
    assert (Ha' : lo <= a + stepDir a t <= hi)
      by (unfold stepDir; destruct (Z.ltb_spec a t); lia).
    destruct (Hround _ Ha') as [Hx Hy].
    unfold drawPoint. rewrite Hx, Hy.
    destruct (drawPixel s (px (a + stepDir a t)) (py (a + stepDir a t)) 1)
      as [r s1] eqn:Ed.
    assert (Es : s1 = plot s (px (a + stepDir a t)) (py (a + stepDir a t)) 1)
      by (unfold plot; now rewrite Ed).
    rewrite (IH (a + stepDir a t) s1 fuel Ha').
    + f_equal. unfold walkFrom.
      rewrite (seqZ_cons 1 (Z.of_nat (S n))) by lia.
      replace (Z.pred (Z.of_nat (S n))) with (Z.of_nat n) by lia.
      cbn [fmap list_fmap plotAll foldl]. simpl fst. simpl snd.
      rewrite Z.mul_1_l, <- Es. unfold plotAll. f_equal.
      rewrite <- !list_fmap_compose.
      assert (Hdir : stepDir (a + stepDir a t) t = stepDir a t)
        by (unfold stepDir; destruct (Z.ltb_spec a t);
            destruct (Z.ltb_spec (a + 1) t); destruct (Z.ltb_spec (a + -1) t); lia).
      rewrite Hdir.
      change (Z.succ 1) with (1 + 1).
      rewrite <- (fmap_add_seqZ 1 1 (Z.of_nat n)).
      rewrite <- list_fmap_compose.
      apply list_fmap_ext. intros i k _. simpl. replace (a + stepDir a t + k * stepDir a t) with (a + (1 + k) * stepDir a t) by lia. reflexivity.
    + unfold stepDir. destruct (Z.ltb_spec a t); lia.
    + lia.
Qed.

End AxisWalk.

Section AxisLines.

Lemma small_range (z : Z) : 0 <= z < 2 ^ 24 -> small z.
Proof. unfold small. lia. Qed.

Lemma fAbs_int (a b : Z) :
  small a -> small b -> small (a - b) ->
  fAbs (fi a) (fi b) = fi (Z.abs (a - b)).
Proof.
  intros Ha Hb Hab. unfold fAbs, fi. rewrite f32_ltb_int by assumption.
  destruct (Z.ltb_spec b a).
  - rewrite f32_sub_int by assumption. f_equal. lia.
  - rewrite f32_sub_int; [f_equal; lia | assumption | assumption |].
    unfold small in *. lia.
Qed.

Lemma lineCond_int (xa ya xb yb : Z) :
  small xa -> small ya -> small xb -> small yb ->
  small (xa - xb) -> small (ya - yb) ->
  lineCond (fi xa) (fi ya) (fi xb) (fi yb)
  = (1 <? Z.abs (xa - xb)) || (1 <? Z.abs (ya - yb)).
Proof.
  intros. unfold lineCond. rewrite !fAbs_int by assumption.
  unfold f_one, fi. rewrite !f32_ltb_int; try reflexivity;
    unfold small in *; lia.
Qed.

Lemma stepToward_int (a t : Z) :
  small a -> small t -> small (a + stepDir a t) ->
  stepToward (fi a) (fi t) = fi (a + stepDir a t).
Proof.
  intros Ha Ht Hs. unfold stepToward, fi, stepDir in *.
  rewrite f32_ltb_int by assumption.
  destruct (a <? t); unfold f_one, f_minus_one;
    (rewrite f32_add_int; [reflexivity | assumption | unfold small; simpl; lia | assumption]).
Qed.

Lemma mul_int_zero (a : Z) (sg : bool) :
  small a -> exists sg', F32.mul (fi a) (S754_zero sg) = S754_zero sg'.
Proof.
  intros Ha. unfold fi. destruct (Z.eq_dec a 0) as [-> | Hne].
  - rewrite f32_of_int_0. eexists. reflexivity.
  - rewrite f32_of_int_nonzero by assumption. eexists. reflexivity.
Qed.

Lemma mul_zero_int (a : Z) (sg : bool) :
  small a -> exists sg', F32.mul (S754_zero sg) (fi a) = S754_zero sg'.
Proof.
  intros Ha. unfold fi. destruct (Z.eq_dec a 0) as [-> | Hne].
  - rewrite f32_of_int_0. eexists. reflexivity.
  - rewrite f32_of_int_nonzero by assumption. eexists. reflexivity.
Qed.

Lemma add_zero_int (y : Z) (sg : bool) :
  small y -> F32.add (S754_zero sg) (fi y) = fi y.
Proof.
  intros Hy. unfold fi. destruct (Z.eq_dec y 0) as [-> | Hne].
  - rewrite f32_of_int_0. now destruct sg.
  - rewrite f32_of_int_nonzero by assumption. reflexivity.
Qed.

Lemma sub_int_zero (y : Z) (sg : bool) :
  small y -> F32.sub (fi y) (S754_zero sg) = fi y.
Proof.
  intros Hy. unfold fi. destruct (Z.eq_dec y 0) as [-> | Hne].
  - rewrite f32_of_int_0. now destruct sg.
  - rewrite f32_of_int_nonzero by assumption. reflexivity.
Qed.

(** The slope of a horizontal line is a zero. *)
Lemma lineSlope_horizontal (x1 x2 y : Z) :
  small x1 -> small x2 -> small y -> small (x2 - x1) -> x1 <> x2 ->
  lineInf (fi x1) (fi x2) = false /\
  (exists sg, lineSlope (fi x1) (fi y) (fi x2) (fi y) = S754_zero sg) /\
  lineYint (fi x1) (fi y) (fi x2) (fi y) = fi y.
Proof.
  intros H1 H2 Hy H21 Hne.
  assert (Hinf : lineInf (fi x1) (fi x2) = false).
  { unfold lineInf, fi. rewrite f32_eqb_int by assumption.
    now apply Z.eqb_neq. }
  assert (Hs : exists sg, lineSlope (fi x1) (fi y) (fi x2) (fi y) = S754_zero sg).
  { unfold lineSlope. rewrite Hinf. unfold fi.
    rewrite !f32_sub_int; try assumption.
    - rewrite Z.sub_diag, f32_of_int_0.
      rewrite (f32_of_int_nonzero (x2 - x1)) by (unfold small in *; lia).
      eexists. reflexivity.
    - rewrite Z.sub_diag. unfold small. simpl. lia. }
  split; [assumption |]. split; [assumption |].
  unfold lineYint. rewrite Hinf. destruct Hs as [sg ->].
  destruct (mul_zero_int x1 sg H1) as [sg' ->].
  now apply sub_int_zero.
Qed.

Lemma elem_of_walkFrom (a t b : Z) (n : nat) :
  Z.of_nat n = Z.max 0 (Z.abs (a - t) - 1) ->
  b ∈ walkFrom a t n <-> (a < b < t \/ t < b < a).
Proof.
  intros Hn. unfold walkFrom. rewrite list_elem_of_fmap. split.
  - intros (k & -> & Hk). apply elem_of_seqZ in Hk.
    unfold stepDir. destruct (Z.ltb_spec a t); lia.
  - intros Hb. unfold stepDir. destruct (Z.ltb_spec a t).
    + exists (b - a). split; [lia |]. apply elem_of_seqZ. lia.
    + exists (a - b). split; [lia |]. apply elem_of_seqZ. lia.
Qed.

Lemma drawPoint_int (s : Surface) (x y v : Z) :
  0 <= x < 2 ^ 24 -> 0 <= y < 2 ^ 24 ->
  exists r, drawPoint s (fi x) (fi y) v = Some (r, plot s x y v).
Proof.
  intros Hx Hy. unfold drawPoint, fi.
  rewrite !fRound_of_int by lia.
  destruct (Z.ltb_spec x 0); [lia |]. destruct (Z.ltb_spec y 0); [lia |].
  destruct (drawPixel s x y v) as [r s'] eqn:E. exists r.
  unfold plot. now rewrite E.
Qed.

Lemma drawLine_vertical_pixels (s : Surface) (x y1 y2 : Z) (fuel : nat) :
  0 <= x < 2 ^ 24 -> 0 <= y1 < 2 ^ 24 -> 0 <= y2 < 2 ^ 24 ->
  Z.abs (y2 - y1) <= Z.of_nat fuel ->
  drawLine fuel s (fi x) (fi y1) (fi x) (fi y2)
  = Done (plotAll s ((fun p => (p, 1)) <$>
            ((x, y1) :: ((fun b => (x, b)) <$>
               walkFrom y1 y2 (Z.to_nat (Z.abs (y1 - y2) - 1)))))).
Proof.
  intros Hx H1 H2 Hfuel. unfold drawLine.
  destruct (drawPoint_int s x y1 1 Hx H1) as [r ->].
  assert (Hinf : lineInf (fi x) (fi x) = true).
  { unfold lineInf, fi. rewrite f32_eqb_int by now apply small_range.
    apply Z.eqb_refl. }
  rewrite Hinf.
  assert (Hcond : forall a, 0 <= a <= 2 ^ 24 - 1 ->
            lineCond (fi x) (fi a) (fi x) (fi y2) = (1 <? Z.abs (a - y2))).
  { intros a Ha. rewrite lineCond_int; unfold small; lia. }
  assert (Hstep : forall a, 0 <= a <= 2 ^ 24 - 1 -> 1 < Z.abs (a - y2) ->
            lineStep true (lineSlope (fi x) (fi y1) (fi x) (fi y2))
                     (lineYint (fi x) (fi y1) (fi x) (fi y2)) (fi x) (fi y2)
                     (fi x) (fi a)
            = (fi x, fi (a + stepDir a y2))).
  { intros a Ha Hgt. unfold lineStep, lineBranch.
    rewrite stepToward_int; [reflexivity | | |]; unfold small, stepDir; try lia.
    destruct (Z.ltb_spec a y2); lia. }
  assert (Hround : forall a, 0 <= a <= 2 ^ 24 - 1 ->
            fRound (fi x) = Some x /\ fRound (fi a) = Some a).
  { intros a Ha. unfold fi. rewrite !fRound_of_int by lia.
    destruct (Z.ltb_spec x 0); [lia |]. destruct (Z.ltb_spec a 0); [lia |].
    now split. }
  rewrite (walk_loop true _ _ (fi x) (fi y2) (fun _ => fi x) fi (fun _ => x)
             (fun b => b) y2 0 (2 ^ 24 - 1) Hcond Hstep Hround ltac:(lia)
             (Z.to_nat (Z.abs (y1 - y2) - 1)) y1); try lia.
  cbn [fmap list_fmap plotAll foldl]. simpl fst. simpl snd.
  do 2 f_equal. rewrite <- !list_fmap_compose. reflexivity.
Qed.

Lemma drawLine_horizontal_pixels (s : Surface) (x1 x2 y : Z) (fuel : nat) :
  0 <= x1 < 2 ^ 24 -> 0 <= x2 < 2 ^ 24 -> 0 <= y < 2 ^ 24 -> x1 <> x2 ->
  Z.abs (x2 - x1) <= Z.of_nat fuel ->
  drawLine fuel s (fi x1) (fi y) (fi x2) (fi y)
  = Done (plotAll s ((fun p => (p, 1)) <$>
            ((x1, y) :: ((fun a => (a, y)) <$>
               walkFrom x1 x2 (Z.to_nat (Z.abs (x1 - x2) - 1)))))).
Proof.
  intros H1 H2 Hy Hne Hfuel. unfold drawLine.
  destruct (drawPoint_int s x1 y 1 H1 Hy) as [r ->].
  destruct (lineSlope_horizontal x1 x2 y) as (Hinf & [sg Hs] & Hyint);
    try (unfold small; lia).
  rewrite Hinf, Hs, Hyint.
  assert (Hcond : forall a, 0 <= a <= 2 ^ 24 - 1 ->
            lineCond (fi a) (fi y) (fi x2) (fi y) = (1 <? Z.abs (a - x2))).
  { intros a Ha. rewrite lineCond_int; unfold small; lia. }
  assert (Hstep : forall a, 0 <= a <= 2 ^ 24 - 1 -> 1 < Z.abs (a - x2) ->
            lineStep false (S754_zero sg) (fi y) (fi x2) (fi y) (fi a) (fi y)
            = (fi (a + stepDir a x2), fi y)).
  { intros a Ha Hgt. unfold lineStep, lineBranch.
    replace (F32.ltb (S754_zero sg) f_one) with true by now destruct sg.
    assert (Hsm : small (a + stepDir a x2))
      by (unfold small, stepDir; destruct (Z.ltb_spec a x2); lia).
    cbv zeta. rewrite stepToward_int; [| unfold small; lia | unfold small; lia | assumption].
    destruct (mul_int_zero (a + stepDir a x2) sg Hsm) as [sg' ->].
    rewrite add_zero_int by (unfold small; lia). reflexivity. }
  assert (Hround : forall a, 0 <= a <= 2 ^ 24 - 1 ->
            fRound (fi a) = Some a /\ fRound (fi y) = Some y).
  { intros a Ha. unfold fi. rewrite !fRound_of_int by lia.
    destruct (Z.ltb_spec y 0); [lia |]. destruct (Z.ltb_spec a 0); [lia |].
    now split. }
  rewrite (walk_loop false _ _ (fi x2) (fi y) fi (fun _ => fi y) (fun a => a)
             (fun _ => y) x2 0 (2 ^ 24 - 1) Hcond Hstep Hround ltac:(lia)
             (Z.to_nat (Z.abs (x1 - x2) - 1)) x1); try lia.
  cbn [fmap list_fmap plotAll foldl]. simpl fst. simpl snd.
  do 2 f_equal. rewrite <- !list_fmap_compose. reflexivity.
Qed.

(** X13: a vertical line between two points with integer coordinates in
    [0, 2^24): [drawLine] returns as soon as the fuel covers the distance,
    and lights the pixels of the column from the start point toward the end
    point, the end point itself excluded (it is lit only when it is the
    start point). *)
Theorem drawLine_vertical (s : Surface) (x y1 y2 qx qy : Z) (fuel : nat) :
  wf_surface s ->
  0 <= x < 2 ^ 24 -> 0 <= y1 < 2 ^ 24 -> 0 <= y2 < 2 ^ 24 ->
  Z.abs (y2 - y1) <= Z.of_nat fuel ->
  exists s',
    drawLine fuel s (fi x) (fi y1) (fi x) (fi y2) = Done s' /\
    wf_surface s' /\ width s' = width s /\ height s' = height s /\
    (inRange s qx qy ->
     (readDot s' qx qy = true
      <-> readDot s qx qy = true \/
          (qx = x /\ (qy = y1 \/ y1 < qy < y2 \/ y2 < qy < y1)))).
Proof.
  intros Hwf Hx H1 H2 Hfuel.
  eexists. split; [now apply drawLine_vertical_pixels |].
  match goal with |- wf_surface (plotAll s ?l) /\ _ =>
    destruct (plotAll_wf_dims l s Hwf) as (W1 & W2 & W3) end.
  split; [assumption |]. split; [assumption |]. split; [assumption |].
  intros Hq. rewrite plotAll_ones_lit by assumption.
  rewrite elem_of_cons, list_elem_of_fmap.
  split; (intros [H | H]; [now left | right]).
  - destruct H as [H | (b & H & Hb)].
    + injection H as -> ->. split; [reflexivity | now left].
    + injection H as -> ->. split; [reflexivity | right].
      apply elem_of_walkFrom in Hb; [assumption | lia].
  - destruct H as [-> [-> | H]]; [now left | right].
    exists qy. split; [reflexivity |]. apply elem_of_walkFrom; [lia | assumption].
Qed.

(** X14: a horizontal line between two distinct points with integer
    coordinates in [0, 2^24): [drawLine] returns as soon as the fuel covers
    the distance, and lights the pixels of the row from the start point
    toward the end point, the end point itself excluded. *)
Theorem drawLine_horizontal (s : Surface) (x1 x2 y qx qy : Z) (fuel : nat) :
  wf_surface s ->
  0 <= x1 < 2 ^ 24 -> 0 <= x2 < 2 ^ 24 -> 0 <= y < 2 ^ 24 -> x1 <> x2 ->
  Z.abs (x2 - x1) <= Z.of_nat fuel ->
  exists s',
    drawLine fuel s (fi x1) (fi y) (fi x2) (fi y) = Done s' /\
    wf_surface s' /\ width s' = width s /\ height s' = height s /\
    (inRange s qx qy ->
     (readDot s' qx qy = true
      <-> readDot s qx qy = true \/
          (qy = y /\ (x1 <= qx < x2 \/ x2 < qx <= x1)))).
Proof.
  intros Hwf H1 H2 Hy Hne Hfuel.
  eexists. split; [now apply drawLine_horizontal_pixels |].
  match goal with |- wf_surface (plotAll s ?l) /\ _ =>
    destruct (plotAll_wf_dims l s Hwf) as (W1 & W2 & W3) end.
  split; [assumption |]. split; [assumption |]. split; [assumption |].
  intros Hq. rewrite plotAll_ones_lit by assumption.
  rewrite elem_of_cons, list_elem_of_fmap.
  split; (intros [H | H]; [now left | right]).
  - destruct H as [H | (b & H & Hb)].
    + injection H as -> ->. split; [reflexivity | lia].
    + injection H as -> ->. split; [reflexivity |].
      apply elem_of_walkFrom in Hb; lia.
  - destruct H as [-> H].
    destruct (Z.eq_dec qx x1) as [-> | Hd]; [now left | right].
    exists qx. split; [reflexivity |]. apply elem_of_walkFrom; lia.
Qed.

End AxisLines.

(** ** Reading a frame back *)

Section Frames.

Lemma render_stream (tab screenBuffer : list Z) (s : Surface) :
  wf_surface s ->
  Z.of_nat (length screenBuffer) = width s * height s * 3 + 12 ->
  render tab screenBuffer s
  = hideCursor ++ cursorHome
    ++ (c ← data s; glyphBytes (default 0 (tab !! Z.to_nat c)))
    ++ cursorHome.
Proof.
  intros (Hw & Hh & _ & _ & _ & Hlen & _) Hbuf.
  unfold render.
  assert (Hn : Z.to_nat (width s * height s) = length (data s)) by lia.
  rewrite Hn.
  set (n := length (data s)) in *.
  assert (Hb : length screenBuffer = (n * 3 + 12)%nat) by lia.
  replace (memcpy screenBuffer 0 hideCursor)
    with (hideCursor ++ drop (length hideCursor) screenBuffer)
    by reflexivity.
  rewrite (memcpy_at hideCursor _ cursorHome).
  replace (hideCursor ++ cursorHome
           ++ drop (length cursorHome) (drop (length hideCursor) screenBuffer))
    with ((hideCursor ++ cursorHome) ++ drop 9 screenBuffer)
    by (rewrite <- app_assoc, drop_drop; reflexivity).
  change 9%nat with (length (hideCursor ++ cursorHome)) at 2.
  rewrite renderCells_spec by (rewrite length_drop; lia).
  unfold n at 1. rewrite glyphsFrom_all.
  set (gl := data s ≫= _).
  assert (Hgl : length gl = (3 * n)%nat) by apply glyphs_length.
  rewrite drop_drop.
  replace (length (hideCursor ++ cursorHome) + 3 * n)%nat
    with (length ((hideCursor ++ cursorHome) ++ gl))
    by (rewrite !length_app, Hgl; reflexivity).
  rewrite app_assoc, memcpy_at.
  rewrite drop_drop, drop_ge by (simpl; lia).
  rewrite take_ge.
  - rewrite <- !app_assoc. reflexivity.
  - rewrite !length_app, Hgl. simpl. lia.
Qed.

Lemma decodeGlyphs_glyphs (cells rest : list Z) :
  Forall (fun b => 0 <= b < 256) cells ->
  decodeGlyphs (length cells)
    ((c ← cells; glyphBytes (default 0 (genBrailleTab !! Z.to_nat c))) ++ rest)
  = cells.
Proof.
  induction 1 as [| c cells Hc _ IH]; [reflexivity |].
  rewrite bind_cons, genBrailleTab_lookup by lia. simpl default.
  rewrite utf8Encode_three_bytes by lia.
  destruct (utf8_three_bytes_decode (0x2800 + c) _ _ _ ltac:(lia) eq_refl)
    as (_ & _ & _ & Hd).
  unfold utf8_three_bytes. rewrite <- app_assoc.
  cbn [app length decodeGlyphs]. unfold decodeGlyph. rewrite Hd, IH.
  f_equal. lia.
Qed.

(** X17: decoding the frame that [render] writes with the generated table
    gives back the cells of the surface: the frame starts with the
    hide-cursor and cursor-home sequences, and its glyphs are, in buffer
    order, the code points [0x2800 + cell]. *)
Theorem render_decode (screenBuffer : list Z) (s : Surface) :
  wf_surface s ->
  Z.of_nat (length screenBuffer) = width s * height s * 3 + 12 ->
  take 9 (render genBrailleTab screenBuffer s) = hideCursor ++ cursorHome /\
  decodeFrame (render genBrailleTab screenBuffer s) = data s.
Proof.
  intros Hwf Hbuf. rewrite render_stream by assumption.
  destruct Hwf as (Hw & Hh & _ & _ & _ & Hlen & Hbytes).
  split; [reflexivity |].
  unfold decodeFrame. rewrite !length_app, glyphs_length.
  change (drop 9 (hideCursor ++ cursorHome ++ ?l)) with l.
  replace (Z.to_nat _) with (length (data s)).
  - now apply decodeGlyphs_glyphs.
  - simpl length.
    replace (Z.of_nat (6 + (3 + (3 * length (data s) + 3))) - 12)
      with (Z.of_nat (length (data s)) * 3) by lia.
    rewrite Z.div_mul by lia. lia.
Qed.

Lemma render_decode_witness :
  decodeFrame (render genBrailleTab (replicate 24 7) (mkSurface [1; 0; 255; 64] 2 2))
  = [1; 0; 255; 64].
Proof.
  apply (render_decode (replicate 24 7) (mkSurface [1; 0; 255; 64] 2 2)).
  - unfold wf_surface, INT_MAX. simpl. repeat split; try lia.
    repeat constructor; lia.
  - reflexivity.
Defined.

End Frames.

(** ** A cleared and a fresh surface *)

Section Fresh.

(** X1: whatever the cells hold, [clearSurface] leaves the blank surface
    of the same dimensions: every cell is 0 and no dot is lit.  The
    number of cells is an [int], so that the index [y * width + x] of the
    code does not overflow. *)
Theorem clearSurface_blank (s : Surface) :
  0 <= width s -> 0 <= height s ->
  width s * height s <= INT_MAX ->
  Z.of_nat (length (data s)) = width s * height s ->
  clearSurface s = blank (width s) (height s) /\
  (forall x y, readDot (clearSurface s) x y = false).
Proof. intros Hw Hh _. now apply clearSurface_blank_dots. Qed.

Lemma clearSurface_blank_witness :
  clearSurface (mkSurface [3; 7; 255; 1] 2 2) = blank 2 2.
Proof.
  apply (clearSurface_blank (mkSurface [3; 7; 255; 1] 2 2));
    unfold INT_MAX; simpl; lia.
Defined.

(** X18: a terminal of [ws_col] by [ws_row] cells gives a well-formed
    surface that does not depend on what the allocated memory held, and
    whose first frame is made of the empty glyph U+2800 only. *)
Theorem initSurface_fresh (ws_col ws_row : Z) (mem screenBuffer : list Z) :
  0 <= ws_col <= 65535 -> 0 <= ws_row <= 65535 ->
  ws_col * ws_row * 4 <= INT_MAX ->
  Z.of_nat (length mem) = ws_col * ws_row ->
  Z.of_nat (length screenBuffer) = ws_col * ws_row * 3 + 12 ->
  wf_surface (initSurface ws_col ws_row mem) /\
  initSurface ws_col ws_row mem = blank ws_col ws_row /\
  render genBrailleTab screenBuffer (initSurface ws_col ws_row mem)
  = hideCursor ++ cursorHome
    ++ concat (replicate (Z.to_nat (ws_col * ws_row)) (utf8_three_bytes 0x2800))
    ++ cursorHome.
Proof.
  intros Hc Hr Hsz Hmem Hbuf.
  assert (Heq : initSurface ws_col ws_row mem = blank ws_col ws_row).
  { unfold initSurface.
    now destruct (clearSurface_blank_dots (mkSurface mem ws_col ws_row)) as [-> _];
      simpl; try lia. }
  assert (Hwf : wf_surface (blank ws_col ws_row))
    by (apply wf_blank; unfold INT_MAX in *; lia).
  rewrite Heq. split; [assumption |]. split; [reflexivity |].
  rewrite render_stream by (unfold blank; simpl; assumption).
  do 2 f_equal. f_equal. unfold blank. simpl.
  induction (Z.to_nat (ws_col * ws_row)) as [| n IH]; [reflexivity |].
  cbn [concat replicate]. rewrite bind_cons. f_equal. apply IH.
Qed.

Lemma initSurface_fresh_witness :
  initSurface 2 1 [255; 9] = blank 2 1.
Proof.
  apply (initSurface_fresh 2 1 [255; 9] (replicate 18 0));
    unfold INT_MAX; simpl; lia.
Defined.

End Fresh.

(** ** From a raster file to the surface *)

Section RasterToSurface.

(** X4: for a file that holds its header and all its pixels
    ([rasterInBounds]), the byte of the pixel in column [x] of row [y] is
    stored at index [y * width + x]; it is computed from the three bytes
    at [dataOffset + 3 * (y * width + x)], which lie inside the file, the
    rows following each other without padding, and it is 1 exactly when
    the three bytes are 0.  A width or a height of 0 gives no pixel. *)
Theorem loadBitmap_pixel (buf : list Z) (x y : Z) :
  let w := readInt buf 0x12 in
  let h := readInt buf 0x16 in
  let p := readInt buf 0x0A mod 2 ^ 32 + (y * w + x) * 3 in
  Forall (fun b => 0 <= b < 256) buf ->
  rasterInBounds buf ->
  width (loadBitmap buf) = w /\ height (loadBitmap buf) = h /\
  (w = 0 \/ h = 0 -> data (loadBitmap buf) = []) /\
  (0 <= x < w -> 0 <= y < h ->
   0 <= p /\ p + 2 < Z.of_nat (length buf) /\
   (y * w + x) * 3 <= INT_MAX /\
   data (loadBitmap buf) !! Z.to_nat (y * w + x)
   = Some (if (byteAt buf p =? 0) && (byteAt buf (p + 1) =? 0)
              && (byteAt buf (p + 2) =? 0) then 1 else 0)).
Proof.
  intros w h p Hb (Hlen & Hw & Hh & Hin). fold w h in Hw, Hh, Hin.
  destruct (loadBitmap_lookup buf x y Hb) as (H1 & H2 & H3 & H4).
  split; [assumption |]. split; [assumption |]. split.
  - intros Hz. apply H3. fold w h. lia.
  - intros Hx Hy.
    assert (Hoff : 0 <= readInt buf 0x0A mod 2 ^ 32)
      by (apply Z.mod_pos_bound; lia).
    assert (Hidx : 0 <= y * w + x < w * h) by nia.
    subst p. repeat split; try lia. now apply H4.
Qed.

Lemma loadBitmap_pixel_witness :
  data (loadBitmap (rasterFile 2 1 [0; 0; 0; 255; 255; 255])) !! 1%nat = Some 0.
Proof.
  destruct (loadBitmap_pixel (rasterFile 2 1 [0; 0; 0; 255; 255; 255]) 1 0)
    as (_ & _ & _ & H).
  - vm_compute. repeat constructor; discriminate.
  - unfold rasterInBounds, INT_MAX. vm_compute.
    repeat split; discriminate.
  - destruct H as (_ & _ & _ & H);
      [vm_compute; split; [discriminate | reflexivity] .. | exact H].
Defined.

(** X12: [drawBitmap] at a position on or right of and above the origin
    copies the bitmap: the call returns, and afterwards a pixel of the
    surface inside the rectangle of the bitmap is lit exactly when the byte
    of the bitmap for it is not 0, dots being cleared as well as set; the
    pixels outside the rectangle are as before. *)
Theorem drawBitmap_blit (s bitmap : Surface) (x y qx qy : Z) :
  wf_surface s ->
  Z.of_nat (length (data bitmap)) = width bitmap * height bitmap ->
  0 <= x -> 0 <= y ->
  x + width bitmap < 2 ^ 24 -> y + height bitmap < 2 ^ 24 ->
  exists s',
    drawBitmap s bitmap x y = Some s' /\
    wf_surface s' /\ width s' = width s /\ height s' = height s /\
    (inRange s qx qy ->
     readDot s' qx qy
     = if (x <=? qx) && (qx <? x + width bitmap)
          && (y <=? qy) && (qy <? y + height bitmap)
       then negb (byteAt (data bitmap) ((qy - y) * width bitmap + (qx - x)) =? 0)
       else readDot s qx qy).
Proof. apply drawBitmap_dots. Qed.

(** X19: a raster file that holds its header and all its pixels
    ([rasterInBounds]), loaded and drawn at a position on or right of and
    above the origin, shows its black pixels: inside the rectangle of the
    image a pixel of the surface is lit afterwards exactly when the three
    bytes of its pixel in the file are 0, and the pixels outside are as
    before. *)
Theorem drawBitmap_of_loadBitmap (s : Surface) (buf : list Z) (x y qx qy : Z) :
  let w := readInt buf 0x12 in
  let h := readInt buf 0x16 in
  let p := readInt buf 0x0A mod 2 ^ 32 + ((qy - y) * w + (qx - x)) * 3 in
  wf_surface s ->
  Forall (fun b => 0 <= b < 256) buf ->
  rasterInBounds buf ->
  0 <= x -> 0 <= y -> x + w < 2 ^ 24 -> y + h < 2 ^ 24 ->
  exists s',
    drawBitmap s (loadBitmap buf) x y = Some s' /\
    wf_surface s' /\ width s' = width s /\ height s' = height s /\
    (inRange s qx qy ->
     readDot s' qx qy
     = if (x <=? qx) && (qx <? x + w) && (y <=? qy) && (qy <? y + h)
       then (byteAt buf p =? 0) && (byteAt buf (p + 1) =? 0)
            && (byteAt buf (p + 2) =? 0)
       else readDot s qx qy).
Proof.
  intros w h p Hwf Hb (_ & Hw0 & Hh0 & _) Hx Hy Hw Hh. fold w h in Hw0, Hh0.
  destruct (loadBitmap_lookup buf (qx - x) (qy - y) Hb) as (Ew & Eh & _ & Hpix).
  fold w h p in Ew, Eh, Hpix.
  destruct (drawBitmap_dots s (loadBitmap buf) x y qx qy Hwf) as (s' & Hd & Hr);
    try (rewrite ?Ew, ?Eh; lia).
  { destruct (loadBitmap_one_byte_per_pixel buf) as [Hl _]. cbv zeta in Hl.
    rewrite Ew, Eh in *. rewrite Hl, Nat2Z.inj_mul, !Z2Nat.id by lia. lia. }
  exists s'. split; [assumption |].
  destruct Hr as (H1 & H2 & H3 & Hdots).
  split; [assumption |]. split; [assumption |]. split; [assumption |].
  intros Hq. rewrite (Hdots Hq), Ew, Eh.
  destruct ((x <=? qx) && (qx <? x + w) && (y <=? qy) && (qy <? y + h)) eqn:Hin;
    [| reflexivity].
  rewrite !andb_true_iff, !Z.leb_le, !Z.ltb_lt in Hin.
  unfold byteAt at 1. rewrite Hpix by lia. simpl default.
  now destruct ((byteAt buf p =? 0) && (byteAt buf (p + 1) =? 0)
                && (byteAt buf (p + 2) =? 0)).
Qed.

End RasterToSurface.

(** ** Integer coordinates *)

Section IntegerCoordinates.

(** X15: a coordinate that is an integer of less than 25 bits survives the
    conversion to [float] and the rounding of [drawPoint] when it is not
    negative, and is moved by one toward zero when it is negative: the
    point of column [-1] is plotted in column 0. *)
Theorem drawPoint_integer_coordinates (s : Surface) (x y value : Z) :
  exactInt x -> exactInt y ->
  fRound (fi x) = Some (if x <? 0 then x + 1 else x) /\
  drawPoint s (fi x) (fi y) value
  = Some (drawPixel s (roundInt x) (roundInt y) value) /\
  (wf_surface s -> x = -1 -> inRange s 0 y -> value <> 0 ->
   exists s', drawPoint s (fi x) (fi y) value = Some (0, s') /\
              readDot s' 0 y = true).
Proof.
  intros Hx Hy.
  assert (Hd : drawPoint s (fi x) (fi y) value
               = Some (drawPixel s (roundInt x) (roundInt y) value)).
  { unfold drawPoint, fi. now rewrite !fRound_of_int by assumption. }
  split; [now apply fRound_of_int |]. split; [assumption |].
  intros Hwf -> Hr Hv. rewrite Hd.
  assert (Ey : roundInt y = y) by (apply roundInt_nonneg; unfold inRange in Hr; lia).
  rewrite Ey. change (roundInt (-1)) with 0.
  exists (plot s 0 y value). split.
  - pose proof (drawPixel_result s 0 y value) as Hres.
    rewrite bool_decide_true in Hres by assumption.
    unfold plot. destruct (drawPixel s 0 y value) as [r s']. simpl in *.
    now subst r.
  - rewrite readDot_plot by assumption.
    rewrite bool_decide_true by reflexivity.
    apply negb_true_iff. now apply Z.eqb_neq.
Qed.

Lemma drawPoint_integer_coordinates_witness :
  fRound (fi (-3)) = Some (-2).
Proof.
  apply (drawPoint_integer_coordinates (blank 1 1) (-3) 0 1);
    unfold exactInt; simpl; lia.
Defined.

(** X16: on integers of less than 25 bits whose difference has less than
    25 bits, [fAbs] is the exact distance. *)
Theorem fAbs_exact_on_integers (a b : Z) :
  small a -> small b -> small (a - b) ->
  fAbs (fi a) (fi b) = fi (Z.abs (a - b)) /\
  fAbs (fi a) (fi b) = fAbs (fi b) (fi a).
Proof.
  intros Ha Hb Hab.
  rewrite !fAbs_int; try assumption.
  - split; [reflexivity |]. f_equal. lia.
  - unfold small in *. lia.
Qed.

Lemma fAbs_exact_on_integers_witness :
  fAbs (fi 3) (fi (-5)) = fi 8.
Proof.
  apply (fAbs_exact_on_integers 3 (-5)); unfold small; simpl; lia.
Defined.

End IntegerCoordinates.

(** ** Examples on a surface of 2 by 2 cells *)

Section Witnesses.

Lemma wf_blank_2_2 : wf_surface (blank 2 2).
Proof. apply wf_blank; vm_compute; discriminate. Qed.

Lemma drawRect_filled_witness :
  exists s', drawRect (blank 2 2) 1 1 2 2 1 = Some s' /\ readDot s' 2 2 = true.
Proof.
  destruct (drawRect_filled (blank 2 2) 1 1 2 2 1 2 2 wf_blank_2_2)
    as (s' & H & _ & _ & _ & Hd); try lia.
  exists s'. split; [exact H |].
  apply Hd; [unfold inRange; simpl; lia | right; lia].
Defined.

Lemma drawRect_outline_witness :
  exists s', drawRect (blank 2 2) 0 0 3 3 0 = Some s' /\ readDot s' 1 1 = false.
Proof.
  destruct (drawRect_outline (blank 2 2) 0 0 3 3 1 1 wf_blank_2_2)
    as (s' & H & _ & _ & _ & Hd); try lia.
  exists s'. split; [exact H |].
  apply not_true_is_false. intros Hlit.
  apply Hd in Hlit; [| unfold inRange; simpl; lia].
  destruct Hlit as [Hlit | Hlit]; [discriminate Hlit | lia].
Defined.

Lemma drawBitmap_blit_witness :
  exists s', drawBitmap (blank 2 2) (mkSurface [1; 0] 2 1) 1 1 = Some s' /\
             readDot s' 1 1 = true.
Proof.
  destruct (drawBitmap_blit (blank 2 2) (mkSurface [1; 0] 2 1) 1 1 1 1 wf_blank_2_2)
    as (s' & H & _ & _ & _ & Hd); simpl; try lia.
  exists s'. split; [exact H |].
  rewrite Hd by (unfold inRange; simpl; lia). reflexivity.
Defined.

Lemma drawBitmap_of_loadBitmap_witness :
  exists s', drawBitmap (blank 2 2)
               (loadBitmap (rasterFile 2 1 [0; 0; 0; 255; 255; 255])) 1 1 = Some s' /\
             readDot s' 1 1 = true.
Proof.
  destruct (drawBitmap_of_loadBitmap (blank 2 2)
              (rasterFile 2 1 [0; 0; 0; 255; 255; 255]) 1 1 1 1 wf_blank_2_2)
    as (s' & H & _ & _ & _ & Hd);
    try (vm_compute; discriminate).
  - vm_compute. repeat constructor; discriminate.
  - unfold rasterInBounds, INT_MAX. vm_compute. repeat split; discriminate.
  - vm_compute. reflexivity.
  - vm_compute. reflexivity.
  - exists s'. split; [exact H |].
    rewrite Hd by (unfold inRange; simpl; lia). reflexivity.
Defined.

Lemma drawLine_vertical_witness :
  exists s', drawLine 3 (blank 2 2) (fi 1) (fi 0) (fi 1) (fi 3) = Done s' /\
             readDot s' 1 2 = true.
Proof.
  destruct (drawLine_vertical (blank 2 2) 1 0 3 1 2 3 wf_blank_2_2)
    as (s' & H & _ & _ & _ & Hd); try lia.
  exists s'. split; [exact H |].
  apply Hd; [unfold inRange; simpl; lia | right; lia].
Defined.

Lemma drawLine_horizontal_witness :
  exists s', drawLine 3 (blank 2 2) (fi 3) (fi 1) (fi 0) (fi 1) = Done s' /\
             readDot s' 0 1 = false.
Proof.
  destruct (drawLine_horizontal (blank 2 2) 3 0 1 0 1 3 wf_blank_2_2)
    as (s' & H & _ & _ & _ & Hd); try lia.
  exists s'. split; [exact H |].
  apply not_true_is_false. intros Hlit.
  apply Hd in Hlit; [| unfold inRange; simpl; lia].
  destruct Hlit as [Hlit | Hlit]; [discriminate Hlit | lia].
Defined.

End Witnesses.

